(** * A shallow embedding of [pathtrace.cu]

    The per-iteration pipeline of the CUDA path tracer: camera ray
    generation, the brute-force and the stackless BVH intersection kernels,
    stream compaction of the active rays, scattering, the final gather and
    the host loop that drives them.

    Conventions.
    - [float] is IEEE binary32, computed by the Standard Library's
      [SpecFloat] with a 24-bit mantissa; comparisons involving a NaN are
      false, as in C.
    - [int] values are [Z]; where the source adds two ints the wrap-around to
      32 bits is written out ([add32]).
    - A device array is a [list]; an index is a [Z].  A read outside the
      array yields whatever the [Stray] environment holds there (the source
      gives such a read no defined value), a write outside the array is
      dropped.
    - A kernel launch over [n] lanes is the sequential run of its per-lane
      body for lanes [0 .. n-1]; every lane writes only its own slot of the
      per-lane arrays.  Lane coordinates are kept as unbounded integers:
      they are the [int] coordinates of the source as long as they stay
      below 2^31, as they do for a resolution of at most [INT_MAX - 7] in
      each direction ([grid_lanes_int]).
    - The headers [intersections.h], [interactions.h], [utilities.h] and the
      thrust random engine are not part of the translated file; their
      functions are fields of the classes [Intersections], [Interactions],
      [Utilities] and [Thrust]. *)

From Stdlib Require Import ZArith Lia Bool List.
From Stdlib Require Import Floats.SpecFloat.
From stdpp Require Import base tactics option numbers list.

Local Open Scope Z_scope.

(** ** binary32 arithmetic *)

Definition float := spec_float.

Definition prec32 : Z := 24.
Definition emax32 : Z := 128.

Definition fadd : float -> float -> float := SFadd prec32 emax32.
Definition fsub : float -> float -> float := SFsub prec32 emax32.
Definition fmul : float -> float -> float := SFmul prec32 emax32.
Definition fdiv : float -> float -> float := SFdiv prec32 emax32.
Definition fsqrt : float -> float := SFsqrt prec32 emax32.
Definition fneg : float -> float := SFopp.
Definition fltb : float -> float -> bool := SFltb.
Definition feqb : float -> float -> bool := SFeqb.
Definition fleb : float -> float -> bool := SFleb.

(** [(float)n] for an int [n]. *)
Definition float_of_int (n : Z) : float := binary_normalize prec32 emax32 n 0 false.

(** The constants of the source, as the binary32 values they denote:
    mantissa and exponent of the nearest float. *)
Definition f_zero : float := S754_zero false.
Definition f_one : float := S754_finite false 8388608 (-23).
Definition f_two : float := S754_finite false 8388608 (-22).
Definition f_half : float := S754_finite false 8388608 (-24).
Definition f_minus_one : float := S754_finite true 8388608 (-23).
(** [FLT_MAX], [1e20f] and [SCATTER_ORIGIN_OFFSETMULT = 0.1f]. *)
Definition FLT_MAX : float := S754_finite false 16777215 104.
Definition f_1e20 : float := S754_finite false 11368684 43.
Definition SCATTER_ORIGIN_OFFSETMULT : float := S754_finite false 13421773 (-27).

(** Proof scripts never unfold the arithmetic by simplification. *)
Arguments fadd : simpl never.
Arguments fsub : simpl never.
Arguments fmul : simpl never.
Arguments fdiv : simpl never.
Arguments fsqrt : simpl never.
Arguments fneg : simpl never.
Arguments fltb : simpl never.
Arguments feqb : simpl never.
Arguments fleb : simpl never.
Arguments float_of_int : simpl never.
Arguments f_zero : simpl never.
Arguments f_one : simpl never.
Arguments f_two : simpl never.
Arguments f_half : simpl never.
Arguments f_minus_one : simpl never.
Arguments FLT_MAX : simpl never.
Arguments f_1e20 : simpl never.
Arguments SCATTER_ORIGIN_OFFSETMULT : simpl never.

(** ** glm vectors *)

Record vec2 := mkVec2 { v2x : float; v2y : float }.
Record vec3 := mkVec3 { vx : float; vy : float; vz : float }.
Record ivec3 := mkIVec3 { ix : Z; iy : Z; iz : Z }.
Record mat3 := mkMat3 { m3c0 : vec3; m3c1 : vec3; m3c2 : vec3 }.
Record vec4 := mkVec4 { v4x : float; v4y : float; v4z : float; v4w : float }.
Record mat4 := mkMat4 { m4c0 : vec4; m4c1 : vec4; m4c2 : vec4; m4c3 : vec4 }.

Definition vec3_splat (a : float) : vec3 := mkVec3 a a a.
Definition vadd (a b : vec3) : vec3 :=
  mkVec3 (fadd (vx a) (vx b)) (fadd (vy a) (vy b)) (fadd (vz a) (vz b)).
Definition vsub (a b : vec3) : vec3 :=
  mkVec3 (fsub (vx a) (vx b)) (fsub (vy a) (vy b)) (fsub (vz a) (vz b)).
Definition vmul (a b : vec3) : vec3 :=
  mkVec3 (fmul (vx a) (vx b)) (fmul (vy a) (vy b)) (fmul (vz a) (vz b)).
Definition vscale (a : vec3) (k : float) : vec3 :=
  mkVec3 (fmul (vx a) k) (fmul (vy a) k) (fmul (vz a) k).
Definition vdivs (a : vec3) (k : float) : vec3 :=
  mkVec3 (fdiv (vx a) k) (fdiv (vy a) k) (fdiv (vz a) k).
Definition vneg (a : vec3) : vec3 := mkVec3 (fneg (vx a)) (fneg (vy a)) (fneg (vz a)).
Definition vdot (a b : vec3) : float :=
  fadd (fadd (fmul (vx a) (vx b)) (fmul (vy a) (vy b))) (fmul (vz a) (vz b)).
Definition vlength (a : vec3) : float := fsqrt (vdot a a).
Definition vdistance (a b : vec3) : float := vlength (vsub b a).
Definition vnormalize (a : vec3) : vec3 := vscale a (fdiv f_one (fsqrt (vdot a a))).

(** [glm::transpose(m) * v] and [m * v] for a matrix given by its columns. *)
Definition mat3_transpose_mul (m : mat3) (v : vec3) : vec3 :=
  mkVec3 (vdot (m3c0 m) v) (vdot (m3c1 m) v) (vdot (m3c2 m) v).
Definition mat3_mul (m : mat3) (v : vec3) : vec3 :=
  vadd (vadd (vscale (m3c0 m) (vx v)) (vscale (m3c1 m) (vy v))) (vscale (m3c2 m) (vz v)).

(** [util_math_is_nan]: a component differs from itself. *)
Definition util_math_is_nan (v : vec3) : bool :=
  negb (feqb (vx v) (vx v)) || negb (feqb (vy v) (vy v)) || negb (feqb (vz v) (vz v)).

(** ** 32-bit ints *)

Definition wrap32 (z : Z) : Z := (z + 2 ^ 31) mod 2 ^ 32 - 2 ^ 31.
Definition add32 (a b : Z) : Z := wrap32 (a + b).
Definition to_u32 (z : Z) : Z := z mod 2 ^ 32.
Definition INT_MAX : Z := 2 ^ 31 - 1.

(** ** Scene structures *)

Record Ray := mkRay { origin : vec3; direction : vec3 }.

Record PathSegment := mkPathSegment {
  ray : Ray;
  color : vec3;
  pixelIndex : Z;
  remainingBounces : Z }.

(** The cached [type] tag is kept as the raw enum value, which is what the
    zero-clear and the material sort see. *)
Record ShadeableIntersection := mkShadeableIntersection {
  t : float;
  surfaceNormal : vec3;
  worldPos : vec3;
  materialId : Z;
  type : Z }.

Inductive GeomType := SPHERE | CUBE | MODEL.

Record Object := mkObject {
  otype : GeomType;
  materialid : Z;
  triangleStart : Z;
  triangleEnd : Z;
  Transform : mat4 }.

Record Primitive := mkPrimitive { objID : Z; offset : Z }.

Record AABB := mkAABB { pMin : vec3; pMax : vec3 }.

Record BVHGPUNode := mkBVHGPUNode {
  bbox : AABB;
  parent : Z;
  left : Z;
  right : Z;
  startPrim : Z;
  endPrim : Z }.

Inductive MaterialType := diffuse | frenselSpecular | microfacet | emitting.

Record Material := mkMaterial {
  mtype : MaterialType;
  mcolor : vec3;
  emittance : float;
  roughness : float;
  indexOfRefraction : float }.

Record Camera := mkCamera {
  resolution_x : Z;
  resolution_y : Z;
  position : vec3;
  view : vec3;
  up : vec3;
  right_ : vec3;
  pixelLength : vec2 }.

#[export] Instance float_eq_dec : EqDecision float.
Proof. solve_decision. Defined.
#[export] Instance vec3_eq_dec : EqDecision vec3.
Proof. solve_decision. Defined.
#[export] Instance MaterialType_eq_dec : EqDecision MaterialType.
Proof. solve_decision. Defined.
#[export] Instance GeomType_eq_dec : EqDecision GeomType.
Proof. solve_decision. Defined.

(** ** Device arrays *)

(** [arr[i]]: the element when [i] is inside the array, [stray i] otherwise. *)
Definition rd {A} (stray : Z -> A) (arr : list A) (i : Z) : A :=
  if (0 <=? i) && (i <? Z.of_nat (length arr))
  then nth (Z.to_nat i) arr (stray i)
  else stray i.

(** [arr[i] = v], dropped outside the array. *)
Definition wr {A} (arr : list A) (i : Z) (v : A) : list A :=
  if 0 <=? i then <[Z.to_nat i := v]> arr else arr.

(** What reads outside the scene arrays return. *)
Class Stray := {
  stray_node : Z -> BVHGPUNode;
  stray_object : Z -> Object;
  stray_primitive : Z -> Primitive;
  stray_triangle : Z -> ivec3;
  stray_vertex : Z -> vec3;
  stray_material : Z -> Material;
  stray_path : Z -> PathSegment;
  stray_intersection : Z -> ShadeableIntersection;
  stray_int : Z -> Z;
  stray_pixel : Z -> vec3 }.

(** Locals that the source declares without an initial value. *)
Class Uninit := {
  uninit_vec3 : vec3;
  uninit_intersection : ShadeableIntersection }.

(** ** The headers that are not part of the translated file *)

(** [sceneStructs.h]: the numeric value of each [MaterialType] enumerator. *)
Class SceneStructs := {
  MaterialType_code : MaterialType -> Z }.

(** [intersections.h].  A ray test returns its [t] together with the values
    it leaves in its two out-parameters (hit point and normal). *)
Class Intersections := {
  boxIntersectionTest : Object -> Ray -> float * vec3 * vec3;
  sphereIntersectionTest : Object -> Ray -> float * vec3 * vec3;
  triangleIntersectionTest : mat4 -> vec3 -> vec3 -> vec3 -> Ray -> float * vec3 * vec3;
  boundingBoxIntersectionTest : AABB -> Ray -> bool }.

(** A BSDF sample: the returned value, the sampled direction [wi] and the
    [pdf] the sampler leaves behind (it is 0 before the call). *)
Record BxdfSample := mkBxdfSample { bs_f : vec3; bs_wi : vec3; bs_pdf : float }.

(** [interactions.h]. *)
Class Interactions := {
  util_math_get_TBN : vec3 -> vec3 * vec3;
  util_math_abscos : vec3 -> float;
  bxdf_diffuse_sample_f : vec3 -> vec2 -> vec3 -> BxdfSample;
  bxdf_microfacet_sample_f : vec3 -> vec2 -> vec3 -> float -> BxdfSample;
  bxdf_frensel_specular_sample_f : vec3 -> vec2 -> vec3 -> vec3 -> vec2 -> BxdfSample }.

(** [utilities.h]: the integer hash, on unsigned 32-bit values. *)
Class Utilities := {
  utilhash : Z -> Z }.

(** thrust: the default random engine with its uniform [0,1) distribution,
    and [sort_by_key] on a key range with its value range. *)
Class Thrust := {
  default_random_engine : Type;
  seed_engine : Z -> default_random_engine;
  u01 : default_random_engine -> float * default_random_engine;
  sort_by_key :
    (ShadeableIntersection -> ShadeableIntersection -> bool) ->
    list ShadeableIntersection -> list PathSegment ->
    list ShadeableIntersection * list PathSegment }.

(** ** Control helpers *)

(** A loop body run over a list of indices; [None] is a run without a
    defined result. *)
Fixpoint loopM {A S : Type} (body : A -> S -> option S) (l : list A) (s : S) : option S :=
  match l with
  | [] => Some s
  | a :: l' =>
      match body a s with
      | Some s' => loopM body l' s'
      | None => None
      end
  end.

(** The indices of [for (int i = lo; i != hi; i++)]; the loop has no defined
    result when [hi < lo]. *)
Definition for_range (lo hi : Z) : option (list Z) :=
  if lo <=? hi then Some (seqZ lo (hi - lo)) else None.

(** A one-dimensional launch of [blocks] blocks of [blockSize] lanes. *)
Definition launch1d {S : Type} (blocks blockSize : Z) (body : Z -> S -> option S) (s : S)
  : option S :=
  loopM body (seqZ 0 (blocks * blockSize)) s.

(** A two-dimensional launch; the body receives [(x, y)]. *)
Definition launch2d {S : Type} (blocks_x blocks_y blockSize_x blockSize_y : Z)
    (body : Z -> Z -> S -> option S) (s : S) : option S :=
  loopM (fun y s1 => loopM (fun x s2 => body x y s2) (seqZ 0 (blocks_x * blockSize_x)) s1)
        (seqZ 0 (blocks_y * blockSize_y)) s.

Definition MAX_ITER : Z := 8.
Definition USE_BVH : bool := true.
Definition SORT_BY_MATERIAL_TYPE : bool := false.
Definition blockSize1d : Z := 128.

(** [(n + blockSize1d - 1) / blockSize1d], on ints. *)
Definition blocks1d (n : Z) : Z :=
  Z.quot (add32 (add32 n blockSize1d) (-1)) blockSize1d.

(** [(n + blockSize2d.x - 1) / blockSize2d.x]: the int [n] meets the
    unsigned block size 8, so the sum and the quotient are unsigned. *)
Definition blocks2d (n : Z) : Z := Z.quot (to_u32 (n + 8 - 1)) 8.

Arguments blocks1d : simpl never.
Arguments blocks2d : simpl never.

(** ** Random engines *)

Section Seeding.
Context `{Utilities} `{Thrust}.

(** [utilhash((1 << 31) | (depth << 22) | iter) ^ utilhash(index)] *)
Definition makeSeededRandomEngine (iter index depth : Z) : default_random_engine :=
  let h := Z.lxor
             (utilhash (to_u32 (Z.lor (Z.lor (Z.shiftl 1 31) (Z.shiftl depth 22)) iter)))
             (utilhash (to_u32 index)) in
  seed_engine (wrap32 h).
End Seeding.

(** ** Path generation *)

Section Generate.
Context `{Utilities} `{Thrust}.

(** The [STOCHASTIC_SAMPLING] direction of pixel [(x, y)]. *)
Definition camera_direction (cam : Camera) (x y : Z) (rng : default_random_engine) : vec3 :=
  let '(u1, rng1) := u01 rng in
  let '(u2, _) := u01 rng1 in
  let jitter u := fmul f_half (fsub (fmul u f_two) f_one) in
  let ax := fadd (fsub (float_of_int x) (fmul (float_of_int (resolution_x cam)) f_half))
                 (jitter u1) in
  let ay := fadd (fsub (float_of_int y) (fmul (float_of_int (resolution_y cam)) f_half))
                 (jitter u2) in
  vnormalize
    (vsub (vsub (view cam) (vscale (vscale (right_ cam) (v2x (pixelLength cam))) ax))
          (vscale (vscale (up cam) (v2y (pixelLength cam))) ay)).

(** The segment a lane writes for pixel [(x, y)]. *)
Definition camera_segment (cam : Camera) (iter traceDepth x y : Z) : PathSegment :=
  let rng := makeSeededRandomEngine x y iter in
  {| ray := {| origin := position cam; direction := camera_direction cam x y rng |};
     color := vec3_splat f_one;
     pixelIndex := wrap32 (x + y * resolution_x cam);
     remainingBounces := traceDepth |}.

Definition generateRayFromCamera (cam : Camera) (iter traceDepth : Z) (x y : Z)
    (pathSegments : list PathSegment) : list PathSegment :=
  if (x <? resolution_x cam) && (y <? resolution_y cam) then
    let index := wrap32 (x + y * resolution_x cam) in
    wr pathSegments index (camera_segment cam iter traceDepth x y)
  else pathSegments.

(** The generation launch of [pathtrace]: blocks of 8 by 8 lanes covering
    the resolution. *)
Definition generate_launch (cam : Camera) (iter traceDepth : Z)
    (pathSegments : list PathSegment) : option (list PathSegment) :=
  launch2d (blocks2d (resolution_x cam)) (blocks2d (resolution_y cam)) 8 8
    (fun x y p => Some (generateRayFromCamera cam iter traceDepth x y p)) pathSegments.
End Generate.

(** ** The brute-force intersection kernel *)

(** The locals of one lane of [compute_intersection]. *)
Record bf_locals := mkBfLocals {
  bf_t : float;
  bf_t_min : float;
  bf_hit_material_index : Z;
  bf_intersect_point : vec3;
  bf_normal : vec3;
  bf_tmp_intersect : vec3;
  bf_tmp_normal : vec3 }.

Section BruteForce.
Context `{Stray} `{Uninit} `{Intersections}.

Definition bf_init : bf_locals :=
  {| bf_t := f_minus_one; bf_t_min := FLT_MAX; bf_hit_material_index := -1;
     bf_intersect_point := uninit_vec3; bf_normal := uninit_vec3;
     bf_tmp_intersect := uninit_vec3; bf_tmp_normal := uninit_vec3 |}.

(** The result of a ray test stored into [t] and the two temporaries. *)
Definition bf_store (r : float * vec3 * vec3) (s : bf_locals) : bf_locals :=
  {| bf_t := r.1.1; bf_t_min := bf_t_min s;
     bf_hit_material_index := bf_hit_material_index s;
     bf_intersect_point := bf_intersect_point s; bf_normal := bf_normal s;
     bf_tmp_intersect := r.1.2; bf_tmp_normal := r.2 |}.

(** [if (t > 0.0f && t_min > t) { t_min = t; ... }] *)
Definition bf_keep_nearer (geom : Object) (s : bf_locals) : bf_locals :=
  if fltb f_zero (bf_t s) && fltb (bf_t s) (bf_t_min s) then
    {| bf_t := bf_t s; bf_t_min := bf_t s;
       bf_hit_material_index := materialid geom;
       bf_intersect_point := bf_tmp_intersect s; bf_normal := bf_tmp_normal s;
       bf_tmp_intersect := bf_tmp_intersect s; bf_tmp_normal := bf_tmp_normal s |}
  else s.

(** One round of the inner loop over the triangles of a mesh. *)
Definition bf_triangle (modelTriangles : list ivec3) (modelVertices : list vec3)
    (geom : Object) (r : Ray) (s : bf_locals) (i : Z) : bf_locals :=
  let tri := rd stray_triangle modelTriangles i in
  let v0 := rd stray_vertex modelVertices (ix tri) in
  let v1 := rd stray_vertex modelVertices (iy tri) in
  let v2 := rd stray_vertex modelVertices (iz tri) in
  bf_keep_nearer geom
    (bf_store (triangleIntersectionTest (Transform geom) v0 v1 v2 r) s).

(** One round of the outer loop over the objects. *)
Definition bf_object (geoms : list Object) (modelTriangles : list ivec3)
    (modelVertices : list vec3) (r : Ray) (i : Z) (s : bf_locals) : option bf_locals :=
  let geom := rd stray_object geoms i in
  s1 ← match otype geom with
       | CUBE => Some (bf_store (boxIntersectionTest geom r) s)
       | SPHERE => Some (bf_store (sphereIntersectionTest geom r) s)
       | MODEL =>
           idxs ← for_range (triangleStart geom) (triangleEnd geom);
           Some (foldl (bf_triangle modelTriangles modelVertices geom r) s idxs)
       end;
  Some (bf_keep_nearer geom s1).

Definition bf_scan (geoms : list Object) (geoms_size : Z) (modelTriangles : list ivec3)
    (modelVertices : list vec3) (r : Ray) : option bf_locals :=
  loopM (bf_object geoms modelTriangles modelVertices r) (seqZ 0 geoms_size) bf_init.

(** The four fields the kernel stores on a hit; [type] is left alone. *)
Definition bf_record (old : ShadeableIntersection) (s : bf_locals) : ShadeableIntersection :=
  {| t := bf_t_min s; surfaceNormal := bf_normal s; worldPos := bf_intersect_point s;
     materialId := bf_hit_material_index s; type := type old |}.

(** One lane of [compute_intersection], on the arrays it writes. *)
Definition compute_intersection (num_paths : Z) (pathSegments : list PathSegment)
    (geoms : list Object) (geoms_size : Z) (modelTriangles : list ivec3)
    (modelVertices : list vec3) (path_index : Z)
    (out : list ShadeableIntersection * list Z)
  : option (list ShadeableIntersection * list Z) :=
  let '(intersections, rayValid) := out in
  if path_index <? num_paths then
    let pathSegment := rd stray_path pathSegments path_index in
    s ← bf_scan geoms geoms_size modelTriangles modelVertices (ray pathSegment);
    if feqb (bf_t_min s) FLT_MAX then
      Some (intersections, wr rayValid path_index 0)
    else
      Some (wr intersections path_index
               (bf_record (rd stray_intersection intersections path_index) s),
            wr rayValid path_index 1)
  else Some out.
End BruteForce.

(** ** The stackless BVH kernel *)

Inductive bvh_traverse_state := fromChild | fromParent | fromSibling.

(** The locals of the traversal loop. *)
Record walk := mkWalk {
  curr : Z;
  state : bvh_traverse_state;
  tmpIntersection : ShadeableIntersection;
  intersected : bool }.

(** What one round of the [while] body does: go on, or [break]. *)
Inductive flow := Continue (w : walk) | Exit (w : walk).

Section Bvh.
Context `{Stray} `{Uninit} `{SceneStructs} `{Intersections}.

Definition util_bvh_get_sibling (bvhArray : list BVHGPUNode) (curr : Z) : Z :=
  let parent := parent (rd stray_node bvhArray curr) in
  if parent =? -1 then -1
  else if left (rd stray_node bvhArray parent) =? curr
       then right (rd stray_node bvhArray parent)
       else left (rd stray_node bvhArray parent).

Definition aabb_center (b : AABB) : vec3 := vscale (vadd (pMin b) (pMax b)) f_half.

Definition util_bvh_get_near_child (bvhArray : list BVHGPUNode) (curr : Z) (rayOri : vec3) : Z :=
  let node := rd stray_node bvhArray curr in
  let cl := aabb_center (bbox (rd stray_node bvhArray (left node))) in
  let cr := aabb_center (bbox (rd stray_node bvhArray (right node))) in
  let distl := vdistance cl rayOri in
  let distr := vdistance cr rayOri in
  if fltb distl distr then left node else right node.

Definition util_bvh_is_leaf (bvhArray : list BVHGPUNode) (curr : Z) : bool :=
  (left (rd stray_node bvhArray curr) =? -1) && (right (rd stray_node bvhArray curr) =? -1).

(** The ray test of primitive [i], by the type of its object. *)
Definition prim_test (primitives : list Primitive) (objects : list Object)
    (modelTriangles : list ivec3) (modelVertices : list vec3) (r : Ray) (i : Z)
  : float * vec3 * vec3 :=
  let prim := rd stray_primitive primitives i in
  let obj := rd stray_object objects (objID prim) in
  match otype obj with
  | MODEL =>
      let tri := rd stray_triangle modelTriangles (add32 (triangleStart obj) (offset prim)) in
      let v0 := rd stray_vertex modelVertices (ix tri) in
      let v1 := rd stray_vertex modelVertices (iy tri) in
      let v2 := rd stray_vertex modelVertices (iz tri) in
      triangleIntersectionTest (Transform obj) v0 v1 v2 r
  | CUBE => boxIntersectionTest obj r
  | SPHERE => sphereIntersectionTest obj r
  end.

(** One round of the loop of [util_bvh_leaf_intersect]: the flag and the
    record behind the [intersection] pointer. *)
Definition leaf_prim (primitives : list Primitive) (objects : list Object)
    (modelTriangles : list ivec3) (modelVertices : list vec3) (r : Ray)
    (acc : bool * ShadeableIntersection) (i : Z) : bool * ShadeableIntersection :=
  let obj := rd stray_object objects (objID (rd stray_primitive primitives i)) in
  let res := prim_test primitives objects modelTriangles modelVertices r i in
  if fltb f_zero res.1.1 && fltb res.1.1 (t acc.2) then
    (true, {| t := res.1.1; surfaceNormal := res.2; worldPos := res.1.2;
              materialId := materialid obj; type := type acc.2 |})
  else acc.

Definition util_bvh_leaf_intersect (bvhArray : list BVHGPUNode) (curr : Z)
    (primitives : list Primitive) (objects : list Object) (modelTriangles : list ivec3)
    (modelVertices : list vec3) (r : Ray) (intersection : ShadeableIntersection)
  : option (bool * ShadeableIntersection) :=
  let node := rd stray_node bvhArray curr in
  idxs ← for_range (startPrim node) (endPrim node);
  Some (foldl (leaf_prim primitives objects modelTriangles modelVertices r)
              (false, intersection) idxs).

(** The leaf branch shared by [fromSibling] and [fromParent]: test the
    leaf, then leave for [next] in state [st]. *)
Definition visit_leaf (bvhArray : list BVHGPUNode) (primitives : list Primitive)
    (objects : list Object) (modelTriangles : list ivec3) (modelVertices : list vec3)
    (r : Ray) (w : walk) (next : Z) (st : bvh_traverse_state) : option flow :=
  '(hit, isect) ← util_bvh_leaf_intersect bvhArray (curr w) primitives objects
                    modelTriangles modelVertices r (tmpIntersection w);
  Some (Continue {| curr := next; state := st; tmpIntersection := isect;
                    intersected := if hit : bool then true else intersected w |}).

Definition goto (w : walk) (next : Z) (st : bvh_traverse_state) : flow :=
  Continue {| curr := next; state := st; tmpIntersection := tmpIntersection w;
              intersected := intersected w |}.

(** The body of the [while] loop. *)
Definition bvh_step (bvhArray : list BVHGPUNode) (primitives : list Primitive)
    (objects : list Object) (modelTriangles : list ivec3) (modelVertices : list vec3)
    (r : Ray) (w : walk) : option flow :=
  let rayOri := origin r in
  match state w with
  | fromChild =>
      if curr w =? 0 then Some (Exit w)
      else
        let parent := parent (rd stray_node bvhArray (curr w)) in
        if curr w =? util_bvh_get_near_child bvhArray parent rayOri
        then Some (goto w (util_bvh_get_sibling bvhArray (curr w)) fromSibling)
        else Some (goto w parent fromChild)
  | fromSibling =>
      if negb (boundingBoxIntersectionTest (bbox (rd stray_node bvhArray (curr w))) r)
      then Some (goto w (parent (rd stray_node bvhArray (curr w))) fromChild)
      else if util_bvh_is_leaf bvhArray (curr w)
      then visit_leaf bvhArray primitives objects modelTriangles modelVertices r w
             (parent (rd stray_node bvhArray (curr w))) fromChild
      else Some (goto w (util_bvh_get_near_child bvhArray (curr w) rayOri) fromParent)
  | fromParent =>
      if negb (boundingBoxIntersectionTest (bbox (rd stray_node bvhArray (curr w))) r)
      then Some (goto w (util_bvh_get_sibling bvhArray (curr w)) fromSibling)
      else if util_bvh_is_leaf bvhArray (curr w)
      then visit_leaf bvhArray primitives objects modelTriangles modelVertices r w
             (util_bvh_get_sibling bvhArray (curr w)) fromSibling
      else Some (goto w (util_bvh_get_near_child bvhArray (curr w) rayOri) fromParent)
  end.

(** [while (curr >= 0 && curr < bvhArraySize)], with a bound on the number
    of rounds; [None] when the bound is reached or a round has no result. *)
Fixpoint bvh_walk (fuel : nat) (bvhArray : list BVHGPUNode) (bvhArraySize : Z)
    (primitives : list Primitive) (objects : list Object) (modelTriangles : list ivec3)
    (modelVertices : list vec3) (r : Ray) (w : walk) : option walk :=
  if (0 <=? curr w) && (curr w <? bvhArraySize) then
    match fuel with
    | O => None
    | S fuel' =>
        match bvh_step bvhArray primitives objects modelTriangles modelVertices r w with
        | Some (Continue w') =>
            bvh_walk fuel' bvhArray bvhArraySize primitives objects modelTriangles
              modelVertices r w'
        | Some (Exit w') => Some w'
        | None => None
        end
    end
  else Some w.

Definition bvh_start (bvhArray : list BVHGPUNode) (r : Ray) : walk :=
  {| curr := util_bvh_get_near_child bvhArray 0 (origin r);
     state := fromParent;
     tmpIntersection :=
       {| t := f_1e20; surfaceNormal := surfaceNormal uninit_intersection;
          worldPos := worldPos uninit_intersection;
          materialId := materialId uninit_intersection;
          type := type uninit_intersection |};
     intersected := false |}.

(** The record stored on a hit: the walk's record with the material's
    type tag copied in. *)
Definition bvh_record (materials : list Material) (tmp : ShadeableIntersection)
  : ShadeableIntersection :=
  {| t := t tmp; surfaceNormal := surfaceNormal tmp; worldPos := worldPos tmp;
     materialId := materialId tmp;
     type := MaterialType_code (mtype (rd stray_material materials (materialId tmp))) |}.

(** One lane of [compute_intersection_bvh_stackless]. *)
Definition compute_intersection_bvh_stackless (fuel : nat) (num_paths : Z)
    (pathSegments : list PathSegment) (materials : list Material) (objects : list Object)
    (modelTriangles : list ivec3) (modelVertices : list vec3)
    (primitives : list Primitive) (bvhArray : list BVHGPUNode) (bvhArraySize : Z)
    (path_index : Z) (out : list ShadeableIntersection * list Z)
  : option (list ShadeableIntersection * list Z) :=
  let '(intersections, rayValid) := out in
  if num_paths <=? path_index then Some out
  else
    let pathSegment := rd stray_path pathSegments path_index in
    w ← bvh_walk fuel bvhArray bvhArraySize primitives objects modelTriangles
          modelVertices (ray pathSegment) (bvh_start bvhArray (ray pathSegment));
    let rayValid' := wr rayValid path_index (if intersected w then 1 else 0) in
    if intersected w
    then Some (wr intersections path_index (bvh_record materials (tmpIntersection w)),
               rayValid')
    else Some (intersections, rayValid').
End Bvh.

(** ** Scattering *)

(** The arrays a lane of the scatter kernel writes. *)
Record scatter_out := mkScatterOut {
  so_paths : list PathSegment;
  so_rayValid : list Z;
  so_image : list vec3 }.

Section Scatter.
Context `{Stray} `{Interactions} `{Utilities} `{Thrust}.

Definition set_color (p : PathSegment) (c : vec3) : PathSegment :=
  {| ray := ray p; color := c; pixelIndex := pixelIndex p;
     remainingBounces := remainingBounces p |}.

Definition set_ray (p : PathSegment) (r : Ray) : PathSegment :=
  {| ray := r; color := color p; pixelIndex := pixelIndex p;
     remainingBounces := remainingBounces p |}.

(** [image[i] += c] *)
Definition image_add (image : list vec3) (i : Z) (c : vec3) : list vec3 :=
  wr image i (vadd (rd stray_pixel image i) c).

(** The engine of lane [idx]: [makeSeededRandomEngine(iter, idx, 0)]. *)
Definition scatter_engine (iter idx : Z) : default_random_engine :=
  makeSeededRandomEngine iter idx 0.

(** The two uniform numbers handed to a sampler, in the order they are
    drawn. *)
Definition draw2 (rng : default_random_engine) : vec2 :=
  let '(u1, rng1) := u01 rng in
  let '(u2, _) := u01 rng1 in
  mkVec2 u1 u2.

(** The sampler picked by the material type, on the local direction [wo]. *)
Definition sample_bsdf (material : Material) (woInWorld N wo : vec3)
    (rng : default_random_engine) : BxdfSample :=
  let materialColor := mcolor material in
  match mtype material with
  | frenselSpecular =>
      let iors := if fltb (vdot woInWorld N) f_zero
                  then mkVec2 f_one (indexOfRefraction material)
                  else mkVec2 (indexOfRefraction material) f_one in
      bxdf_frensel_specular_sample_f wo (draw2 rng) materialColor materialColor iors
  | microfacet =>
      bxdf_microfacet_sample_f wo (draw2 rng) materialColor (roughness material)
  | _ => bxdf_diffuse_sample_f wo (draw2 rng) materialColor
  end.

(** One lane of [scatter_on_intersection] ([VIS_NORMAL] is 0). *)
Definition scatter_on_intersection (iter num_paths : Z)
    (shadeableIntersections : list ShadeableIntersection) (materials : list Material)
    (idx : Z) (o : scatter_out) : scatter_out :=
  if num_paths <=? idx then o
  else
    let intersection := rd stray_intersection shadeableIntersections idx in
    let rng := scatter_engine iter idx in
    let material := rd stray_material materials (materialId intersection) in
    let materialColor := mcolor material in
    let seg := rd stray_path (so_paths o) idx in
    if decide (mtype material = emitting) then
      let c := vmul (color seg) (vscale materialColor (emittance material)) in
      {| so_paths := wr (so_paths o) idx (set_color seg c);
         so_rayValid := wr (so_rayValid o) idx 0;
         so_image := if negb (util_math_is_nan c)
                     then image_add (so_image o) (pixelIndex seg) c
                     else so_image o |}
    else
      let woInWorld := direction (ray seg) in
      let N := vnormalize (surfaceNormal intersection) in
      let '(T, B) := util_math_get_TBN N in
      let TBN := mkMat3 T B N in
      let wo := vnormalize (mat3_transpose_mul TBN (vneg woInWorld)) in
      let smp := sample_bsdf material woInWorld N wo rng in
      if fltb f_zero (bs_pdf smp) then
        let c := vmul (color seg)
                      (vdivs (vscale (bs_f smp) (util_math_abscos (bs_wi smp))) (bs_pdf smp)) in
        let newDir := vnormalize (mat3_mul TBN (bs_wi smp)) in
        let offset := if fltb (vdot newDir N) f_zero then vneg N else N in
        let r' := {| origin := vadd (worldPos intersection)
                                    (vscale offset SCATTER_ORIGIN_OFFSETMULT);
                     direction := newDir |} in
        {| so_paths := wr (so_paths o) idx (set_ray (set_color seg c) r');
           so_rayValid := wr (so_rayValid o) idx 1;
           so_image := so_image o |}
      else
        {| so_paths := so_paths o;
           so_rayValid := wr (so_rayValid o) idx 0;
           so_image := so_image o |}.

(** One lane of [finalGather]. *)
Definition finalGather (nPaths : Z) (iterationPaths : list PathSegment) (index : Z)
    (image : list vec3) : list vec3 :=
  if index <? nPaths then
    let iterationPath := rd stray_path iterationPaths index in
    if negb (util_math_is_nan (color iterationPath))
    then image_add image (pixelIndex iterationPath) (color iterationPath)
    else image
  else image.
End Scatter.

(** ** Compaction *)

(** The device buffers the host code owns. *)
Record Device := mkDevice {
  dev_image : list vec3;
  dev_paths1 : list PathSegment;
  dev_paths2 : list PathSegment;
  dev_intersections1 : list ShadeableIntersection;
  dev_intersections2 : list ShadeableIntersection;
  rayValid : list Z;
  rayIndex : list Z }.

(** [mat_comp]: order by the cached type tag. *)
Definition mat_comp (a b : ShadeableIntersection) : bool := type a <? type b.

(** Running sums of [l] starting from [acc], one per element. *)
Fixpoint scan_from (acc : Z) (l : list Z) : list Z :=
  match l with
  | [] => []
  | x :: l' => acc :: scan_from (add32 acc x) l'
  end.

(** [thrust::exclusive_scan(in, in + n, out)] *)
Definition exclusive_scan (n : Z) (input output : list Z) : list Z :=
  let sums := scan_from 0 (take (Z.to_nat n) input) in
  sums ++ drop (length sums) output.

Section Compact.
Context `{Stray} `{Thrust}.

(** [thrust::scatter_if(in, in + n, map, stencil, out)] *)
Definition scatter_if {A} (stray : Z -> A) (n : Z) (input : list A) (map stencil : list Z)
    (output : list A) : list A :=
  foldl (fun out i =>
           if rd stray_int stencil i =? 0 then out
           else wr out (rd stray_int map i) (rd stray input i))
        output (seqZ 0 n).

(** [compact_rays]: the new count and the device after the swap. *)
Definition compact_rays (d : Device) (numRays : Z) (sortByMat : bool) : Z * Device :=
  let rayIndex' := exclusive_scan numRays (rayValid d) (rayIndex d) in
  let nextNumRays := add32 (rd stray_int rayIndex' (numRays - 1))
                           (rd stray_int (rayValid d) (numRays - 1)) in
  let paths2 := scatter_if stray_path numRays (dev_paths1 d) rayIndex' (rayValid d)
                  (dev_paths2 d) in
  let inters2 := scatter_if stray_intersection numRays (dev_intersections1 d) rayIndex'
                   (rayValid d) (dev_intersections2 d) in
  let '(inters2', paths2') :=
    if sortByMat then
      let n := Z.to_nat nextNumRays in
      let '(ks, vs) := sort_by_key mat_comp (take n inters2) (take n paths2) in
      (ks ++ drop n inters2, vs ++ drop n paths2)
    else (inters2, paths2) in
  (nextNumRays,
   {| dev_image := dev_image d;
      dev_paths1 := paths2'; dev_paths2 := dev_paths1 d;
      dev_intersections1 := inters2'; dev_intersections2 := dev_intersections1 d;
      rayValid := rayValid d; rayIndex := rayIndex' |}).
End Compact.

(** ** The host loop *)

Record Scene := mkScene {
  objects : list Object;
  materials : list Material;
  bvhArray : list BVHGPUNode;
  primitives : list Primitive;
  triangles : list ivec3;
  verticies : list vec3;
  camera : Camera;
  traceDepth : Z }.

(** The locals of [pathtrace] that the bounce loop updates; [TracedDepth] is
    the field of the GUI container, when there is one. *)
Record Loop := mkLoop {
  depth : Z;
  numRays : Z;
  dev : Device;
  TracedDepth : option Z }.

Section Pathtrace.
Context `{Stray} `{Uninit} `{SceneStructs} `{Intersections} `{Interactions}
        `{Utilities} `{Thrust}.

Definition zero_vec3 : vec3 := vec3_splat f_zero.

(** The record a zero [cudaMemset] leaves. *)
Definition zero_intersection : ShadeableIntersection :=
  {| t := f_zero; surfaceNormal := zero_vec3; worldPos := zero_vec3;
     materialId := 0; type := 0 |}.

Definition set_intersections1 (d : Device) (l : list ShadeableIntersection) : Device :=
  {| dev_image := dev_image d; dev_paths1 := dev_paths1 d; dev_paths2 := dev_paths2 d;
     dev_intersections1 := l; dev_intersections2 := dev_intersections2 d;
     rayValid := rayValid d; rayIndex := rayIndex d |}.

(** [cudaMemset(dev_intersections1, 0, pixelcount * sizeof(...))] *)
Definition clear_intersections (pixelcount : Z) (d : Device) : Device :=
  set_intersections1 d
    (replicate (Z.to_nat pixelcount) zero_intersection
       ++ drop (Z.to_nat pixelcount) (dev_intersections1 d)).

(** The intersection launch of one bounce, by [USE_BVH]. *)
Definition trace_bounce (use_bvh : bool) (fuel : nat) (sc : Scene) (blocks : Z)
    (numRays : Z) (d : Device) : option Device :=
  out ← launch1d blocks blockSize1d
          (if use_bvh then
             compute_intersection_bvh_stackless fuel numRays (dev_paths1 d) (materials sc)
               (objects sc) (triangles sc) (verticies sc) (primitives sc) (bvhArray sc)
               (Z.of_nat (length (bvhArray sc)))
           else
             compute_intersection numRays (dev_paths1 d) (objects sc)
               (Z.of_nat (length (objects sc))) (triangles sc) (verticies sc))
          (dev_intersections1 d, rayValid d);
  Some {| dev_image := dev_image d; dev_paths1 := dev_paths1 d; dev_paths2 := dev_paths2 d;
          dev_intersections1 := out.1; dev_intersections2 := dev_intersections2 d;
          rayValid := out.2; rayIndex := rayIndex d |}.

(** The scatter launch of one bounce. *)
Definition scatter_bounce (sc : Scene) (iter blocks numRays : Z) (d : Device) : option Device :=
  o ← launch1d blocks blockSize1d
        (fun idx o => Some (scatter_on_intersection iter numRays (dev_intersections1 d)
                              (materials sc) idx o))
        {| so_paths := dev_paths1 d; so_rayValid := rayValid d; so_image := dev_image d |};
  Some {| dev_image := so_image o; dev_paths1 := so_paths o; dev_paths2 := dev_paths2 d;
          dev_intersections1 := dev_intersections1 d;
          dev_intersections2 := dev_intersections2 d;
          rayValid := so_rayValid o; rayIndex := rayIndex d |}.

(** The guard of the bounce loop: [numRays && depth < MAX_ITER]. *)
Definition loop_guard (l : Loop) : bool := negb (numRays l =? 0) && (depth l <? MAX_ITER).

(** One round of the bounce loop; [Exit]-like early leave is the [break]
    after the first compaction, reported by the boolean. *)
Definition bounce_round (use_bvh sort_by_material : bool) (fuel : nat) (sc : Scene)
    (iter pixelcount : Z) (gui : bool) (l : Loop) : option (bool * Loop) :=
  let d0 := clear_intersections pixelcount (dev l) in
  let blocks := blocks1d (numRays l) in
  d1 ← trace_bounce use_bvh fuel sc blocks (numRays l) d0;
  let depth' := add32 (depth l) 1 in
  let '(n2, d2) := compact_rays d1 (numRays l) sort_by_material in
  if n2 =? 0 then
    Some (true, {| depth := depth'; numRays := n2; dev := d2; TracedDepth := TracedDepth l |})
  else
    d3 ← scatter_bounce sc iter blocks n2 d2;
    let '(n4, d4) := compact_rays d3 n2 false in
    Some (false, {| depth := depth'; numRays := n4; dev := d4;
                    TracedDepth := if gui then Some depth' else TracedDepth l |}).

(** [while (numRays && depth < MAX_ITER) { ... }] with a bound on the
    number of rounds. *)
Fixpoint bounce_loop (rounds : nat) (use_bvh sort_by_material : bool) (fuel : nat)
    (sc : Scene) (iter pixelcount : Z) (gui : bool) (l : Loop) : option Loop :=
  if loop_guard l then
    match rounds with
    | O => None
    | S rounds' =>
        match bounce_round use_bvh sort_by_material fuel sc iter pixelcount gui l with
        | Some (true, l') => Some l'
        | Some (false, l') =>
            bounce_loop rounds' use_bvh sort_by_material fuel sc iter pixelcount gui l'
        | None => None
        end
    end
  else Some l.

(** The gather after the loop: launched only when rays are left. *)
Definition gather (l : Loop) : option (list vec3) :=
  if numRays l =? 0 then Some (dev_image (dev l))
  else
    launch1d (blocks1d (numRays l)) blockSize1d
      (fun index image => Some (finalGather (numRays l) (dev_paths1 (dev l)) index image))
      (dev_image (dev l)).

(** The locals before the first round: depth 0, one ray per pixel, the
    generated paths, and two fresh arrays of [pixelcount] ints of which
    nothing is known. *)
Definition loop_start (pixelcount : Z) (d : Device) (paths : list PathSegment) : Loop :=
  {| depth := 0; numRays := pixelcount;
     dev := {| dev_image := dev_image d; dev_paths1 := paths; dev_paths2 := dev_paths2 d;
               dev_intersections1 := dev_intersections1 d;
               dev_intersections2 := dev_intersections2 d;
               rayValid := List.map stray_int (seqZ 0 pixelcount);
               rayIndex := List.map stray_int (seqZ 0 pixelcount) |};
     TracedDepth := None |}.

(** [pathtrace], up to the image it leaves on the device.  [rounds] bounds
    the bounce loop and [fuel] each BVH walk. *)
Definition pathtrace_with (use_bvh sort_by_material : bool) (rounds fuel : nat)
    (sc : Scene) (iter : Z) (gui : bool) (d : Device) : option (Loop * list vec3) :=
  let cam := camera sc in
  let pixelcount := wrap32 (resolution_x cam * resolution_y cam) in
  paths ← generate_launch cam iter (traceDepth sc) (dev_paths1 d);
  l ← bounce_loop rounds use_bvh sort_by_material fuel sc iter pixelcount gui
        (loop_start pixelcount d paths);
  image ← gather l;
  Some (l, image).

Definition pathtrace := pathtrace_with USE_BVH SORT_BY_MATERIAL_TYPE.
End Pathtrace.

(** ** Specification-level notions *)

(** The sum of a list, in unbounded integers. *)
Definition zsum (fs : list Z) : Z := foldr Z.add 0 fs.

(** The exclusive prefix sum of the flags at index [i]. *)
Definition prefix_sum (flags : list Z) (i : Z) : Z := zsum (take (Z.to_nat i) flags).

(** The elements of [input] whose flag is set, in their original order. *)
Fixpoint survivors {A} (flags : list Z) (input : list A) : list A :=
  match flags, input with
  | f :: fs, x :: xs => if f =? 0 then survivors fs xs else x :: survivors fs xs
  | _, _ => []
  end.

(** Every flag among the first [n] is 0 or 1. *)
Definition flags01 (n : Z) (flags : list Z) : Prop :=
  Forall (λ f, f = 0 ∨ f = 1) (take (Z.to_nat n) flags).

(** What [compact_rays] expects of the device: an int count of at least one,
    buffers that hold that many entries, and 0/1 flags. *)
Record compactable (d : Device) (n : Z) : Prop := mkCompactable {
  cp_count : 1 ≤ n ≤ INT_MAX;
  cp_valid : n ≤ Z.of_nat (length (rayValid d));
  cp_index : n ≤ Z.of_nat (length (rayIndex d));
  cp_paths1 : n ≤ Z.of_nat (length (dev_paths1 d));
  cp_paths2 : n ≤ Z.of_nat (length (dev_paths2 d));
  cp_inters1 : n ≤ Z.of_nat (length (dev_intersections1 d));
  cp_inters2 : n ≤ Z.of_nat (length (dev_intersections2 d));
  cp_flags : flags01 n (rayValid d) }.

(** The static buffers as [pathtraceInit] allocates them: [pixelcount]
    entries each. *)
Record allocated (pixelcount : Z) (d : Device) : Prop := mkAllocated {
  al_image : Z.of_nat (length (dev_image d)) = pixelcount;
  al_paths1 : Z.of_nat (length (dev_paths1 d)) = pixelcount;
  al_paths2 : Z.of_nat (length (dev_paths2 d)) = pixelcount;
  al_inters1 : Z.of_nat (length (dev_intersections1 d)) = pixelcount;
  al_inters2 : Z.of_nat (length (dev_intersections2 d)) = pixelcount }.

(** What holds of the loop state whenever the guard is evaluated: the count
    lies between 0 and [pixelcount], every buffer has [pixelcount] entries,
    and the pixels of the active paths are distinct pixels of the image, in
    increasing order. *)
Record loop_sized (pixelcount : Z) (l : Loop) : Prop := mkLoopSized {
  ls_count : 0 ≤ numRays l ≤ pixelcount;
  ls_max : pixelcount ≤ INT_MAX - blockSize1d;
  ls_alloc : allocated pixelcount (dev l);
  ls_valid : Z.of_nat (length (rayValid (dev l))) = pixelcount;
  ls_index : Z.of_nat (length (rayIndex (dev l))) = pixelcount;
  ls_pixels : pixelIndex <$> take (Z.to_nat (numRays l)) (dev_paths1 (dev l))
              `sublist_of` seqZ 0 pixelcount }.

(** Since the iteration began with image [image0], nothing has been added
    at the pixels of the paths that are still active. *)
Definition untouched `{Stray} (image0 : list vec3) (l : Loop) : Prop :=
  ∀ q, q ∈ pixelIndex <$> take (Z.to_nat (numRays l)) (dev_paths1 (dev l)) →
       rd stray_pixel (dev_image (dev l)) q = rd stray_pixel image0 q.

(** ** The BVH data model *)

(** The tree a flat BVH array encodes: node indices, leaves and interior
    nodes. *)
Inductive bvh_tree := BLeaf (i : Z) | BNode (i : Z) (l r : bvh_tree).

Definition tree_root (tr : bvh_tree) : Z :=
  match tr with BLeaf i => i | BNode i _ _ => i end.

Fixpoint tree_size (tr : bvh_tree) : nat :=
  match tr with BLeaf _ => 1 | BNode _ l r => S (tree_size l + tree_size r) end.

(** A candidate of the nearest-hit search: the object index and, for a mesh
    triangle, its index in the triangle array. *)
Definition cand_key : Type := Z * option Z.

(** What the search keeps for a candidate: [t], hit point, normal and
    material id. *)
Definition cand_hit : Type := float * vec3 * vec3 * Z.

Section DataModel.
Context `{Stray} `{Intersections}.

(** Reading the tree below node [i] off the array, checking the invariants
    of the data model on the way: [i] is inside the array, its parent
    field is [up], it is a leaf (both children -1, non-empty primitive
    range) or has two distinct children that are trees themselves. *)
Fixpoint bvh_shape (fuel : nat) (arr : list BVHGPUNode) (up i : Z) : option bvh_tree :=
  match fuel with
  | O => None
  | S fuel' =>
      let node := rd stray_node arr i in
      if (0 <=? i) && (i <? Z.of_nat (length arr)) && (parent node =? up) then
        if (left node =? -1) && (right node =? -1) then
          if startPrim node <? endPrim node then Some (BLeaf i) else None
        else if left node =? right node then None
        else
          l ← bvh_shape fuel' arr i (left node);
          r ← bvh_shape fuel' arr i (right node);
          Some (BNode i l r)
      else None
  end.

(** The primitive indices of the leaves of a tree, left to right. *)
Fixpoint tree_prims (arr : list BVHGPUNode) (tr : bvh_tree) : list Z :=
  match tr with
  | BLeaf i =>
      let node := rd stray_node arr i in
      seqZ (startPrim node) (endPrim node - startPrim node)
  | BNode _ l r => tree_prims arr l ++ tree_prims arr r
  end.

(** The candidates the brute-force kernel goes through, in its order. *)
Definition object_keys (geoms : list Object) (o : Z) : list cand_key :=
  let geom := rd stray_object geoms o in
  match otype geom with
  | MODEL => (λ k, (o, Some k)) <$> seqZ (triangleStart geom) (triangleEnd geom - triangleStart geom)
  | _ => [(o, None)]
  end.

Definition bf_keys (geoms : list Object) : list cand_key :=
  seqZ 0 (Z.of_nat (length geoms)) ≫= object_keys geoms.

(** The candidate a primitive stands for. *)
Definition prim_key (primitives : list Primitive) (geoms : list Object) (i : Z) : cand_key :=
  let prim := rd stray_primitive primitives i in
  let obj := rd stray_object geoms (objID prim) in
  match otype obj with
  | MODEL => (objID prim, Some (add32 (triangleStart obj) (offset prim)))
  | _ => (objID prim, None)
  end.

(** The ray test of a candidate and what is kept of it. *)
Definition key_test (geoms : list Object) (modelTriangles : list ivec3)
    (modelVertices : list vec3) (r : Ray) (k : cand_key) : float * vec3 * vec3 :=
  let obj := rd stray_object geoms k.1 in
  match k.2 with
  | Some i =>
      let tri := rd stray_triangle modelTriangles i in
      triangleIntersectionTest (Transform obj)
        (rd stray_vertex modelVertices (ix tri)) (rd stray_vertex modelVertices (iy tri))
        (rd stray_vertex modelVertices (iz tri)) r
  | None =>
      match otype obj with
      | CUBE => boxIntersectionTest obj r
      | _ => sphereIntersectionTest obj r
      end
  end.

Definition key_hit (geoms : list Object) (modelTriangles : list ivec3)
    (modelVertices : list vec3) (r : Ray) (k : cand_key) : cand_hit :=
  (key_test geoms modelTriangles modelVertices r k,
   materialid (rd stray_object geoms k.1)).

Definition hit_t (c : cand_hit) : float := c.1.1.1.

(** The boxes of a tree admit the ray whenever it hits a primitive below
    them at a positive distance. *)
Fixpoint boxes_admit (arr : list BVHGPUNode) (primitives : list Primitive)
    (geoms : list Object) (modelTriangles : list ivec3) (modelVertices : list vec3)
    (r : Ray) (tr : bvh_tree) : bool :=
  forallb (λ i, implb (fltb f_zero
                         (key_test geoms modelTriangles modelVertices r
                            (prim_key primitives geoms i)).1.1)
                      (boundingBoxIntersectionTest (bbox (rd stray_node arr (tree_root tr))) r))
          (tree_prims arr tr)
  && match tr with
     | BLeaf _ => true
     | BNode _ l r' =>
         boxes_admit arr primitives geoms modelTriangles modelVertices r l
         && boxes_admit arr primitives geoms modelTriangles modelVertices r r'
     end.
End DataModel.

(** ** The nearest-hit search, abstractly *)

(** The search state: the best distance so far and the candidate that set
    it, if any.  A candidate replaces it when its [t] is positive and
    smaller. *)
Definition pick (s : float * option cand_hit) (c : cand_hit) : float * option cand_hit :=
  if fltb f_zero (hit_t c) && fltb (hit_t c) s.1 then (hit_t c, Some c) else s.

(** A candidate the ray hits in front of its origin. *)
Definition positive (c : cand_hit) : Prop := fltb f_zero (hit_t c) = true.

(** The hit a record stands for. *)
Definition record_hit (i : ShadeableIntersection) : cand_hit :=
  (t i, worldPos i, surfaceNormal i, materialId i).

Section Traversal.
Context `{Stray} `{Uninit} `{SceneStructs} `{Intersections}.

(** The array holds the tree [tr] below a node whose index is [up]. *)
Inductive tree_in (arr : list BVHGPUNode) : Z → bvh_tree → Prop :=
| tree_in_leaf up i :
    0 ≤ i < Z.of_nat (length arr) →
    parent (rd stray_node arr i) = up →
    left (rd stray_node arr i) = -1 →
    right (rd stray_node arr i) = -1 →
    startPrim (rd stray_node arr i) < endPrim (rd stray_node arr i) →
    tree_in arr up (BLeaf i)
| tree_in_node up i l r :
    0 ≤ i < Z.of_nat (length arr) →
    parent (rd stray_node arr i) = up →
    left (rd stray_node arr i) = tree_root l →
    right (rd stray_node arr i) = tree_root r →
    tree_root l ≠ tree_root r →
    tree_in arr i l →
    tree_in arr i r →
    tree_in arr up (BNode i l r).

(** The primitives a recursive near-first descent of [tr] tests, in
    order: nothing below a box the ray misses. *)
Fixpoint visit_prims (arr : list BVHGPUNode) (r : Ray) (tr : bvh_tree) : list Z :=
  if boundingBoxIntersectionTest (bbox (rd stray_node arr (tree_root tr))) r then
    match tr with
    | BLeaf i => tree_prims arr tr
    | BNode i l r' =>
        if util_bvh_get_near_child arr i (origin r) =? tree_root l
        then visit_prims arr r l ++ visit_prims arr r r'
        else visit_prims arr r r' ++ visit_prims arr r l
    end
  else [].

(** The primitives the walk tests below an interior node, whose own box
    is not looked at. *)
Definition visit_children (arr : list BVHGPUNode) (r : Ray) (i : Z) (l r' : bvh_tree) : list Z :=
  if util_bvh_get_near_child arr i (origin r) =? tree_root l
  then visit_prims arr r l ++ visit_prims arr r r'
  else visit_prims arr r r' ++ visit_prims arr r l.

(** [k] rounds of the loop lead from [w] to [w']. *)
Definition reaches (arr : list BVHGPUNode) (primitives : list Primitive)
    (objects : list Object) (modelTriangles : list ivec3) (modelVertices : list vec3)
    (r : Ray) (k : nat) (w w' : walk) : Prop :=
  ∀ fuel,
    bvh_walk (k + fuel) arr (Z.of_nat (length arr)) primitives objects modelTriangles
      modelVertices r w
    = bvh_walk fuel arr (Z.of_nat (length arr)) primitives objects modelTriangles
        modelVertices r w'.

(** The walk state after testing the primitives [idxs] from [w] on. *)
Definition tested (primitives : list Primitive) (objects : list Object)
    (modelTriangles : list ivec3) (modelVertices : list vec3) (r : Ray)
    (w : walk) (idxs : list Z) (next : Z) (st : bvh_traverse_state) : walk :=
  let res := foldl (leaf_prim primitives objects modelTriangles modelVertices r)
                   (intersected w, tmpIntersection w) idxs in
  {| curr := next; state := st; tmpIntersection := res.2; intersected := res.1 |}.
End Traversal.

(** How the locals of the two kernels stand for a search state. *)
Definition leaf_abs (acc : bool * ShadeableIntersection) : float * option cand_hit :=
  (t acc.2, if acc.1 then Some (record_hit acc.2) else None).

Definition bf_abs (s : bf_locals) (a : float * option cand_hit) : Prop :=
  bf_t_min s = a.1 ∧
  (∀ c, a.2 = Some c →
        c = (bf_t_min s, bf_intersect_point s, bf_normal s, bf_hit_material_index s)) ∧
  fltb f_zero (bf_t s) && fltb (bf_t s) (bf_t_min s) = false.

(** A scene on which the two intersection kernels can be compared for the
    ray [r]: the BVH array encodes the tree [BNode 0 l r'] with an interior
    root, mesh ranges are ordered, the leaves' primitives stand for exactly
    the candidates of the brute-force scan, the boxes below the root admit
    the ray where it hits, every positive hit lies below [1e20f], and
    candidates at the same positive distance carry the same hit. *)
Record comparable `{Stray} `{Intersections} (sc : Scene) (r : Ray) (l r' : bvh_tree) : Prop :=
  mkComparable {
  cmp_shape :
    bvh_shape (length (bvhArray sc)) (bvhArray sc) (-1) 0 = Some (BNode 0 l r');
  cmp_meshes :
    Forall (λ geom, otype geom = MODEL → triangleStart geom ≤ triangleEnd geom) (objects sc);
  cmp_keys_bf :
    Forall (λ k, k ∈ prim_key (primitives sc) (objects sc)
                       <$> tree_prims (bvhArray sc) (BNode 0 l r'))
           (bf_keys (objects sc));
  cmp_keys_bvh :
    Forall (λ k, k ∈ bf_keys (objects sc))
           (prim_key (primitives sc) (objects sc) <$> tree_prims (bvhArray sc) (BNode 0 l r'));
  cmp_boxes :
    boxes_admit (bvhArray sc) (primitives sc) (objects sc) (triangles sc) (verticies sc) r l
    && boxes_admit (bvhArray sc) (primitives sc) (objects sc) (triangles sc) (verticies sc) r r'
    = true;
  cmp_bounded :
    Forall (λ k, fltb f_zero (key_test (objects sc) (triangles sc) (verticies sc) r k).1.1 = true →
                 fltb (key_test (objects sc) (triangles sc) (verticies sc) r k).1.1 f_1e20 = true)
           (bf_keys (objects sc));
  cmp_no_ties :
    Forall (λ k1, Forall (λ k2,
        fltb f_zero (key_test (objects sc) (triangles sc) (verticies sc) r k1).1.1 = true →
        (key_test (objects sc) (triangles sc) (verticies sc) r k1).1.1
        = (key_test (objects sc) (triangles sc) (verticies sc) r k2).1.1 →
        key_hit (objects sc) (triangles sc) (verticies sc) r k1
        = key_hit (objects sc) (triangles sc) (verticies sc) r k2) (bf_keys (objects sc)))
      (bf_keys (objects sc)) }.

(** The nodes and states the walk goes through, one entry per round. *)
Fixpoint bvh_trace `{Stray} `{Uninit} `{SceneStructs} `{Intersections}
    (fuel : nat) (arr : list BVHGPUNode) (prims : list Primitive) (objs : list Object)
    (tris : list ivec3) (verts : list vec3) (r : Ray) (w : walk)
  : list (Z * bvh_traverse_state) :=
  if (0 <=? curr w) && (curr w <? Z.of_nat (length arr)) then
    match fuel with
    | O => []
    | S fuel' =>
        (curr w, state w) ::
        match bvh_step arr prims objs tris verts r w with
        | Some (Continue w') => bvh_trace fuel' arr prims objs tris verts r w'
        | _ => []
        end
    end
  else [].

(** What one lane of the gather does to the image for the path [p]. *)
Definition gather_add `{Stray} (image : list vec3) (p : PathSegment) : list vec3 :=
  if util_math_is_nan (color p) then image else image_add image (pixelIndex p) (color p).

(** The buffer a full generation launch leaves: the segment of pixel
    [(i mod w, i / w)] at index [i]. *)
Definition generated `{Utilities} `{Thrust} (cam : Camera) (iter traceDepth : Z)
  : list PathSegment :=
  (λ i, camera_segment cam iter traceDepth (i mod resolution_x cam) (i / resolution_x cam))
    <$> seqZ 0 (resolution_x cam * resolution_y cam).

(** The reading of "every engine is seeded from a (pixel index, iteration,
    depth) tuple" for the scatter kernel: the engine of a lane is a function
    of the pixel of the path in that lane, the iteration and the depth. *)
Definition scatter_seeded_by_pixel `{Utilities} `{Thrust} : Prop :=
  ∃ f : Z → Z → Z → default_random_engine,
    ∀ iter depth idx (paths : list PathSegment) p,
      0 ≤ idx → paths !! Z.to_nat idx = Some p →
      scatter_engine iter idx = f (pixelIndex p) iter depth.

(** A path without its pixel index and bounce counter. *)
Definition ray_and_color (p : PathSegment) : Ray * vec3 := (ray p, color p).

(** A path without its bounce counter, and devices, scatter outputs and
    loop states that differ in bounce counters only. *)
Definition forget_bounces (p : PathSegment) : PathSegment :=
  {| ray := ray p; color := color p; pixelIndex := pixelIndex p; remainingBounces := 0 |}.

Definition same_but_bounces (d1 d2 : Device) : Prop :=
  dev_image d1 = dev_image d2 ∧
  forget_bounces <$> dev_paths1 d1 = forget_bounces <$> dev_paths1 d2 ∧
  forget_bounces <$> dev_paths2 d1 = forget_bounces <$> dev_paths2 d2 ∧
  dev_intersections1 d1 = dev_intersections1 d2 ∧
  dev_intersections2 d1 = dev_intersections2 d2 ∧
  rayValid d1 = rayValid d2 ∧
  rayIndex d1 = rayIndex d2.

Definition same_out_but_bounces (o1 o2 : scatter_out) : Prop :=
  forget_bounces <$> so_paths o1 = forget_bounces <$> so_paths o2 ∧
  so_rayValid o1 = so_rayValid o2 ∧
  so_image o1 = so_image o2.

Definition same_loop_but_bounces (l1 l2 : Loop) : Prop :=
  depth l1 = depth l2 ∧ numRays l1 = numRays l2 ∧ TracedDepth l1 = TracedDepth l2 ∧
  same_but_bounces (dev l1) (dev l2).

(** Two runs end alike: both without a result, or both with related ones. *)
Definition both {A} (R : A → A → Prop) (o1 o2 : option A) : Prop :=
  match o1, o2 with
  | Some a1, Some a2 => R a1 a2
  | None, None => True
  | _, _ => False
  end.

(** The same scene with another trace depth. *)
Definition with_traceDepth (sc : Scene) (td : Z) : Scene :=
  {| objects := objects sc; materials := materials sc; bvhArray := bvhArray sc;
     primitives := primitives sc; triangles := triangles sc; verticies := verticies sc;
     camera := camera sc; traceDepth := td |}.

(** ** A small concrete setting *)

(** Stand-ins for the headers that are not translated, for the worked
    examples: every shape is cut down to the plane [x = c] facing a ray
    that travels along [+x], and a box admits the ray when the ray starts
    before its far face. *)

Definition f_of (n : Z) : float := float_of_int n.
Definition v_of (a b c : Z) : vec3 := mkVec3 (f_of a) (f_of b) (f_of c).

Definition plane_hit (c : float) (r : Ray) : float * vec3 * vec3 :=
  let tt := fdiv (fsub c (vx (origin r))) (vx (direction r)) in
  (tt, vadd (origin r) (vscale (direction r) tt), mkVec3 f_minus_one f_zero f_zero).

Definition ex_intersections : Intersections := {|
  boxIntersectionTest obj r := plane_hit (v4x (m4c3 (Transform obj))) r;
  sphereIntersectionTest obj r := plane_hit (v4x (m4c3 (Transform obj))) r;
  triangleIntersectionTest _ v0 _ _ r := plane_hit (vx v0) r;
  boundingBoxIntersectionTest b r := fltb (vx (origin r)) (vx (pMax b)) |}.

Definition ex_zero_ray : Ray := mkRay (v_of 0 0 0) (v_of 0 0 0).
Definition ex_zero_record : ShadeableIntersection :=
  mkShadeableIntersection f_zero (v_of 0 0 0) (v_of 0 0 0) 0 0.
Definition ex_translation (c : Z) : mat4 :=
  mkMat4 (mkVec4 f_one f_zero f_zero f_zero) (mkVec4 f_zero f_one f_zero f_zero)
         (mkVec4 f_zero f_zero f_one f_zero) (mkVec4 (f_of c) f_zero f_zero f_one).

Definition ex_stray : Stray := {|
  stray_node _ := mkBVHGPUNode (mkAABB (v_of 0 0 0) (v_of 0 0 0)) 0 0 0 0 0;
  stray_object _ := mkObject SPHERE 0 0 0 (ex_translation 0);
  stray_primitive _ := mkPrimitive 0 0;
  stray_triangle _ := mkIVec3 0 0 0;
  stray_vertex _ := v_of 0 0 0;
  stray_material _ := mkMaterial diffuse (v_of 0 0 0) f_zero f_zero f_zero;
  stray_path _ := mkPathSegment ex_zero_ray (v_of 0 0 0) 0 0;
  stray_intersection _ := ex_zero_record;
  stray_int _ := 0;
  stray_pixel _ := v_of 0 0 0 |}.

Definition ex_uninit : Uninit := {|
  uninit_vec3 := v_of 0 0 0;
  uninit_intersection := ex_zero_record |}.

Definition ex_structs : SceneStructs := {|
  MaterialType_code m :=
    match m with diffuse => 0 | frenselSpecular => 1 | microfacet => 2 | emitting => 3 end |}.

Definition ex_utilities : Utilities := {|
  utilhash a := to_u32 (a * 2654435761 + 1) |}.

(** Insertion of a key with its value into a list ordered by [lt]. *)
Fixpoint ex_insert {K V} (lt : K → K → bool) (k : K) (v : V) (l : list (K * V)) : list (K * V) :=
  match l with
  | [] => [(k, v)]
  | (k', v') :: l' => if lt k k' then (k, v) :: l else (k', v') :: ex_insert lt k v l'
  end.

Definition ex_thrust : Thrust := {|
  default_random_engine := Z;
  seed_engine h := h mod 2147483647;
  u01 e := let e' := (48271 * e) mod 2147483647 in
           (fdiv (f_of e') (f_of 2147483647), e');
  sort_by_key lt ks vs :=
    let sorted := foldr (λ kv acc, ex_insert lt kv.1 kv.2 acc) [] (zip ks vs) in
    (sorted.*1, sorted.*2) |}.

Definition ex_interactions : Interactions := {|
  util_math_get_TBN _ := (v_of 0 1 0, v_of 0 0 1);
  util_math_abscos wi := SFabs (vz wi);
  bxdf_diffuse_sample_f _ _ c := mkBxdfSample c (v_of 0 0 1) f_one;
  bxdf_microfacet_sample_f _ _ c _ := mkBxdfSample c (v_of 0 0 1) f_zero;
  bxdf_frensel_specular_sample_f wo _ c _ _ := mkBxdfSample c (vneg wo) f_one |}.

(** A sphere at [x = 2], a box at [x = 5] and a one-triangle mesh at
    [x = 3], under a five-node BVH: root 0 over the leaf 1 (the sphere) and
    the interior node 2, which is over the leaves 3 (the box) and 4 (the
    triangle). *)
Definition ex_box (lo hi : Z) : AABB := mkAABB (v_of lo (-1) (-1)) (v_of hi 1 1).

Definition ex_scene : Scene := {|
  objects := [ mkObject SPHERE 1 0 0 (ex_translation 2);
               mkObject CUBE 0 0 0 (ex_translation 5);
               mkObject MODEL 2 0 1 (ex_translation 0) ];
  materials := [ mkMaterial diffuse (v_of 1 1 1) f_zero f_zero f_zero;
                 mkMaterial emitting (v_of 1 1 1) f_two f_zero f_zero;
                 mkMaterial microfacet (v_of 1 1 1) f_zero f_half f_zero ];
  bvhArray := [ mkBVHGPUNode (ex_box 1 6) (-1) 1 2 0 0;
                mkBVHGPUNode (ex_box 1 3) 0 (-1) (-1) 0 1;
                mkBVHGPUNode (ex_box 2 6) 0 3 4 0 0;
                mkBVHGPUNode (ex_box 4 6) 2 (-1) (-1) 1 2;
                mkBVHGPUNode (ex_box 2 4) 2 (-1) (-1) 2 3 ];
  primitives := [ mkPrimitive 0 0; mkPrimitive 1 0; mkPrimitive 2 0 ];
  triangles := [ mkIVec3 0 1 2 ];
  verticies := [ v_of 3 0 0; v_of 3 1 0; v_of 3 0 1 ];
  camera := mkCamera 2 2 (v_of 0 0 0) (v_of 1 0 0) (v_of 0 0 1) (v_of 0 1 0)
                     (mkVec2 f_half f_half);
  traceDepth := 8 |}.

Definition ex_ray : Ray := mkRay (v_of 0 0 0) (v_of 1 0 0).

(** The same sphere alone, under a BVH whose root is its only node. *)
Definition ex_single : Scene := {|
  objects := [ mkObject SPHERE 1 0 0 (ex_translation 2) ];
  materials := materials ex_scene;
  bvhArray := [ mkBVHGPUNode (ex_box 1 3) (-1) (-1) (-1) 0 1 ];
  primitives := [ mkPrimitive 0 0 ];
  triangles := [];
  verticies := [];
  camera := camera ex_scene;
  traceDepth := 8 |}.

(** A sphere and a box in the same place, [x = 2], with different
    materials, under a three-node BVH whose near leaf (node 1) holds the
    box and whose far leaf (node 2) holds the sphere. *)
Definition ex_coincident : Scene := {|
  objects := [ mkObject SPHERE 1 0 0 (ex_translation 2);
               mkObject CUBE 0 0 0 (ex_translation 2) ];
  materials := materials ex_scene;
  bvhArray := [ mkBVHGPUNode (ex_box 1 3) (-1) 1 2 0 0;
                mkBVHGPUNode (ex_box 1 2) 0 (-1) (-1) 0 1;
                mkBVHGPUNode (ex_box 1 3) 0 (-1) (-1) 1 2 ];
  primitives := [ mkPrimitive 1 0; mkPrimitive 0 0 ];
  triangles := [];
  verticies := [];
  camera := camera ex_scene;
  traceDepth := 8 |}.

(** Two spheres beyond [1e20], at [x = 2e20] and [x = 3e20]. *)
Definition ex_far : Scene := {|
  objects := [ mkObject SPHERE 1 0 0 (ex_translation (2 * 10 ^ 20));
               mkObject SPHERE 0 0 0 (ex_translation (3 * 10 ^ 20)) ];
  materials := materials ex_scene;
  bvhArray := [ mkBVHGPUNode (ex_box 1 (4 * 10 ^ 20)) (-1) 1 2 0 0;
                mkBVHGPUNode (ex_box 1 (2 * 10 ^ 20 + 10 ^ 19)) 0 (-1) (-1) 0 1;
                mkBVHGPUNode (ex_box 1 (4 * 10 ^ 20)) 0 (-1) (-1) 1 2 ];
  primitives := [ mkPrimitive 0 0; mkPrimitive 1 0 ];
  triangles := [];
  verticies := [];
  camera := camera ex_scene;
  traceDepth := 8 |}.

(** The example scene with the box of the sphere's leaf moved behind the
    ray origin, so that it no longer admits the ray. *)
Definition ex_short_box : Scene := {|
  objects := objects ex_scene;
  materials := materials ex_scene;
  bvhArray := [ mkBVHGPUNode (ex_box 1 6) (-1) 1 2 0 0;
                mkBVHGPUNode (ex_box (-3) (-1)) 0 (-1) (-1) 0 1;
                mkBVHGPUNode (ex_box 2 6) 0 3 4 0 0;
                mkBVHGPUNode (ex_box 4 6) 2 (-1) (-1) 1 2;
                mkBVHGPUNode (ex_box 2 4) 2 (-1) (-1) 2 3 ];
  primitives := primitives ex_scene;
  triangles := triangles ex_scene;
  verticies := verticies ex_scene;
  camera := camera ex_scene;
  traceDepth := 8 |}.

(** What is compared of the output of an intersection lane: the material
    ids and distances of the records, and the flags. *)
Definition lane_view (out : list ShadeableIntersection * list Z)
  : list (float * Z) * list Z :=
  ((λ rec, (t rec, materialId rec)) <$> out.1, out.2).

(** Eight boxes at [x = 2, -2, -4, ..., -14], all of the diffuse material:
    with the stand-in sampler a path is sent back along [-x] at each hit
    and meets the next box, so that it is still active at the depth cap. *)
Definition ex_corridor : Scene := {|
  objects := (λ c, mkObject CUBE 0 0 0 (ex_translation c))
               <$> [2; -2; -4; -6; -8; -10; -12; -14];
  materials := materials ex_scene;
  bvhArray := [];
  primitives := [];
  triangles := [];
  verticies := [];
  camera := camera ex_scene;
  traceDepth := 8 |}.

(** The buffers of a 2 by 2 image before the first iteration. *)
Definition ex_blank : Device := {|
  dev_image := replicate 4 (v_of 0 0 0);
  dev_paths1 := replicate 4 (mkPathSegment ex_zero_ray (v_of 0 0 0) 0 0);
  dev_paths2 := replicate 4 (mkPathSegment ex_zero_ray (v_of 0 0 0) 0 0);
  dev_intersections1 := replicate 4 ex_zero_record;
  dev_intersections2 := replicate 4 ex_zero_record;
  rayValid := [];
  rayIndex := [] |}.

(** Three paths along [ex_ray], one per pixel, and their records. *)
Definition ex_paths : list PathSegment :=
  [ mkPathSegment ex_ray (v_of 1 1 1) 0 8;
    mkPathSegment ex_ray (v_of 1 1 1) 1 8;
    mkPathSegment ex_ray (v_of 1 1 1) 2 8 ].

Definition ex_records : list ShadeableIntersection :=
  [ mkShadeableIntersection (f_of 2) (v_of (-1) 0 0) (v_of 2 0 0) 1 0;
    mkShadeableIntersection (f_of 3) (v_of (-1) 0 0) (v_of 3 0 0) 0 0;
    mkShadeableIntersection (f_of 5) (v_of (-1) 0 0) (v_of 5 0 0) 2 0 ].

(** A device in the middle of a bounce: the second path has missed. *)
Definition ex_device : Device := {|
  dev_image := [ v_of 0 0 0; v_of 0 0 0; v_of 0 0 0 ];
  dev_paths1 := ex_paths;
  dev_paths2 := replicate 3 (mkPathSegment ex_zero_ray (v_of 0 0 0) 0 0);
  dev_intersections1 := ex_records;
  dev_intersections2 := replicate 3 ex_zero_record;
  rayValid := [1; 0; 1];
  rayIndex := [0; 0; 0] |}.

(** The scatter launch sees the three paths with all flags set. *)
Definition ex_out : scatter_out := {|
  so_paths := ex_paths;
  so_rayValid := [1; 1; 1];
  so_image := [ v_of 0 0 0; v_of 0 0 0; v_of 0 0 0 ] |}.

(** ** Presenting the image *)

(** [double] arithmetic, for the one product that [sendImageToPBO] takes in
    double precision.  A binary32 value is a binary64 value, so the
    promotion of a [float] operand is the identity. *)
Definition prec64 : Z := 53.
Definition emax64 : Z := 1024.
Definition dmul : float -> float -> float := SFmul prec64 emax64.
(** The double [255.0]. *)
Definition d_255 : float := S754_finite false 8972014882652160 (-45).

Arguments dmul : simpl never.
Arguments d_255 : simpl never.

(** What a conversion to [int] yields for a NaN, an infinity or a value
    outside the range of [int]. *)
Class Conversions := {
  int_of_unrepresentable : float -> Z }.

(** The integer part of a finite value, rounded toward zero. *)
Definition trunc_float (d : float) : option Z :=
  match d with
  | S754_zero _ => Some 0
  | S754_finite s m e =>
      let a := Z.shiftl (Z.pos m) e in
      Some (if s then - a else a)
  | _ => None
  end.

(** [(int)d] *)
Definition int_of_double `{Conversions} (d : float) : Z :=
  match trunc_float d with
  | Some z => if (- 2 ^ 31 <=? z) && (z <=? INT_MAX) then z else int_of_unrepresentable d
  | None => int_of_unrepresentable d
  end.

(** [glm::clamp(x, lo, hi)] is [min(max(x, lo), hi)]. *)
Definition glm_clamp (x lo hi : Z) : Z := Z.min (Z.max x lo) hi.

(** The conversion of an int to [unsigned char]. *)
Definition to_u8 (z : Z) : Z := z mod 256.

Record uchar4 := mkUchar4 { ux : Z; uy : Z; uz : Z; uw : Z }.

(** The lane of a kernel over the pixel grid that stores [f x y] at index
    [x + y * w] when [(x, y)] is inside the resolution [w] by [h]. *)
Definition grid_cell {A} (w h : Z) (f : Z -> Z -> A) (x y : Z) (buf : list A) : list A :=
  if (x <? w) && (y <? h) then wr buf (wrap32 (x + y * w)) (f x y) else buf.

Section Present.
Context `{Stray} `{Conversions}.

(** [glm::clamp((int)(p / iter * 255.0), 0, 255)] *)
Definition channel (iter : Z) (p : float) : Z :=
  glm_clamp (int_of_double (dmul (fdiv p (float_of_int iter)) d_255)) 0 255.

(** The texel a lane of [sendImageToPBO] stores for the pixel value
    [pix]. *)
Definition texel (iter : Z) (pix : vec3) : uchar4 :=
  let cx := channel iter (vx pix) in
  let cy := channel iter (vy pix) in
  let cz := channel iter (vz pix) in
  if util_math_is_nan pix
  then {| ux := to_u8 255; uy := to_u8 192; uz := to_u8 203; uw := to_u8 0 |}
  else {| ux := to_u8 cx; uy := to_u8 cy; uz := to_u8 cz; uw := to_u8 0 |}.

(** One lane of [sendImageToPBO]. *)
Definition sendImageToPBO (resolution_x resolution_y iter : Z) (image : list vec3)
    (x y : Z) (pbo : list uchar4) : list uchar4 :=
  if (x <? resolution_x) && (y <? resolution_y) then
    let index := wrap32 (x + y * resolution_x) in
    wr pbo index (texel iter (rd stray_pixel image index))
  else pbo.

(** The launch at the end of [pathtrace]. *)
Definition present_launch (cam : Camera) (iter : Z) (image : list vec3) (pbo : list uchar4)
  : option (list uchar4) :=
  launch2d (blocks2d (resolution_x cam)) (blocks2d (resolution_y cam)) 8 8
    (fun x y p => Some (sendImageToPBO (resolution_x cam) (resolution_y cam) iter image x y p))
    pbo.
End Present.

(** What holds of the locals of the walk: before any hit the bound is
    [1e20f], after a hit [t] is positive and below it. *)
Definition walk_bounded (w : walk) : Prop :=
  if intersected w
  then fltb f_zero (t (tmpIntersection w)) = true ∧
       fltb (t (tmpIntersection w)) f_1e20 = true
  else t (tmpIntersection w) = f_1e20.

(** ** The buffers between the calls *)

(** The device after [pathtraceInit]: the image and the first intersection
    buffer are cleared, the other buffers hold whatever the allocation
    left.  The two int arrays are allocated by [pathtrace] itself. *)
Definition pathtraceInit `{Stray} (sc : Scene) : Device :=
  let cam := camera sc in
  let pixelcount := wrap32 (resolution_x cam * resolution_y cam) in
  {| dev_image := replicate (Z.to_nat pixelcount) zero_vec3;
     dev_paths1 := List.map stray_path (seqZ 0 pixelcount);
     dev_paths2 := List.map stray_path (seqZ 0 pixelcount);
     dev_intersections1 := replicate (Z.to_nat pixelcount) zero_intersection;
     dev_intersections2 := List.map stray_intersection (seqZ 0 pixelcount);
     rayValid := [];
     rayIndex := [] |}.

(** The static buffers a call of [pathtrace] leaves behind: the gathered
    image and the path and intersection buffers as the last compaction
    swapped them; the two int arrays are freed. *)
Definition pathtrace_device (r : Loop * list vec3) : Device :=
  {| dev_image := r.2;
     dev_paths1 := dev_paths1 (dev r.1); dev_paths2 := dev_paths2 (dev r.1);
     dev_intersections1 := dev_intersections1 (dev r.1);
     dev_intersections2 := dev_intersections2 (dev r.1);
     rayValid := [];
     rayIndex := [] |}.

(** A scene on which every lane of the intersection kernel returns: for
    the BVH kernel a well-formed tree with an interior root and a walk
    allowed enough rounds, for the brute-force kernel ordered mesh
    ranges. *)
Definition kernels_return `{Stray} `{Intersections} (use_bvh : bool) (fuel : nat)
    (sc : Scene) : Prop :=
  if use_bvh then
    ∃ l r', bvh_shape (length (bvhArray sc)) (bvhArray sc) (-1) 0 = Some (BNode 0 l r') ∧
            (2 * (tree_size l + tree_size r') < fuel)%nat
  else
    Forall (λ geom, otype geom = MODEL → triangleStart geom ≤ triangleEnd geom) (objects sc).

(** A scene in which no camera ray has anything to test: for the
    brute-force kernel a scene without objects; for the BVH kernel a
    well-formed tree with an interior root, a walk allowed enough rounds,
    and no ray from the camera position entering the box of either child
    of the root. *)
Definition nothing_to_hit `{Stray} `{Intersections} (use_bvh : bool) (fuel : nat)
    (sc : Scene) : Prop :=
  if use_bvh then
    ∃ l r', bvh_shape (length (bvhArray sc)) (bvhArray sc) (-1) 0 = Some (BNode 0 l r') ∧
            (2 * (tree_size l + tree_size r') < fuel)%nat ∧
            ∀ r, origin r = position (camera sc) →
                 boundingBoxIntersectionTest
                   (bbox (rd stray_node (bvhArray sc) (tree_root l))) r = false ∧
                 boundingBoxIntersectionTest
                   (bbox (rd stray_node (bvhArray sc) (tree_root r'))) r = false
  else objects sc = [].

(** The active paths of a loop state. *)
Definition active_paths (l : Loop) : list PathSegment :=
  take (Z.to_nat (numRays l)) (dev_paths1 (dev l)).

(** What a lane of the scatter kernel keeps. *)
Definition scatter_kept (n : Z) (o : scatter_out)
  : list Z * list Z * nat * nat * nat * list PathSegment * list Z :=
  (pixelIndex <$> so_paths o, remainingBounces <$> so_paths o,
   length (so_paths o), length (so_rayValid o), length (so_image o),
   drop (Z.to_nat n) (so_paths o), drop (Z.to_nat n) (so_rayValid o)).

(** What a lane of an intersection kernel keeps of the two arrays it
    writes, for a launch over [n] paths. *)
Definition trace_kept (n : Z) (s : list ShadeableIntersection * list Z)
  : nat * nat * list ShadeableIntersection * list Z :=
  (length s.1, length s.2, drop (Z.to_nat n) s.1, drop (Z.to_nat n) s.2).

(** The traced depth the GUI shows after [k] rounds that ran the scatter
    kernel. *)
Definition traced_after (k : Z) : option Z := if k =? 0 then None else Some k.

(** ** The traversal as the specification words it *)

Section Specified.
Context `{Stray} `{Uninit} `{SceneStructs} `{Intersections}.
Variables (arr : list BVHGPUNode) (prims : list Primitive) (objs : list Object)
          (tris : list ivec3) (verts : list vec3) (r : Ray).

(** The walk moved to the node [next] in state [st], its record and its
    flag as they were. *)
Definition moved (w : walk) (next : Z) (st : bvh_traverse_state) : walk :=
  {| curr := next; state := st; tmpIntersection := tmpIntersection w;
     intersected := intersected w |}.

(** The near child of a node with children [a] and [b]: the one whose box
    centre is closer to the ray origin, [b] when neither is. *)
Definition near_of (a b : bvh_tree) : Z :=
  if fltb (vdistance (aabb_center (bbox (rd stray_node arr (tree_root a)))) (origin r))
          (vdistance (aabb_center (bbox (rd stray_node arr (tree_root b)))) (origin r))
  then tree_root a else tree_root b.

(** The ray enters the box of the root of [c]. *)
Definition enters (c : bvh_tree) : bool :=
  boundingBoxIntersectionTest (bbox (rd stray_node arr (tree_root c))) r.

(** [p] is an interior node of the tree, with children [a] and [b]. *)
Inductive node_of : bvh_tree → Z → bvh_tree → bvh_tree → Prop :=
| node_here p a b : node_of (BNode p a b) p a b
| node_left i l r' p a b : node_of l p a b → node_of (BNode i l r') p a b
| node_right i l r' p a b : node_of r' p a b → node_of (BNode i l r') p a b.

(** The transitions of the three-state machine at a child [c] of the node
    [p] whose sibling is [s], [near] being the near child of [p]. *)
Inductive specified (p near : Z) (c s : bvh_tree) (w : walk) : walk → Prop :=
| from_parent_miss :
    state w = fromParent → enters c = false →
    specified p near c s w (moved w (tree_root s) fromSibling)
| from_parent_leaf i :
    state w = fromParent → enters c = true → c = BLeaf i →
    specified p near c s w
      (tested prims objs tris verts r w (tree_prims arr c) (tree_root s) fromSibling)
| from_parent_descend i a b :
    state w = fromParent → enters c = true → c = BNode i a b →
    specified p near c s w (moved w (near_of a b) fromParent)
| from_sibling_miss :
    state w = fromSibling → enters c = false →
    specified p near c s w (moved w p fromChild)
| from_sibling_leaf i :
    state w = fromSibling → enters c = true → c = BLeaf i →
    specified p near c s w (tested prims objs tris verts r w (tree_prims arr c) p fromChild)
| from_sibling_descend i a b :
    state w = fromSibling → enters c = true → c = BNode i a b →
    specified p near c s w (moved w (near_of a b) fromParent)
| from_child_near :
    state w = fromChild → tree_root c = near →
    specified p near c s w (moved w (tree_root s) fromSibling)
| from_child_far :
    state w = fromChild → tree_root c ≠ near →
    specified p near c s w (moved w p fromChild).

(** A round of the loop of the kernel, from [w] to [w1], that is a
    specified transition at a child of a node of the tree [T]. *)
Inductive round_at (T : bvh_tree) (w w1 : walk) : Prop :=
| round_intro p a b c s :
    node_of T p a b →
    (c = a ∧ s = b) ∨ (c = b ∧ s = a) →
    curr w = tree_root c →
    specified p (near_of a b) c s w w1 →
    bvh_step arr prims objs tris verts r w = Some (Continue w1) →
    round_at T w w1.

(** The rounds that lead from [w] to [w']. *)
Inductive follows (T : bvh_tree) : walk → walk → Prop :=
| follows_end w : follows T w w
| follows_round w w1 w' : round_at T w w1 → follows T w1 w' → follows T w w'.
(** Where the walk stands: at a child of an interior node of [T], or back
    at the root of [T] from below. *)
Definition at_child (T : bvh_tree) (w : walk) : Prop :=
  ∃ p a b c s, node_of T p a b ∧ ((c = a ∧ s = b) ∨ (c = b ∧ s = a)) ∧
               curr w = tree_root c.

Definition at_end (T : bvh_tree) (w : walk) : Prop :=
  curr w = tree_root T ∧ state w = fromChild.
End Specified.

(** ** The rounds of the bounce loop *)

Section Rounds.
Context `{Stray} `{Uninit} `{SceneStructs} `{Intersections} `{Interactions}
        `{Utilities} `{Thrust}.

(** [k] rounds of the bounce loop lead from [l] to [l'], none of them left
    by the [break]: each has run the scatter kernel. *)
Inductive loop_rounds (use_bvh sort_by_material : bool) (fuel : nat) (sc : Scene)
    (iter pixelcount : Z) (gui : bool) : nat → Loop → Loop → Prop :=
| loop_rounds_none l : loop_rounds use_bvh sort_by_material fuel sc iter pixelcount gui 0 l l
| loop_rounds_more k l l1 l' :
    loop_guard l = true →
    bounce_round use_bvh sort_by_material fuel sc iter pixelcount gui l = Some (false, l1) →
    loop_rounds use_bvh sort_by_material fuel sc iter pixelcount gui k l1 l' →
    loop_rounds use_bvh sort_by_material fuel sc iter pixelcount gui (S k) l l'.
End Rounds.

(** ** Further concrete data *)

(** A conversion to [int] that saturates, with 0 for a NaN. *)
Definition ex_conversions : Conversions := {|
  int_of_unrepresentable d :=
    match d with
    | S754_infinity false | S754_finite false _ _ => INT_MAX
    | S754_infinity true | S754_finite true _ _ => - 2 ^ 31
    | _ => 0
    end |}.

(** A scene without objects. *)
Definition ex_empty : Scene := {|
  objects := [];
  materials := materials ex_scene;
  bvhArray := [];
  primitives := [];
  triangles := [];
  verticies := [];
  camera := camera ex_scene;
  traceDepth := 8 |}.

(** The first two boxes of the corridor: a path meets the box at [x = 2],
    then the box at [x = -2], and nothing after that. *)
Definition ex_two_boxes : Scene := {|
  objects := (λ c, mkObject CUBE 0 0 0 (ex_translation c)) <$> [2; -2];
  materials := materials ex_scene;
  bvhArray := [];
  primitives := [];
  triangles := [];
  verticies := [];
  camera := camera ex_scene;
  traceDepth := 8 |}.

(** The example scene moved behind the camera: the sphere at [x = -2], the
    box at [x = -5] and the triangle at [x = -3], under the same tree with
    boxes that end before the camera position. *)
Definition ex_behind : Scene := {|
  objects := [ mkObject SPHERE 1 0 0 (ex_translation (-2));
               mkObject CUBE 0 0 0 (ex_translation (-5));
               mkObject MODEL 2 0 1 (ex_translation 0) ];
  materials := materials ex_scene;
  bvhArray := [ mkBVHGPUNode (ex_box (-6) (-1)) (-1) 1 2 0 0;
                mkBVHGPUNode (ex_box (-3) (-1)) 0 (-1) (-1) 0 1;
                mkBVHGPUNode (ex_box (-6) (-2)) 0 3 4 0 0;
                mkBVHGPUNode (ex_box (-6) (-4)) 2 (-1) (-1) 1 2;
                mkBVHGPUNode (ex_box (-4) (-2)) 2 (-1) (-1) 2 3 ];
  primitives := primitives ex_scene;
  triangles := triangles ex_scene;
  verticies := [ v_of (-3) 0 0; v_of (-3) 1 0; v_of (-3) 0 1 ];
  camera := camera ex_scene;
  traceDepth := 8 |}.

(** A camera without columns. *)
Definition ex_no_columns : Camera :=
  mkCamera 0 2 (v_of 0 0 0) (v_of 1 0 0) (v_of 0 0 1) (v_of 0 1 0) (mkVec2 f_half f_half).

(** An image of four pixels: white, black, one with a NaN, and one with a
    component above 1 and one below 0; and a texture of four texels. *)
Definition ex_image : list vec3 :=
  [ v_of 1 1 1; v_of 0 0 0; mkVec3 S754_nan f_zero f_zero; mkVec3 f_half f_two f_minus_one ].

Definition ex_pbo : list uchar4 := replicate 4 (mkUchar4 9 9 9 9).

(** A pixel at plus infinity and a path that brings minus infinity. *)
Definition ex_bright : list vec3 := [ mkVec3 (S754_infinity false) f_zero f_zero ].
Definition ex_dark : PathSegment :=
  mkPathSegment ex_ray (mkVec3 (S754_infinity true) f_zero f_zero) 0 0.

(** * The float constants *)

(** The literals above are the correctly rounded binary32 values. *)
Lemma float_constants :
  f_one = float_of_int 1 ∧ f_two = float_of_int 2 ∧
  f_half = fdiv (float_of_int 1) (float_of_int 2) ∧
  f_minus_one = float_of_int (-1) ∧
  FLT_MAX = SFmax_float prec32 emax32 ∧
  f_1e20 = float_of_int (10 ^ 20) ∧
  SCATTER_ORIGIN_OFFSETMULT = fdiv (float_of_int 1) (float_of_int 10).
Proof. vm_compute. by repeat split. Qed.

(** * Array reads and writes *)

Section ArrayFacts.
Context {A : Type}.
Implicit Types (l : list A) (stray : Z → A).

Lemma rd_lookup stray l i x :
  0 ≤ i → l !! Z.to_nat i = Some x → rd stray l i = x.
Proof.
  intros Hi Hx. unfold rd.
  pose proof (lookup_lt_Some _ _ _ Hx) as Hlt.
  assert (Hr : (0 <=? i) && (i <? Z.of_nat (length l)) = true).
  { apply andb_true_intro. split; [apply Z.leb_le | apply Z.ltb_lt]; lia. }
  rewrite Hr. by apply nth_lookup_Some.
Qed.

Lemma rd_of_nat stray l (k : nat) x :
  l !! k = Some x → rd stray l (Z.of_nat k) = x.
Proof. intros Hx. apply rd_lookup; [lia|]. by rewrite Nat2Z.id. Qed.

Lemma rd_stray_irrel stray stray' l i :
  0 ≤ i < Z.of_nat (length l) → rd stray l i = rd stray' l i.
Proof.
  intros Hi.
  destruct (lookup_lt_is_Some_2 l (Z.to_nat i)) as [x Hx]; [lia|].
  rewrite (rd_lookup stray l i x), (rd_lookup stray' l i x); auto with lia.
Qed.

Lemma rd_outside stray l i :
  ¬ (0 ≤ i < Z.of_nat (length l)) → rd stray l i = stray i.
Proof.
  intros Hi. unfold rd.
  destruct (0 <=? i) eqn:E1; [|done].
  destruct (i <? Z.of_nat (length l)) eqn:E2; [|done].
  apply Z.leb_le in E1. apply Z.ltb_lt in E2. lia.
Qed.

Lemma wr_of_nat l (k : nat) x : wr l (Z.of_nat k) x = <[k := x]> l.
Proof.
  unfold wr. rewrite Nat2Z.id.
  destruct (0 <=? Z.of_nat k) eqn:E; [done|]. apply Z.leb_gt in E. lia.
Qed.

Lemma length_wr l i x : length (wr l i x) = length l.
Proof. unfold wr. destruct (0 <=? i); [apply length_insert | done]. Qed.

Lemma rd_wr_eq stray l i x :
  0 ≤ i < Z.of_nat (length l) → rd stray (wr l i x) i = x.
Proof.
  intros Hi. apply rd_lookup; [lia|]. unfold wr.
  destruct (0 <=? i) eqn:E; [|apply Z.leb_gt in E; lia].
  apply list_lookup_insert_eq. lia.
Qed.

Lemma rd_wr_ne stray l i j x : i ≠ j → rd stray (wr l i x) j = rd stray l j.
Proof.
  intros Hne. unfold rd, wr. destruct (0 <=? i) eqn:Ei; [|done].
  rewrite length_insert.
  destruct ((0 <=? j) && (j <? Z.of_nat (length l))) eqn:Ej; [|done].
  apply andb_prop in Ej as [Hj1 Hj2]. apply Z.leb_le in Ei, Hj1.
  rewrite !nth_lookup, list_lookup_insert_ne; [done|]. lia.
Qed.
End ArrayFacts.

Lemma seqZ_snoc (k : nat) : seqZ 0 (Z.of_nat (S k)) = seqZ 0 (Z.of_nat k) ++ [Z.of_nat k].
Proof.
  replace (Z.of_nat (S k)) with (Z.of_nat k + 1) by lia.
  rewrite seqZ_app by lia. by rewrite Z.add_0_l.
Qed.

(** * Compaction *)

Lemma wrap32_id z : - 2 ^ 31 ≤ z < 2 ^ 31 → wrap32 z = z.
Proof. intros Hz. unfold wrap32. rewrite Z.mod_small; lia. Qed.

Lemma add32_small a b : - 2 ^ 31 ≤ a + b < 2 ^ 31 → add32 a b = a + b.
Proof. apply wrap32_id. Qed.

Section Sums.
Implicit Types (fs : list Z).

Lemma zsum_app fs gs : zsum (fs ++ gs) = zsum fs + zsum gs.
Proof. unfold zsum. induction fs as [|f fs IH]; simpl; lia. Qed.

Lemma zsum_bounds fs :
  Forall (λ f, f = 0 ∨ f = 1) fs → 0 ≤ zsum fs ≤ Z.of_nat (length fs).
Proof.
  induction 1 as [|f fs Hf _ IH]; simpl; [lia|].
  change (foldr Z.add 0 fs) with (zsum fs). lia.
Qed.

Lemma zsum_full fs :
  Forall (λ f, f = 0 ∨ f = 1) fs →
  zsum fs = Z.of_nat (length fs) ↔ Forall (λ f, f = 1) fs.
Proof.
  induction 1 as [|f fs Hf Hfs IH]; simpl.
  - split; [constructor | done].
  - change (foldr Z.add 0 fs) with (zsum fs).
    pose proof (zsum_bounds fs Hfs) as Hb. split.
    + intros Hs. assert (f = 1) by lia. constructor; [done|]. apply IH. lia.
    + intros Hall. inversion Hall as [|?? H1 H2]; subst. apply IH in H2. lia.
Qed.

Lemma zsum_take_mono fs (i j : nat) :
  Forall (λ f, f = 0 ∨ f = 1) fs → (i ≤ j)%nat → zsum (take i fs) ≤ zsum (take j fs).
Proof.
  intros Hfs Hij.
  replace j with (i + (j - i))%nat by lia.
  rewrite <- take_take_drop, zsum_app.
  assert (H01 : Forall (λ f, f = 0 ∨ f = 1) (take (j - i) (drop i fs))).
  { by apply Forall_take, Forall_drop. }
  pose proof (zsum_bounds _ H01). lia.
Qed.

Lemma prefix_sum_zsum fs i : prefix_sum fs i = zsum (take (Z.to_nat i) fs).
Proof. reflexivity. Qed.

(** The running sums computed with 32-bit additions are the exact prefix
    sums as long as the total fits in an int. *)
Lemma scan_from_lookup fs acc (i : nat) :
  Forall (λ f, f = 0 ∨ f = 1) fs →
  0 ≤ acc → acc + Z.of_nat (length fs) ≤ INT_MAX →
  (i < length fs)%nat →
  scan_from acc fs !! i = Some (acc + zsum (take i fs)).
Proof.
  intros Hfs. revert acc i.
  induction Hfs as [|f fs Hf Hfs IH]; intros acc i Hacc Hmax Hi; simpl in *; [lia|].
  destruct i as [|i]; simpl.
  - f_equal. lia.
  - rewrite add32_small by (unfold INT_MAX in Hmax; lia).
    rewrite IH by (unfold INT_MAX in *; lia).
    change (foldr Z.add 0 (take i fs)) with (zsum (take i fs)). f_equal. lia.
Qed.

Lemma length_scan_from fs acc : length (scan_from acc fs) = length fs.
Proof. revert acc. induction fs as [|f fs IH]; intros acc; simpl; auto. Qed.
End Sums.

Section Survivors.
Context {A : Type}.
Implicit Types (fs : list Z) (xs : list A).

Lemma survivors_snoc fs f xs x :
  xs !! length fs = Some x →
  survivors (fs ++ [f]) xs = survivors fs xs ++ (if f =? 0 then [] else [x]).
Proof.
  revert xs. induction fs as [|g fs IH]; intros [|y xs] Hx; simpl in *; try done.
  - injection Hx as ->. destruct (f =? 0); by destruct xs.
  - destruct (g =? 0); simpl; rewrite (IH xs Hx); done.
Qed.

Lemma length_survivors fs xs :
  Forall (λ f, f = 0 ∨ f = 1) fs → (length fs ≤ length xs)%nat →
  Z.of_nat (length (survivors fs xs)) = zsum fs.
Proof.
  intros Hfs. revert xs.
  induction Hfs as [|f fs Hf Hfs IH]; intros [|x xs] Hlen; simpl in *; try lia.
  change (foldr Z.add 0 fs) with (zsum fs).
  destruct Hf as [-> | ->]; simpl; rewrite <- (IH xs) by lia; lia.
Qed.

Lemma survivors_all fs xs :
  Forall (λ f, f = 1) fs → (length fs ≤ length xs)%nat →
  survivors fs xs = take (length fs) xs.
Proof.
  intros Hfs. revert xs.
  induction Hfs as [|f fs Hf Hfs IH]; intros [|x xs] Hlen; simpl in *; try lia; try done.
  subst f. simpl. f_equal. apply IH. lia.
Qed.

(** A surviving element sits at the position given by the prefix sum. *)
Lemma survivors_lookup fs xs (i : nat) x :
  Forall (λ f, f = 0 ∨ f = 1) fs →
  fs !! i = Some 1 → xs !! i = Some x →
  survivors fs xs !! Z.to_nat (zsum (take i fs)) = Some x.
Proof.
  intros Hfs. revert xs i.
  induction Hfs as [|f fs Hf Hfs IH]; intros [|y xs] i Hf1 Hx; simpl in *; try done.
  destruct i as [|i]; simpl in *.
  - injection Hf1 as ->. injection Hx as ->. done.
  - change (foldr Z.add 0 (take i fs)) with (zsum (take i fs)).
    pose proof (zsum_bounds (take i fs) (Forall_take _ _ _ Hfs)) as Hb.
    destruct Hf as [-> | ->]; simpl.
    + by apply IH.
    + replace (Z.to_nat (1 + zsum (take i fs))) with (S (Z.to_nat (zsum (take i fs)))) by lia.
      simpl. by apply IH.
Qed.
End Survivors.

Section ScatterIf.
Context `{Stray} `{Thrust} {A : Type}.
Implicit Types (input output : list A) (stencil map : list Z).

(** Scattering by exclusive prefix sums packs the flagged elements, in
    order, at the front of the output. *)
Lemma scatter_if_survivors (stray : Z → A) (k : nat) input map stencil output :
  (k ≤ length input)%nat → (k ≤ length stencil)%nat → (k ≤ length output)%nat →
  Forall (λ f, f = 0 ∨ f = 1) (take k stencil) →
  (∀ i : nat, (i < k)%nat → map !! i = Some (zsum (take i stencil))) →
  scatter_if stray (Z.of_nat k) input map stencil output =
    survivors (take k stencil) input
      ++ drop (length (survivors (take k stencil) input)) output.
Proof.
  unfold scatter_if. induction k as [|k IH]; intros Hin Hst Hout H01 Hmap.
  - simpl. by rewrite drop_0.
  - destruct (lookup_lt_is_Some_2 stencil k) as [f Hf]; [lia|].
    destruct (lookup_lt_is_Some_2 input k) as [x Hx]; [lia|].
    rewrite (take_S_r _ _ _ Hf) in H01 |- *.
    apply Forall_app in H01 as [H01 Hf01]. apply Forall_inv in Hf01.
    rewrite seqZ_snoc, foldl_app. simpl.
    rewrite IH by (auto with lia).
    rewrite (rd_of_nat _ _ _ _ Hf), (rd_of_nat _ _ _ _ Hx).
    rewrite (rd_of_nat _ _ _ _ (Hmap k ltac:(lia))).
    assert (Hxs : input !! length (take k stencil) = Some x).
    { rewrite length_take. by replace (k `min` length stencil)%nat with k by lia. }
    rewrite (survivors_snoc _ f _ x Hxs).
    set (sv := survivors (take k stencil) input).
    assert (HS : Z.of_nat (length sv) = zsum (take k stencil)).
    { apply length_survivors; [done|]. rewrite length_take. lia. }
    pose proof (zsum_bounds _ H01) as Hb. rewrite length_take in Hb.
    destruct Hf01 as [-> | ->]; simpl.
    + by rewrite app_nil_r.
    + rewrite <- HS, wr_of_nat, length_app. simpl.
      rewrite insert_app_r_alt by lia. rewrite Nat.sub_diag.
      destruct (drop (length sv) output) as [|y rest] eqn:Hd.
      { apply (f_equal length) in Hd. rewrite length_drop in Hd. simpl in Hd. lia. }
      simpl. rewrite <- app_assoc. simpl. do 2 f_equal.
      rewrite <- (drop_drop output 1 (length sv)), Hd. done.
Qed.
End ScatterIf.

Section CompactRays.
Context `{Stray} `{Thrust}.
Implicit Types (d : Device).

Lemma flags01_lookup n flags (i : nat) f :
  flags01 n flags → (Z.of_nat i < n) → flags !! i = Some f → f = 0 ∨ f = 1.
Proof.
  intros H01 Hi Hf. unfold flags01 in H01.
  rewrite Forall_lookup in H01. apply (H01 i).
  rewrite lookup_take_lt by lia. done.
Qed.

Lemma exclusive_scan_lookup n flags idx (i : nat) :
  1 ≤ n ≤ INT_MAX → n ≤ Z.of_nat (length flags) → flags01 n flags →
  Z.of_nat i < n →
  exclusive_scan n flags idx !! i = Some (zsum (take i flags)).
Proof.
  intros Hn Hlen H01 Hi. unfold exclusive_scan.
  assert (Hl : length (take (Z.to_nat n) flags) = Z.to_nat n).
  { rewrite length_take. lia. }
  rewrite lookup_app_l by (rewrite length_scan_from; lia).
  rewrite scan_from_lookup by (rewrite ?Hl; first [exact H01 | lia]).
  rewrite take_take, Z.add_0_l.
  by replace (i `min` Z.to_nat n)%nat with i by lia.
Qed.

Lemma length_exclusive_scan n flags idx :
  n ≤ Z.of_nat (length flags) → n ≤ Z.of_nat (length idx) →
  length (exclusive_scan n flags idx) = length idx.
Proof.
  intros Hf Hi. unfold exclusive_scan.
  rewrite length_app, length_drop, length_scan_from, length_take. lia.
Qed.

(** The slot array holds the exclusive prefix sums. *)
Lemma compact_slot d n i :
  compactable d n → 0 ≤ i < n →
  rd stray_int (exclusive_scan n (rayValid d) (rayIndex d)) i = prefix_sum (rayValid d) i.
Proof.
  intros [] Hi. apply rd_lookup; [lia|].
  rewrite (exclusive_scan_lookup n); auto with lia.
Qed.

(** The returned count is the number of set flags. *)
Lemma compact_count d n sortByMat :
  compactable d n →
  (compact_rays d n sortByMat).1 = zsum (take (Z.to_nat n) (rayValid d)).
Proof.
  intros Hc. pose proof Hc as [].
  unfold compact_rays.
  destruct (if sortByMat then _ else _) as [i2 p2]. simpl.
  rewrite compact_slot by (done || lia).
  destruct (lookup_lt_is_Some_2 (rayValid d) (Z.to_nat (n - 1))) as [f Hf]; [lia|].
  rewrite (rd_lookup _ _ _ f) by (done || lia).
  unfold prefix_sum.
  replace (Z.to_nat n) with (S (Z.to_nat (n - 1))) by lia.
  rewrite (take_S_r _ _ _ Hf), zsum_app. simpl.
  assert (H01 : Forall (λ f, f = 0 ∨ f = 1) (take (Z.to_nat (n - 1)) (rayValid d))).
  { unfold flags01 in *. replace (Z.to_nat (n - 1)) with (Z.to_nat (n - 1) `min` Z.to_nat n)%nat by lia.
    rewrite <- take_take. by apply Forall_take. }
  pose proof (zsum_bounds _ H01) as Hb. rewrite length_take in Hb.
  assert (f = 0 ∨ f = 1) by (eapply (flags01_lookup n); eauto; lia).
  rewrite add32_small by (unfold INT_MAX in *; lia). lia.
Qed.

(** Without the sort, the front of the new current buffers is the list of
    survivors. *)
Lemma compact_rays_survivors d n :
  compactable d n →
  let d' := (compact_rays d n false).2 in
  let flags := take (Z.to_nat n) (rayValid d) in
  dev_paths1 d' = survivors flags (dev_paths1 d)
                    ++ drop (length (survivors flags (dev_paths1 d))) (dev_paths2 d) ∧
  dev_intersections1 d' = survivors flags (dev_intersections1 d)
                    ++ drop (length (survivors flags (dev_intersections1 d)))
                            (dev_intersections2 d).
Proof.
  intros Hc. pose proof Hc as []. simpl.
  assert (Hmap : ∀ i : nat, (i < Z.to_nat n)%nat →
            exclusive_scan n (rayValid d) (rayIndex d) !! i
            = Some (zsum (take i (rayValid d)))).
  { intros i Hi. apply exclusive_scan_lookup; auto with lia. }
  split.
  - rewrite <- (Z2Nat.id n) at 1 by lia.
    apply scatter_if_survivors; auto with lia.
  - rewrite <- (Z2Nat.id n) at 1 by lia.
    apply scatter_if_survivors; auto with lia.
Qed.
End CompactRays.

Section CompactClaims.
Context `{Stray} `{Thrust}.
Implicit Types (d : Device).

Lemma zsum_take_S flags (i : nat) f :
  flags !! i = Some f → zsum (take (S i) flags) = zsum (take i flags) + f.
Proof. intros Hf. rewrite (take_S_r _ _ _ Hf), zsum_app. simpl. lia. Qed.

Lemma compact_rayIndex d n sortByMat :
  rayIndex (compact_rays d n sortByMat).2 = exclusive_scan n (rayValid d) (rayIndex d).
Proof. unfold compact_rays. by destruct (if sortByMat then _ else _). Qed.

Lemma compact_flag_lookup d n i :
  compactable d n → 0 ≤ i < n →
  rayValid d !! Z.to_nat i = Some (rd stray_int (rayValid d) i).
Proof.
  intros [] Hi.
  destruct (lookup_lt_is_Some_2 (rayValid d) (Z.to_nat i)) as [f Hf]; [lia|].
  by rewrite (rd_lookup _ _ _ f) by (done || lia).
Qed.

Lemma compact_flags_take d n :
  compactable d n →
  Forall (λ f, f = 0 ∨ f = 1) (take (Z.to_nat n) (rayValid d)) ∧
  length (take (Z.to_nat n) (rayValid d)) = Z.to_nat n.
Proof. intros []. split; [done|]. rewrite length_take. lia. Qed.

Lemma compact_prefix_le d n (i j : nat) :
  compactable d n → (i ≤ j)%nat → Z.of_nat j ≤ n →
  zsum (take i (rayValid d)) ≤ zsum (take j (rayValid d)).
Proof.
  intros Hc Hij Hj. destruct (compact_flags_take d n Hc) as [H01 _].
  replace i with (i `min` Z.to_nat n)%nat by lia.
  replace j with (j `min` Z.to_nat n)%nat by lia.
  rewrite <- !take_take. by apply zsum_take_mono.
Qed.

(** A survivor is found in its slot after a compaction without sort. *)
Lemma compact_survivor_slot d n i :
  compactable d n → 0 ≤ i < n → rd stray_int (rayValid d) i = 1 →
  let d' := (compact_rays d n false).2 in
  let slot := prefix_sum (rayValid d) i in
  rd stray_path (dev_paths1 d') slot = rd stray_path (dev_paths1 d) i ∧
  rd stray_intersection (dev_intersections1 d') slot
    = rd stray_intersection (dev_intersections1 d) i.
Proof.
  intros Hc Hi Hflag d' slot.
  destruct (compact_rays_survivors d n Hc) as [Hp Hs]. fold d' in Hp, Hs.
  destruct (compact_flags_take d n Hc) as [H01 Hlen].
  pose proof Hc as [].
  pose proof (compact_flag_lookup d n i Hc Hi) as Hf. rewrite Hflag in Hf.
  assert (Hf' : take (Z.to_nat n) (rayValid d) !! Z.to_nat i = Some 1).
  { rewrite lookup_take_lt by lia. done. }
  assert (Hslot : slot = zsum (take (Z.to_nat i) (take (Z.to_nat n) (rayValid d)))).
  { unfold slot, prefix_sum. rewrite take_take.
    by replace (Z.to_nat i `min` Z.to_nat n)%nat with (Z.to_nat i) by lia. }
  assert (0 ≤ slot).
  { rewrite Hslot. apply zsum_bounds. by apply Forall_take. }
  destruct (lookup_lt_is_Some_2 (dev_paths1 d) (Z.to_nat i)) as [p Hp1]; [lia|].
  destruct (lookup_lt_is_Some_2 (dev_intersections1 d) (Z.to_nat i)) as [s Hs1]; [lia|].
  split.
  - rewrite (rd_lookup _ (dev_paths1 d) i p) by (done || lia).
    apply rd_lookup; [done|]. rewrite Hp. apply lookup_app_l_Some.
    rewrite Hslot. by apply survivors_lookup.
  - rewrite (rd_lookup _ (dev_intersections1 d) i s) by (done || lia).
    apply rd_lookup; [done|]. rewrite Hs. apply lookup_app_l_Some.
    rewrite Hslot. by apply survivors_lookup.
Qed.

Lemma compact_all_flags d n :
  compactable d n →
  Forall (λ f, f = 1) (take (Z.to_nat n) (rayValid d))
  ↔ ∀ i, 0 ≤ i < n → rd stray_int (rayValid d) i = 1.
Proof.
  intros Hc. pose proof Hc as []. rewrite Forall_lookup. split.
  - intros Hall i Hi. pose proof (compact_flag_lookup d n i Hc Hi) as Hf.
    apply (Hall (Z.to_nat i)). rewrite lookup_take_lt by lia. done.
  - intros Hall i f Hf.
    pose proof (lookup_lt_Some _ _ _ Hf) as Hlt. rewrite length_take in Hlt.
    rewrite lookup_take_lt in Hf by lia.
    rewrite <- (Hall (Z.of_nat i)) by lia. symmetry. by apply rd_of_nat.
Qed.

(** C3.  For a count [n >= 1] and 0/1 flags, the slot array written by
    [compact_rays] holds the exclusive prefix sums of the flags, every
    surviving path and intersection record lands in the slot of its
    index, the returned count is the last slot plus the last flag, it
    never exceeds [n], and it equals [n] exactly when every flag is 1. *)
Theorem compact_rays_prefix_sum_count d n sortByMat :
  compactable d n →
  let flag i := rd stray_int (rayValid d) i in
  let slot i := rd stray_int (rayIndex (compact_rays d n sortByMat).2) i in
  let count := (compact_rays d n sortByMat).1 in
  let d' := (compact_rays d n false).2 in
  (∀ i, 0 ≤ i < n → slot i = prefix_sum (rayValid d) i) ∧
  (∀ i, 0 ≤ i < n → flag i = 1 →
     rd stray_path (dev_paths1 d') (slot i) = rd stray_path (dev_paths1 d) i ∧
     rd stray_intersection (dev_intersections1 d') (slot i)
       = rd stray_intersection (dev_intersections1 d) i) ∧
  count = slot (n - 1) + flag (n - 1) ∧
  count ≤ n ∧
  (count = n ↔ ∀ i, 0 ≤ i < n → flag i = 1).
Proof.
  intros Hc flag slot count d'. pose proof Hc as [].
  destruct (compact_flags_take d n Hc) as [H01 Hlen].
  assert (Hslot : ∀ i, 0 ≤ i < n → slot i = prefix_sum (rayValid d) i).
  { intros i Hi. unfold slot. rewrite compact_rayIndex. by apply compact_slot. }
  assert (Hcount : count = zsum (take (Z.to_nat n) (rayValid d))).
  { by apply compact_count. }
  pose proof (zsum_bounds _ H01) as Hb. rewrite Hlen in Hb.
  split; [done|]. split.
  { intros i Hi Hf. rewrite Hslot by done. by apply compact_survivor_slot. }
  split.
  { rewrite Hcount, Hslot by lia. unfold prefix_sum, flag.
    pose proof (compact_flag_lookup d n (n - 1) Hc ltac:(lia)) as Hf.
    rewrite <- (zsum_take_S _ _ _ Hf). f_equal. f_equal. lia. }
  split; [lia|].
  unfold flag. rewrite Hcount, <- (compact_all_flags d n Hc).
  rewrite <- (zsum_full _ H01), Hlen. lia.
Qed.

(** C4.  Without the material sort, two survivors [i < j] are stored in
    slots that keep their order and lie below the new count; and when
    every flag is 1 the count is unchanged and the first [n] entries of the
    new current buffers are the old ones, in the same order. *)
Theorem compact_rays_order_preserved d n :
  compactable d n →
  let flag i := rd stray_int (rayValid d) i in
  let slot i := rd stray_int (rayIndex (compact_rays d n false).2) i in
  let count := (compact_rays d n false).1 in
  let d' := (compact_rays d n false).2 in
  (∀ i j, 0 ≤ i → i < j → j < n → flag i = 1 → flag j = 1 →
     0 ≤ slot i ∧ slot i < slot j ∧ slot j < count ∧
     rd stray_path (dev_paths1 d') (slot i) = rd stray_path (dev_paths1 d) i ∧
     rd stray_path (dev_paths1 d') (slot j) = rd stray_path (dev_paths1 d) j ∧
     rd stray_intersection (dev_intersections1 d') (slot i)
       = rd stray_intersection (dev_intersections1 d) i ∧
     rd stray_intersection (dev_intersections1 d') (slot j)
       = rd stray_intersection (dev_intersections1 d) j) ∧
  ((∀ i, 0 ≤ i < n → flag i = 1) →
     count = n ∧
     take (Z.to_nat n) (dev_paths1 d') = take (Z.to_nat n) (dev_paths1 d) ∧
     take (Z.to_nat n) (dev_intersections1 d')
       = take (Z.to_nat n) (dev_intersections1 d)).
Proof.
  intros Hc flag slot count d'. pose proof Hc as [].
  destruct (compact_flags_take d n Hc) as [H01 Hlen].
  assert (Hslot : ∀ i, 0 ≤ i < n → slot i = prefix_sum (rayValid d) i).
  { intros i Hi. unfold slot. rewrite compact_rayIndex. by apply compact_slot. }
  assert (Hcount : count = zsum (take (Z.to_nat n) (rayValid d))).
  { by apply compact_count. }
  split.
  - intros i j Hi Hij Hj Hfi Hfj.
    rewrite !Hslot by lia.
    destruct (compact_survivor_slot d n i Hc ltac:(lia) Hfi) as [Hpi Hsi].
    destruct (compact_survivor_slot d n j Hc ltac:(lia) Hfj) as [Hpj Hsj].
    pose proof (compact_flag_lookup d n i Hc ltac:(lia)) as Hli.
    pose proof (compact_flag_lookup d n j Hc ltac:(lia)) as Hlj.
    fold (flag i) in Hli. fold (flag j) in Hlj. rewrite Hfi in Hli. rewrite Hfj in Hlj.
    pose proof (zsum_take_S _ _ _ Hli) as Si. pose proof (zsum_take_S _ _ _ Hlj) as Sj.
    pose proof (compact_prefix_le d n (S (Z.to_nat i)) (Z.to_nat j) Hc ltac:(lia) ltac:(lia)).
    pose proof (compact_prefix_le d n (S (Z.to_nat j)) (Z.to_nat n) Hc ltac:(lia) ltac:(lia)).
    pose proof (compact_prefix_le d n 0%nat (Z.to_nat i) Hc ltac:(lia) ltac:(lia)) as Hz.
    rewrite take_0 in Hz. simpl in Hz.
    unfold prefix_sum. repeat split; try done; lia.
  - intros Hall. apply (compact_all_flags d n Hc) in Hall.
    assert (Hn : count = n).
    { rewrite Hcount. apply (zsum_full _ H01) in Hall. lia. }
    split; [done|].
    destruct (compact_rays_survivors d n Hc) as [Hp Hs]. fold d' in Hp, Hs.
    rewrite Hp, Hs, !survivors_all by (done || lia).
    rewrite Hlen. rewrite !take_app_le by (rewrite length_take; lia).
    by rewrite !take_take, Nat.min_id.
Qed.
End CompactClaims.

(** * The order on binary32 values *)

Section FloatOrder.
Implicit Types (x y z : float).

Ltac cmp_cases :=
  repeat match goal with
    | |- context [Z.compare ?a ?b] => destruct (Z.compare_spec a b); subst; simpl
    | H : context [Z.compare ?a ?b] |- _ => destruct (Z.compare_spec a b); subst; simpl in H
    | |- context [Pos.compare_cont Eq ?a ?b] =>
        change (Pos.compare_cont Eq a b) with (Pos.compare a b);
        destruct (Pos.compare_spec a b); subst; simpl
    | H : context [Pos.compare_cont Eq ?a ?b] |- _ =>
        change (Pos.compare_cont Eq a b) with (Pos.compare a b) in H;
        destruct (Pos.compare_spec a b); subst; simpl in H
    end.

Lemma fltb_irrefl x : fltb x x = false.
Proof.
  unfold fltb, SFltb. destruct x as [[]|[]| |[] m e]; simpl; try done.
  all: rewrite Z.compare_refl; change (Pos.compare_cont Eq m m) with (Pos.compare m m).
  all: by rewrite Pos.compare_refl.
Qed.

Lemma fltb_trans x y z : fltb x y = true → fltb y z = true → fltb x z = true.
Proof.
  unfold fltb, SFltb.
  destruct x as [[]|[]| |[] m1 e1], y as [[]|[]| |[] m2 e2], z as [[]|[]| |[] m3 e3];
    simpl; try done.
  all: intros H1 H2; cmp_cases; try done; try lia.
Qed.

Lemma fltb_asym x y : fltb x y = true → fltb y x = false.
Proof.
  intros Hxy. destruct (fltb y x) eqn:Hyx; [|done].
  pose proof (fltb_trans _ _ _ Hxy Hyx) as Hxx. by rewrite fltb_irrefl in Hxx.
Qed.

(** Two positive values that are not ordered either way are the same. *)
Lemma fltb_pos_total x y :
  fltb f_zero x = true → fltb f_zero y = true →
  fltb x y = false → fltb y x = false → x = y.
Proof.
  unfold fltb, SFltb, f_zero.
  destruct x as [[]|[]| |[] m1 e1], y as [[]|[]| |[] m2 e2]; simpl; try done.
  intros _ _ H1 H2. cmp_cases; try done; try lia.
Qed.

Lemma fltb_feqb x y : fltb x y = true → feqb x y = false.
Proof.
  unfold fltb, feqb, SFltb, SFeqb. by destruct (SFcompare x y) as [[]|].
Qed.

Lemma f_1e20_lt_FLT_MAX : fltb f_1e20 FLT_MAX = true.
Proof. reflexivity. Qed.
End FloatOrder.

(** * The stackless walk *)

Section Walk.
Context `{Stray} `{Uninit} `{SceneStructs} `{Intersections}.
Variables (arr : list BVHGPUNode) (prims : list Primitive) (objs : list Object)
          (tris : list ivec3) (verts : list vec3) (r : Ray).

Local Abbreviation step := (bvh_step arr prims objs tris verts r).
Local Notation "w '~[' k ']~>' w'" := (reaches arr prims objs tris verts r k w w')
  (at level 70, no associativity).
Local Abbreviation test_all := (tested prims objs tris verts r).
Local Abbreviation lp := (leaf_prim prims objs tris verts r).

Lemma reaches_trans k1 k2 w w1 w2 :
  w ~[k1]~> w1 → w1 ~[k2]~> w2 → w ~[k1 + k2]~> w2.
Proof.
  intros Ha Hb fuel. rewrite <- Nat.add_assoc. by rewrite Ha, Hb.
Qed.

Lemma reaches_step w w' :
  0 ≤ curr w < Z.of_nat (length arr) → step w = Some (Continue w') → w ~[1]~> w'.
Proof.
  intros Hc Hs fuel. simpl.
  assert (Hr : (0 <=? curr w) && (curr w <? Z.of_nat (length arr)) = true).
  { apply andb_true_intro. split; [apply Z.leb_le | apply Z.ltb_lt]; lia. }
  by rewrite Hr, Hs.
Qed.

(** The flag carried through a run of leaf rounds is the old flag or a
    hit of the run. *)
Lemma leaf_fold_flag idxs b isect :
  foldl lp (b, isect) idxs
  = (if (foldl lp (false, isect) idxs).1 then true else b,
     (foldl lp (false, isect) idxs).2).
Proof.
  revert b isect. induction idxs as [|i idxs IH]; intros b isect; [done|].
  simpl. unfold leaf_prim at 2 4 6. simpl.
  destruct (fltb f_zero _ && fltb _ (t isect)).
  - rewrite (IH true). by destruct (foldl lp _ idxs).1.
  - apply IH.
Qed.

Lemma tested_app w a b x y s s' :
  test_all (test_all w a x s) b y s' = test_all w (a ++ b) y s'.
Proof.
  unfold tested. simpl. rewrite foldl_app.
  by destruct (foldl lp (intersected w, tmpIntersection w) a).
Qed.

Lemma tested_nil w x s :
  test_all w [] x s
  = {| curr := x; state := s; tmpIntersection := tmpIntersection w;
       intersected := intersected w |}.
Proof. reflexivity. Qed.

(** Testing a leaf is a run of leaf rounds over its primitive range. *)
Lemma visit_leaf_tested w i next st :
  curr w = i →
  startPrim (rd stray_node arr i) < endPrim (rd stray_node arr i) →
  visit_leaf arr prims objs tris verts r w next st
  = Some (Continue (test_all w (tree_prims arr (BLeaf i)) next st)).
Proof.
  intros <- Hrange. unfold visit_leaf, util_bvh_leaf_intersect, for_range.
  destruct (Z.leb_spec (startPrim (rd stray_node arr (curr w)))
              (endPrim (rd stray_node arr (curr w)))) as [_|]; [|lia].
  simpl. unfold tested. rewrite (leaf_fold_flag _ (intersected w)).
  by destruct (foldl lp (false, tmpIntersection w) _) as [[] ?].
Qed.

Lemma near_child_cases i o :
  util_bvh_get_near_child arr i o = left (rd stray_node arr i) ∨
  util_bvh_get_near_child arr i o = right (rd stray_node arr i).
Proof. unfold util_bvh_get_near_child. destruct (fltb _ _); auto. Qed.

Lemma sibling_of_left up c :
  up ≠ -1 → parent (rd stray_node arr c) = up → left (rd stray_node arr up) = c →
  util_bvh_get_sibling arr c = right (rd stray_node arr up).
Proof.
  intros Hup Hp Hl. unfold util_bvh_get_sibling. rewrite Hp, Hl.
  destruct (Z.eqb_spec up (-1)); [done|]. by rewrite Z.eqb_refl.
Qed.

Lemma sibling_of_right up c :
  up ≠ -1 → parent (rd stray_node arr c) = up → left (rd stray_node arr up) ≠ c →
  util_bvh_get_sibling arr c = left (rd stray_node arr up).
Proof.
  intros Hup Hp Hl. unfold util_bvh_get_sibling. rewrite Hp.
  destruct (Z.eqb_spec up (-1)); [done|].
  by destruct (Z.eqb_spec (left (rd stray_node arr up)) c).
Qed.

Lemma tree_in_root up tr :
  tree_in arr up tr →
  0 ≤ tree_root tr < Z.of_nat (length arr) ∧ parent (rd stray_node arr (tree_root tr)) = up.
Proof. by destruct 1. Qed.

Lemma tree_in_node_inv up i l r' :
  tree_in arr up (BNode i l r') →
  left (rd stray_node arr i) = tree_root l ∧
  right (rd stray_node arr i) = tree_root r' ∧
  tree_root l ≠ tree_root r' ∧
  tree_in arr i l ∧ tree_in arr i r'.
Proof. by inversion 1. Qed.

Lemma tree_in_is_leaf up tr :
  tree_in arr up tr →
  util_bvh_is_leaf arr (tree_root tr) = match tr with BLeaf _ => true | _ => false end.
Proof.
  destruct 1 as [up i Hi Hp Hl Hr Hs | up i l r' Hi Hp Hl Hr Hne Hcl Hcr];
    unfold util_bvh_is_leaf; simpl.
  - by rewrite Hl, Hr.
  - apply tree_in_root in Hcl as [Hcl _]. rewrite Hl.
    destruct (Z.eqb_spec (tree_root l) (-1)); [lia | done].
Qed.

Lemma goto_tested w idxs x s y s' :
  goto (test_all w idxs x s) y s' = Continue (test_all w idxs y s').
Proof. reflexivity. Qed.

Lemma goto_start w y s' : goto w y s' = Continue (test_all w [] y s').
Proof. reflexivity. Qed.

(** Entering a subtree whose box the ray misses, or a leaf: one round. *)
Lemma step_enter up tr w :
  tree_in arr up tr → curr w = tree_root tr →
  state w = fromParent ∨ state w = fromSibling →
  boundingBoxIntersectionTest (bbox (rd stray_node arr (tree_root tr))) r = false
  ∨ (∃ i, tr = BLeaf i) →
  step w = Some (Continue (test_all w (visit_prims arr r tr)
                   (match state w with
                    | fromParent => util_bvh_get_sibling arr (tree_root tr)
                    | _ => up
                    end)
                   (match state w with fromParent => fromSibling | _ => fromChild end))).
Proof.
  intros Hin Hcw Hst Hcase.
  pose proof (tree_in_root _ _ Hin) as [Hrange Hup].
  pose proof (tree_in_is_leaf _ _ Hin) as Hleaf.
  unfold bvh_step. rewrite Hcw, Hup.
  destruct (boundingBoxIntersectionTest (bbox (rd stray_node arr (tree_root tr))) r) eqn:Hbox.
  - destruct Hcase as [|[i ->]]; [done|]. rewrite Hleaf.
    assert (Hv : visit_prims arr r (BLeaf i) = tree_prims arr (BLeaf i)).
    { simpl in *. by rewrite Hbox. }
    rewrite Hv. inversion Hin; subst.
    destruct Hst as [-> | ->]; simpl; by apply visit_leaf_tested.
  - assert (Hv : visit_prims arr r tr = []).
    { destruct tr; simpl in *; by rewrite Hbox. }
    rewrite Hv. destruct Hst as [-> | ->]; reflexivity.
Qed.

Hypothesis Hroot : parent (rd stray_node arr 0) = -1.

(** Leaving an interior node upwards: to the sibling from the near child,
    to the parent from the far child. *)
Lemma step_leave up c w :
  0 ≤ up → parent (rd stray_node arr c) = up → curr w = c → state w = fromChild →
  step w = Some (goto w (if c =? util_bvh_get_near_child arr up (origin r)
                         then util_bvh_get_sibling arr c else up)
                        (if c =? util_bvh_get_near_child arr up (origin r)
                         then fromSibling else fromChild)).
Proof.
  intros Hup Hp Hcw Hst. unfold bvh_step. rewrite Hst, Hcw, Hp.
  destruct (Z.eqb_spec c 0) as [-> | _]; [rewrite Hroot in Hp; lia|].
  by destruct (c =? _).
Qed.

(** The walk through a subtree entered from above (as the near child) or
    from the side (as the far child) tests what the recursive descent
    tests and leaves for the sibling, respectively the parent. *)
Lemma walk_subtree tr : ∀ up w,
  tree_in arr up tr → 0 ≤ up < Z.of_nat (length arr) → curr w = tree_root tr →
  (state w = fromParent →
   util_bvh_get_near_child arr up (origin r) = tree_root tr →
   ∃ k, (k ≤ 2 * tree_size tr)%nat ∧
        w ~[k]~> test_all w (visit_prims arr r tr)
                   (util_bvh_get_sibling arr (tree_root tr)) fromSibling) ∧
  (state w = fromSibling →
   util_bvh_get_near_child arr up (origin r) ≠ tree_root tr →
   ∃ k, (k ≤ 2 * tree_size tr)%nat ∧
        w ~[k]~> test_all w (visit_prims arr r tr) up fromChild).
Proof.
  induction tr as [i | i l IHl r' IHr]; intros up w Hin Hup Hcw.
  - (* a leaf: one round either way *)
    pose proof (tree_in_root _ _ Hin) as [Hrange _].
    split; intros Hst Hnear; exists 1%nat; (split; [simpl; lia|]);
      apply reaches_step; try (rewrite Hcw; exact Hrange);
      rewrite (step_enter up (BLeaf i) w Hin Hcw) by (first [rewrite Hst; by auto | by eauto]);
      by rewrite Hst.
  - pose proof (tree_in_root _ _ Hin) as [Hrange Hpar]. simpl in Hrange, Hpar, Hcw.
    destruct (boundingBoxIntersectionTest (bbox (rd stray_node arr i)) r) eqn:Hbox.
    2:{ (* the box is missed: one round either way *)
        split; intros Hst Hnear; exists 1%nat; (split; [simpl; lia|]);
          apply reaches_step; try (rewrite Hcw; exact Hrange);
          rewrite (step_enter up (BNode i l r') w Hin Hcw)
            by (first [rewrite Hst; by auto | by eauto]);
          by rewrite Hst. }
    destruct (tree_in_node_inv _ _ _ _ Hin) as (Hl & Hr & Hne & Hinl & Hinr).
    pose proof (tree_in_root _ _ Hinl) as [Hrl Hpl].
    pose proof (tree_in_root _ _ Hinr) as [Hrr Hpr].
    pose proof (tree_in_is_leaf _ _ Hin) as Hleaf. simpl in Hleaf.
    (* the descent into the pair of children, shared by both entries *)
    assert (Hpair : state w = fromParent ∨ state w = fromSibling →
              ∃ k, (k ≤ 1 + 2 * tree_size l + 2 * tree_size r')%nat ∧
                   w ~[k]~> test_all w (visit_prims arr r (BNode i l r')) i fromChild).
    { intros Hst.
      set (w1 := test_all w [] (util_bvh_get_near_child arr i (origin r)) fromParent).
      assert (Hs1 : step w = Some (Continue w1)).
      { unfold bvh_step. rewrite Hcw, Hbox, Hleaf. by destruct Hst as [-> | ->]. }
      pose proof (reaches_step _ _ ltac:(rewrite Hcw; exact Hrange) Hs1) as R1.
      simpl. rewrite Hbox.
      destruct (near_child_cases i (origin r)) as [Hn | Hn].
      + (* the left child is near *)
        rewrite Hl in Hn. rewrite Hn, Z.eqb_refl.
        destruct (IHl i w1 Hinl Hrange ltac:(by rewrite <- Hn)) as [Hnear _].
        destruct (Hnear eq_refl Hn) as (k1 & Hk1 & R2).
        rewrite (sibling_of_left i) in R2 by (done || lia).
        set (w2 := test_all w1 (visit_prims arr r l) (right (rd stray_node arr i)) fromSibling) in R2.
        destruct (IHr i w2 Hinr Hrange ltac:(by symmetry)) as [_ Hfar].
        destruct (Hfar eq_refl ltac:(by rewrite Hn)) as (k2 & Hk2 & R3).
        exists (1 + (k1 + k2))%nat. split; [lia|].
        eapply reaches_trans; [exact R1|]. eapply reaches_trans; [exact R2|].
        unfold w2, w1 in R3. rewrite !tested_app in R3. exact R3.
      + (* the right child is near *)
        rewrite Hr in Hn. rewrite Hn.
        destruct (Z.eqb_spec (tree_root r') (tree_root l)) as [|_]; [congruence|].
        destruct (IHr i w1 Hinr Hrange ltac:(by rewrite <- Hn)) as [Hnear _].
        destruct (Hnear eq_refl Hn) as (k1 & Hk1 & R2).
        rewrite (sibling_of_right i) in R2 by (done || lia || congruence).
        set (w2 := test_all w1 (visit_prims arr r r') (left (rd stray_node arr i)) fromSibling) in R2.
        destruct (IHl i w2 Hinl Hrange ltac:(by symmetry)) as [_ Hfar].
        destruct (Hfar eq_refl ltac:(rewrite Hn; congruence)) as (k2 & Hk2 & R3).
        exists (1 + (k2 + k1))%nat. split; [lia|].
        eapply reaches_trans; [exact R1|]. rewrite Nat.add_comm.
        eapply reaches_trans; [exact R2|].
        unfold w2, w1 in R3. rewrite !tested_app in R3. exact R3. }
    (* one more round at the node itself *)
    split; intros Hst Hnear; destruct (Hpair ltac:(auto)) as (k & Hk & R);
      exists (k + 1)%nat; (split; [simpl; lia|]);
      (eapply reaches_trans; [exact R|]);
      apply reaches_step; try exact Hrange;
      rewrite (step_leave up i) by (done || lia);
      rewrite goto_tested; simpl.
    + by rewrite Hnear, Z.eqb_refl.
    + by destruct (Z.eqb_spec i (util_bvh_get_near_child arr up (origin r))).
Qed.
End Walk.

Section WalkResult.
Context `{Stray} `{Uninit} `{SceneStructs} `{Intersections}.
Variables (arr : list BVHGPUNode) (prims : list Primitive) (objs : list Object)
          (tris : list ivec3) (verts : list vec3) (r : Ray).

(** A successful reading of the array yields a tree the array holds. *)
Lemma bvh_shape_tree_in fuel : ∀ up i tr,
  bvh_shape fuel arr up i = Some tr → tree_in arr up tr ∧ tree_root tr = i.
Proof.
  induction fuel as [|fuel IH]; intros up i tr Hs; [done|].
  simpl in Hs.
  destruct ((0 <=? i) && (i <? Z.of_nat (length arr))
            && (parent (rd stray_node arr i) =? up)) eqn:Hhead; [|done].
  apply andb_prop in Hhead as [Hhead Hp]. apply andb_prop in Hhead as [Hi1 Hi2].
  apply Z.leb_le in Hi1. apply Z.ltb_lt in Hi2. apply Z.eqb_eq in Hp.
  destruct ((left (rd stray_node arr i) =? -1) && (right (rd stray_node arr i) =? -1))
    eqn:Hleaf.
  - apply andb_prop in Hleaf as [Hl Hr]. apply Z.eqb_eq in Hl, Hr.
    destruct (Z.ltb_spec (startPrim (rd stray_node arr i)) (endPrim (rd stray_node arr i)));
      [|done].
    injection Hs as <-. split; [by constructor | done].
  - destruct (Z.eqb_spec (left (rd stray_node arr i)) (right (rd stray_node arr i)));
      [done|].
    destruct (bvh_shape fuel arr i (left (rd stray_node arr i))) as [l|] eqn:Hsl; [|done].
    destruct (bvh_shape fuel arr i (right (rd stray_node arr i))) as [r'|] eqn:Hsr; [|done].
    simpl in Hs. injection Hs as <-.
    apply IH in Hsl as [Hinl Hrl]. apply IH in Hsr as [Hinr Hrr].
    split; [|done]. constructor; auto; congruence.
Qed.

(** The whole walk: with enough rounds allowed it ends at the root, having
    tested the primitives of the near-first descent below the root. *)
Lemma bvh_walk_tested l r' fuel :
  tree_in arr (-1) (BNode 0 l r') →
  (2 * (tree_size l + tree_size r') < fuel)%nat →
  bvh_walk fuel arr (Z.of_nat (length arr)) prims objs tris verts r (bvh_start arr r)
  = Some (tested prims objs tris verts r (bvh_start arr r)
            (visit_children arr r 0 l r') 0 fromChild).
Proof.
  intros Hin Hfuel.
  pose proof (tree_in_root _ _ _ Hin) as [Hrange Hroot]. simpl in Hrange, Hroot.
  destruct (tree_in_node_inv _ _ _ _ _ Hin) as (Hl & Hr & Hne & Hinl & Hinr).
  pose proof (tree_in_root _ _ _ Hinl) as [_ Hpl].
  pose proof (tree_in_root _ _ _ Hinr) as [_ Hpr].
  set (w0 := bvh_start arr r).
  assert (Hend : ∃ k, (k ≤ 2 * (tree_size l + tree_size r'))%nat ∧
            reaches arr prims objs tris verts r k w0
              (tested prims objs tris verts r w0 (visit_children arr r 0 l r') 0 fromChild)).
  { unfold visit_children.
    destruct (near_child_cases arr 0 (origin r)) as [Hn | Hn].
    - rewrite Hl in Hn. rewrite Hn, Z.eqb_refl.
      destruct (walk_subtree arr prims objs tris verts r Hroot l 0 w0 Hinl Hrange Hn)
        as [Hnear _].
      destruct (Hnear eq_refl Hn) as (k1 & Hk1 & R1).
      rewrite (sibling_of_left arr 0) in R1 by (done || lia).
      set (w1 := tested prims objs tris verts r w0 (visit_prims arr r l)
                   (right (rd stray_node arr 0)) fromSibling) in R1.
      destruct (walk_subtree arr prims objs tris verts r Hroot r' 0 w1 Hinr Hrange
                  ltac:(by symmetry)) as [_ Hfar].
      destruct (Hfar eq_refl ltac:(by rewrite Hn)) as (k2 & Hk2 & R2).
      exists (k1 + k2)%nat. split; [lia|].
      eapply reaches_trans; [exact R1|].
      unfold w1 in R2. rewrite tested_app in R2. exact R2.
    - rewrite Hr in Hn. rewrite Hn.
      destruct (Z.eqb_spec (tree_root r') (tree_root l)) as [|_]; [congruence|].
      destruct (walk_subtree arr prims objs tris verts r Hroot r' 0 w0 Hinr Hrange Hn)
        as [Hnear _].
      destruct (Hnear eq_refl Hn) as (k1 & Hk1 & R1).
      rewrite (sibling_of_right arr 0) in R1 by (done || lia || congruence).
      set (w1 := tested prims objs tris verts r w0 (visit_prims arr r r')
                   (left (rd stray_node arr 0)) fromSibling) in R1.
      destruct (walk_subtree arr prims objs tris verts r Hroot l 0 w1 Hinl Hrange
                  ltac:(by symmetry)) as [_ Hfar].
      destruct (Hfar eq_refl ltac:(rewrite Hn; congruence)) as (k2 & Hk2 & R2).
      exists (k1 + k2)%nat. split; [lia|].
      eapply reaches_trans; [exact R1|].
      unfold w1 in R2. rewrite tested_app in R2. exact R2. }
  destruct Hend as (k & Hk & R).
  replace fuel with (k + S (fuel - k - 1))%nat by lia.
  rewrite R. simpl.
  destruct (length arr); [simpl in Hrange; lia|]. reflexivity.
Qed.
End WalkResult.

(** * The nearest-hit search *)

Section Nearest.
Implicit Types (c : cand_hit) (s : float * option cand_hit) (L : list cand_hit).

(** What a search over [L] from state [s] ends with: [s] itself when no
    candidate improves on it, otherwise a positive candidate of [L] below
    the old distance that no positive candidate of [L] undercuts. *)
Lemma pick_fold L : ∀ s,
  (foldl pick s L = s ∧
   Forall (λ c, fltb f_zero (hit_t c) && fltb (hit_t c) s.1 = false) L) ∨
  (∃ c, foldl pick s L = (hit_t c, Some c) ∧ c ∈ L ∧ positive c ∧
        fltb (hit_t c) s.1 = true ∧
        Forall (λ c', positive c' → fltb (hit_t c') (hit_t c) = false) L).
Proof.
  induction L as [|c0 L IH]; intros s; simpl.
  { left. by split. }
  unfold pick at 2 4.
  destruct (fltb f_zero (hit_t c0)) eqn:Hpos; simpl.
  2:{ destruct (IH s) as [[Hs Hall] | (c & Hs & Hc & Hp & Hlt & Hall)].
      - left. split; [done|]. constructor; [by rewrite Hpos | done].
      - right. exists c. repeat split; try done; [by right|].
        constructor; [|done]. unfold positive. by rewrite Hpos. }
  destruct (fltb (hit_t c0) s.1) eqn:Hlt0.
  - right. destruct (IH (hit_t c0, Some c0)) as [[Hs Hall] | (c & Hs & Hc & Hp & Hlt & Hall)].
    + exists c0. repeat split; try done; [by left|].
      constructor; [intros _; apply fltb_irrefl|].
      eapply Forall_impl; [exact Hall|]. simpl. intros c' Hc' Hp'.
      unfold positive in Hp'. by rewrite Hp' in Hc'.
    + exists c. simpl in Hlt. repeat split; try done; [by right | |].
      * by eapply fltb_trans.
      * constructor; [|done]. intros _. by apply fltb_asym.
  - destruct (IH s) as [[Hs Hall] | (c & Hs & Hc & Hp & Hlt & Hall)].
    + left. split; [done|]. constructor; [by rewrite Hpos, Hlt0 | done].
    + right. exists c. repeat split; try done; [by right|].
      constructor; [|done]. intros _.
      destruct (fltb (hit_t c0) (hit_t c)) eqn:E; [|done].
      by rewrite (fltb_trans _ _ _ E Hlt) in Hlt0.
Qed.

(** Two searches over lists with the same positive candidates, each from
    a bound above all of them, find the same hit, provided candidates at
    the same positive distance are the same hit. *)
Lemma pick_fold_agree L1 L2 b1 b2 :
  (∀ c, c ∈ L1 → positive c → c ∈ L2) →
  (∀ c, c ∈ L2 → positive c → c ∈ L1) →
  (∀ c, c ∈ L1 → positive c → fltb (hit_t c) b1 = true ∧ fltb (hit_t c) b2 = true) →
  (∀ c c', c ∈ L1 → c' ∈ L1 → positive c → hit_t c = hit_t c' → c = c') →
  (foldl pick (b1, None) L1 = (b1, None) ∧ foldl pick (b2, None) L2 = (b2, None)) ∨
  (∃ c, positive c ∧ fltb (hit_t c) b1 = true ∧
        foldl pick (b1, None) L1 = (hit_t c, Some c) ∧
        foldl pick (b2, None) L2 = (hit_t c, Some c)).
Proof.
  intros H12 H21 Hb Hties.
  destruct (pick_fold L1 (b1, None)) as [[Hs1 Hall1] | (c1 & Hs1 & Hc1 & Hp1 & Hlt1 & Hall1)];
  destruct (pick_fold L2 (b2, None)) as [[Hs2 Hall2] | (c2 & Hs2 & Hc2 & Hp2 & Hlt2 & Hall2)];
    simpl in *.
  - by left.
  - exfalso. rewrite Forall_forall in Hall1.
    pose proof (H21 c2 Hc2 Hp2) as Hin. specialize (Hall1 c2 Hin).
    destruct (Hb c2 Hin Hp2) as [Hlt _]. unfold positive in Hp2.
    by rewrite Hp2, Hlt in Hall1.
  - exfalso. rewrite Forall_forall in Hall2.
    pose proof (H12 c1 Hc1 Hp1) as Hin. specialize (Hall2 c1 Hin).
    destruct (Hb c1 Hc1 Hp1) as [_ Hlt]. unfold positive in Hp1.
    by rewrite Hp1, Hlt in Hall2.
  - right. rewrite Forall_forall in Hall1, Hall2.
    pose proof (H21 c2 Hc2 Hp2) as Hin2. pose proof (H12 c1 Hc1 Hp1) as Hin1.
    assert (Ht : hit_t c1 = hit_t c2).
    { apply fltb_pos_total; try done.
      - by apply Hall2.
      - by apply Hall1. }
    assert (c1 = c2) as <- by (by apply Hties).
    exists c1. by repeat split.
Qed.
End Nearest.

(** * Both kernels as searches *)

Section KernelsAsSearch.
Context `{Stray} `{Uninit} `{SceneStructs} `{Intersections}.
Variables (arr : list BVHGPUNode) (prims : list Primitive) (objs : list Object)
          (tris : list ivec3) (verts : list vec3) (r : Ray).

Local Abbreviation hit_of := (key_hit objs tris verts r).
Local Abbreviation key_of := (prim_key prims objs).

Lemma prim_test_key i :
  prim_test prims objs tris verts r i = key_test objs tris verts r (key_of i).
Proof.
  unfold prim_test, key_test, prim_key.
  by destruct (otype (rd stray_object objs (objID (rd stray_primitive prims i)))) eqn:E;
    simpl; rewrite ?E.
Qed.

Lemma prim_key_object i : (key_of i).1 = objID (rd stray_primitive prims i).
Proof. unfold prim_key. by destruct (otype _). Qed.

(** A leaf round is a step of the search. *)
Lemma leaf_prim_pick acc i :
  leaf_abs (leaf_prim prims objs tris verts r acc i) = pick (leaf_abs acc) (hit_of (key_of i)).
Proof.
  unfold leaf_prim, pick, leaf_abs, key_hit, hit_t. simpl.
  rewrite prim_test_key, prim_key_object.
  destruct (key_test objs tris verts r (key_of i)) as [[tt p] n]. simpl.
  by destruct (fltb f_zero tt && fltb tt (t acc.2)).
Qed.

Lemma leaf_fold_pick idxs : ∀ acc,
  leaf_abs (foldl (leaf_prim prims objs tris verts r) acc idxs)
  = foldl pick (leaf_abs acc) (hit_of <$> (key_of <$> idxs)).
Proof.
  induction idxs as [|i idxs IH]; intros acc; simpl; [done|].
  by rewrite IH, leaf_prim_pick.
Qed.

(** The descent only tests primitives of the tree, and it tests every one
    the ray hits when the boxes admit the ray. *)
Lemma visit_prims_subset tr i : i ∈ visit_prims arr r tr → i ∈ tree_prims arr tr.
Proof.
  induction tr as [j | j l IHl r' IHr]; simpl.
  - destruct (boundingBoxIntersectionTest _ _); [tauto | by inversion 1].
  - destruct (boundingBoxIntersectionTest _ _); [|by inversion 1].
    destruct (_ =? _); rewrite !elem_of_app; intros [?|?]; auto.
Qed.

Lemma visit_prims_all tr i :
  boxes_admit arr prims objs tris verts r tr = true →
  i ∈ tree_prims arr tr →
  fltb f_zero (key_test objs tris verts r (key_of i)).1.1 = true →
  i ∈ visit_prims arr r tr.
Proof.
  induction tr as [j | j l IHl r' IHr]; intros Hadm Hi Hpos.
  - simpl in Hadm. apply andb_prop in Hadm as [Hadm _].
    rewrite forallb_forall in Hadm.
    pose proof (Hadm i (proj1 (list_elem_of_In _ _) Hi)) as Hb.
    rewrite Hpos in Hb. simpl in Hb |- *. by rewrite Hb.
  - cbn [boxes_admit] in Hadm. apply andb_prop in Hadm as [Hadm Hch].
    apply andb_prop in Hch as [Hl Hr].
    rewrite forallb_forall in Hadm.
    pose proof (Hadm i (proj1 (list_elem_of_In _ _) Hi)) as Hb.
    rewrite Hpos in Hb. simpl in Hb |- *. rewrite Hb.
    apply elem_of_app in Hi.
    destruct (_ =? _); rewrite elem_of_app; destruct Hi; auto.
Qed.

(** The brute-force locals and the search state they stand for. *)
Lemma bf_init_abs : bf_abs bf_init (FLT_MAX, None).
Proof. by repeat split. Qed.

Lemma bf_store_keep geom res s a :
  bf_abs s a →
  bf_abs (bf_keep_nearer geom (bf_store res s)) (pick a (res, materialid geom)).
Proof.
  intros (Ht & Hc & _). destruct res as [[tt p] n].
  unfold bf_keep_nearer, bf_store, pick, hit_t. simpl. rewrite Ht.
  destruct (fltb f_zero tt && fltb tt a.1) eqn:E.
  - repeat split; simpl.
    + by intros c [= <-].
    + by rewrite fltb_irrefl, andb_false_r.
  - repeat split; simpl; try done. intros c Hc'. rewrite <- Ht. by apply Hc.
Qed.

(** The check repeated after the object branch changes nothing. *)
Lemma bf_keep_stale geom s a : bf_abs s a → bf_keep_nearer geom s = s.
Proof. intros (_ & _ & Hst). unfold bf_keep_nearer. by rewrite Hst. Qed.

Lemma bf_triangles_abs o idxs : ∀ s a,
  bf_abs s a →
  bf_abs (foldl (bf_triangle tris verts (rd stray_object objs o) r) s idxs)
         (foldl pick a (hit_of <$> ((λ k, (o, Some k)) <$> idxs))).
Proof.
  induction idxs as [|k idxs IH]; intros s a Hs; simpl; [done|].
  apply IH. unfold bf_triangle. by apply bf_store_keep.
Qed.

Lemma bf_object_abs o s a :
  (otype (rd stray_object objs o) = MODEL →
   triangleStart (rd stray_object objs o) ≤ triangleEnd (rd stray_object objs o)) →
  bf_abs s a →
  ∃ s', bf_object objs tris verts r o s = Some s' ∧
        bf_abs s' (foldl pick a (hit_of <$> object_keys objs o)).
Proof.
  intros Hmesh Hs. unfold bf_object, object_keys.
  destruct (otype (rd stray_object objs o)) eqn:Hty; simpl.
  - eexists. split; [done|].
    pose proof (bf_store_keep (rd stray_object objs o)
                  (sphereIntersectionTest (rd stray_object objs o) r) s a Hs) as Hk.
    unfold key_hit, key_test. simpl. by rewrite Hty.
  - eexists. split; [done|].
    pose proof (bf_store_keep (rd stray_object objs o)
                  (boxIntersectionTest (rd stray_object objs o) r) s a Hs) as Hk.
    unfold key_hit, key_test. simpl. by rewrite Hty.
  - unfold for_range.
    destruct (Z.leb_spec (triangleStart (rd stray_object objs o))
                (triangleEnd (rd stray_object objs o))) as [_|]; [|by specialize (Hmesh eq_refl); lia].
    simpl. eexists. split; [done|].
    pose proof (bf_triangles_abs o
                  (seqZ (triangleStart (rd stray_object objs o))
                     (triangleEnd (rd stray_object objs o)
                      - triangleStart (rd stray_object objs o))) s a Hs) as Hk.
    by rewrite (bf_keep_stale _ _ _ Hk).
Qed.

Lemma bf_loop_abs os : ∀ s a,
  Forall (λ o, otype (rd stray_object objs o) = MODEL →
               triangleStart (rd stray_object objs o) ≤ triangleEnd (rd stray_object objs o)) os →
  bf_abs s a →
  ∃ s', loopM (bf_object objs tris verts r) os s = Some s' ∧
        bf_abs s' (foldl pick a (hit_of <$> (os ≫= object_keys objs))).
Proof.
  induction os as [|o os IH]; intros s a Hmesh Hs; simpl.
  - by exists s.
  - inversion Hmesh as [|? ? Ho Hos]; subst.
    destruct (bf_object_abs o s a Ho Hs) as (s1 & -> & Hs1).
    rewrite fmap_app, foldl_app. by apply IH.
Qed.

Lemma bf_scan_abs :
  Forall (λ geom, otype geom = MODEL → triangleStart geom ≤ triangleEnd geom) objs →
  ∃ s, bf_scan objs (Z.of_nat (length objs)) tris verts r = Some s ∧
       bf_abs s (foldl pick (FLT_MAX, None) (hit_of <$> bf_keys objs)).
Proof.
  intros Hmesh. apply bf_loop_abs; [|apply bf_init_abs].
  apply Forall_forall. intros o Ho.
  apply elem_of_seqZ in Ho.
  destruct (lookup_lt_is_Some_2 objs (Z.to_nat o)) as [g Hg]; [lia|].
  rewrite (rd_lookup _ _ _ g) by (done || lia).
  rewrite Forall_lookup in Hmesh. by apply (Hmesh _ _ Hg).
Qed.
End KernelsAsSearch.

(** * Agreement of the two intersection kernels *)

Section Agreement.
Context `{Stray} `{Uninit} `{SceneStructs} `{Intersections}.

Lemma fmap_wr {A B} (f : A → B) (l : list A) i x : f <$> wr l i x = wr (f <$> l) i (f x).
Proof. unfold wr. destruct (0 <=? i); [apply list_fmap_insert | done]. Qed.

Lemma feqb_FLT_MAX : feqb FLT_MAX FLT_MAX = true.
Proof. reflexivity. Qed.

(** On a comparable scene the two searches see the same positive
    candidates. *)
Lemma comparable_searches sc r l r' :
  comparable sc r l r' →
  let hit_of := key_hit (objects sc) (triangles sc) (verticies sc) r in
  let L1 := hit_of <$> bf_keys (objects sc) in
  let L2 := hit_of <$> (prim_key (primitives sc) (objects sc)
                          <$> visit_children (bvhArray sc) r 0 l r') in
  (foldl pick (FLT_MAX, None) L1 = (FLT_MAX, None) ∧
   foldl pick (f_1e20, None) L2 = (f_1e20, None)) ∨
  (∃ c, positive c ∧ fltb (hit_t c) FLT_MAX = true ∧
        foldl pick (FLT_MAX, None) L1 = (hit_t c, Some c) ∧
        foldl pick (f_1e20, None) L2 = (hit_t c, Some c)).
Proof.
  intros [Hshape Hmesh Hkbf Hkbvh Hbox Hbound Hties] hit_of L1 L2.
  apply andb_prop in Hbox as [Hboxl Hboxr].
  rewrite Forall_forall in Hkbf, Hkbvh, Hbound, Hties.
  assert (Hvis : ∀ i, i ∈ visit_children (bvhArray sc) r 0 l r'
                      ↔ i ∈ visit_prims (bvhArray sc) r l ∨ i ∈ visit_prims (bvhArray sc) r r').
  { intros i. unfold visit_children. destruct (_ =? _); rewrite elem_of_app; tauto. }
  apply pick_fold_agree.
  - intros c Hc Hpos. apply list_elem_of_fmap in Hc as (k & -> & Hk).
    apply Hkbf, list_elem_of_fmap in Hk as (i & -> & Hi).
    apply list_elem_of_fmap_2, list_elem_of_fmap_2, Hvis.
    simpl in Hi. apply elem_of_app in Hi as [Hi | Hi]; [left | right];
      by apply (visit_prims_all _ (primitives sc) (objects sc) (triangles sc) (verticies sc)).
  - intros c Hc _. apply list_elem_of_fmap in Hc as (k & -> & Hk).
    apply list_elem_of_fmap_2, Hkbvh. apply list_elem_of_fmap in Hk as (i & -> & Hi).
    apply list_elem_of_fmap_2. simpl. apply elem_of_app.
    apply Hvis in Hi as [Hi | Hi]; [left | right]; by apply (visit_prims_subset _ r).
  - intros c Hc Hpos. apply list_elem_of_fmap in Hc as (k & -> & Hk).
    pose proof (Hbound k Hk Hpos) as Hlt. split; [|done].
    exact (fltb_trans _ _ _ Hlt f_1e20_lt_FLT_MAX).
  - intros c c' Hc Hc' Hpos Heq.
    apply list_elem_of_fmap in Hc as (k & -> & Hk).
    apply list_elem_of_fmap in Hc' as (k' & -> & Hk').
    pose proof (Hties k Hk) as Hk2. rewrite Forall_forall in Hk2.
    by apply Hk2.
Qed.

(** C1 (as amended).  On a comparable scene, for a lane inside the launch
    and a walk allowed enough rounds, both kernels finish, write the same
    validity flags, and leave records whose [t], hit point, normal and
    material id are the same (the [type] tag is not compared). *)
Theorem intersection_kernels_agree sc r l r' fuel num_paths paths path_index ints flags :
  comparable sc r l r' →
  path_index < num_paths →
  ray (rd stray_path paths path_index) = r →
  (2 * (tree_size l + tree_size r') < fuel)%nat →
  ∃ out_bf out_bvh,
    compute_intersection num_paths paths (objects sc) (Z.of_nat (length (objects sc)))
      (triangles sc) (verticies sc) path_index (ints, flags) = Some out_bf ∧
    compute_intersection_bvh_stackless fuel num_paths paths (materials sc) (objects sc)
      (triangles sc) (verticies sc) (primitives sc) (bvhArray sc)
      (Z.of_nat (length (bvhArray sc))) path_index (ints, flags) = Some out_bvh ∧
    out_bf.2 = out_bvh.2 ∧
    record_hit <$> out_bf.1 = record_hit <$> out_bvh.1.
Proof.
  intros Hcmp Hlane Hray Hfuel.
  pose proof (comparable_searches sc r l r' Hcmp) as Hsearch. simpl in Hsearch.
  destruct Hcmp as [Hshape Hmesh _ _ _ _ _].
  apply bvh_shape_tree_in in Hshape as [Hin _].
  destruct (bf_scan_abs (objects sc) (triangles sc) (verticies sc) r Hmesh)
    as (s & Hscan & Hs_t & Hs_c & _).
  pose proof (bvh_walk_tested (bvhArray sc) (primitives sc) (objects sc) (triangles sc)
                (verticies sc) r l r' fuel Hin Hfuel) as Hwalk.
  pose proof (leaf_fold_pick (primitives sc) (objects sc) (triangles sc) (verticies sc) r
                (visit_children (bvhArray sc) r 0 l r')
                (intersected (bvh_start (bvhArray sc) r),
                 tmpIntersection (bvh_start (bvhArray sc) r))) as Hleaf.
  unfold compute_intersection, compute_intersection_bvh_stackless.
  destruct (Z.ltb_spec path_index num_paths) as [_|]; [|lia].
  destruct (Z.leb_spec num_paths path_index) as [|_]; [lia|].
  rewrite Hray, Hscan, Hwalk. cbn [mbind option_bind].
  unfold tested. cbn [intersected tmpIntersection].
  destruct (foldl _ _ (visit_children (bvhArray sc) r 0 l r')) as [hit tmp] eqn:Hfold.
  unfold leaf_abs in Hleaf. cbn [fst snd intersected tmpIntersection bvh_start t] in Hleaf.
  destruct Hsearch as [[Hbf Hbvh] | (c & Hpos & Hlt & Hbf & Hbvh)].
  - rewrite Hbf in Hs_t, Hs_c. rewrite Hbvh in Hleaf. cbn [fst snd] in Hs_t.
    rewrite Hs_t, feqb_FLT_MAX.
    destruct hit; [done|]. eexists _, _. by repeat split.
  - rewrite Hbf in Hs_t, Hs_c. rewrite Hbvh in Hleaf. cbn [fst snd] in Hs_t, Hs_c.
    rewrite Hs_t, (fltb_feqb _ _ Hlt).
    destruct hit; [|done]. injection Hleaf as Ht Hc.
    eexists _, _. repeat split. cbn [fst snd]. rewrite !fmap_wr. f_equal.
    transitivity c; [symmetry; exact (Hs_c c eq_refl) | by rewrite <- Hc].
Qed.
End Agreement.

(** * The three-state walk, transition by transition *)

Section Transitions.
Context `{Stray} `{Uninit} `{SceneStructs} `{Intersections}.
Variables (arr : list BVHGPUNode) (prims : list Primitive) (objs : list Object)
          (tris : list ivec3) (verts : list vec3) (r : Ray).

Local Abbreviation step := (bvh_step arr prims objs tris verts r).
Local Abbreviation test_all := (tested prims objs tris verts r).
Local Abbreviation hits c :=
  (boundingBoxIntersectionTest (bbox (rd stray_node arr (tree_root c))) r).

(** The transitions of a round at a child [c] of the node [p], whose
    sibling is [s]. *)
Lemma transitions_at_child up p l r' c s w :
  parent (rd stray_node arr 0) = -1 →
  tree_in arr up (BNode p l r') →
  (c = l ∧ s = r') ∨ (c = r' ∧ s = l) →
  curr w = tree_root c →
  (state w = fromParent →
     (hits c = false → step w = Some (goto w (tree_root s) fromSibling)) ∧
     (hits c = true → (∃ i, c = BLeaf i) →
        step w = Some (Continue (test_all w (tree_prims arr c) (tree_root s) fromSibling))) ∧
     (hits c = true → (∀ i, c ≠ BLeaf i) →
        step w = Some (goto w (util_bvh_get_near_child arr (tree_root c) (origin r)) fromParent))) ∧
  (state w = fromSibling →
     (hits c = false → step w = Some (goto w p fromChild)) ∧
     (hits c = true → (∃ i, c = BLeaf i) →
        step w = Some (Continue (test_all w (tree_prims arr c) p fromChild))) ∧
     (hits c = true → (∀ i, c ≠ BLeaf i) →
        step w = Some (goto w (util_bvh_get_near_child arr (tree_root c) (origin r)) fromParent))) ∧
  (state w = fromChild →
     (tree_root c = util_bvh_get_near_child arr p (origin r) →
        step w = Some (goto w (tree_root s) fromSibling)) ∧
     (tree_root c ≠ util_bvh_get_near_child arr p (origin r) →
        step w = Some (goto w p fromChild))).
Proof.
  intros Hroot Hin Hcs Hcw.
  pose proof (tree_in_root _ _ _ Hin) as [Hp _]. simpl in Hp.
  destruct (tree_in_node_inv _ _ _ _ _ Hin) as (Hl & Hr & Hne & Hinl & Hinr).
  assert (Hinc : tree_in arr p c) by (by destruct Hcs as [[-> ->] | [-> ->]]).
  pose proof (tree_in_root _ _ _ Hinc) as [Hrc Hpc].
  pose proof (tree_in_is_leaf _ _ _ Hinc) as Hleaf.
  assert (Hsib : util_bvh_get_sibling arr (tree_root c) = tree_root s).
  { destruct Hcs as [[-> ->] | [-> ->]].
    - rewrite (sibling_of_left arr p) by (done || lia). done.
    - rewrite (sibling_of_right arr p) by (done || lia || congruence). done. }
  assert (Hv : hits c = false → visit_prims arr r c = []).
  { intros Hb. destruct c; simpl in *; by rewrite Hb. }
  assert (Hvl : hits c = true → (∃ i, c = BLeaf i) → visit_prims arr r c = tree_prims arr c).
  { intros Hb [i ->]. simpl in *. by rewrite Hb. }
  split; [|split]; intros Hst.
  - repeat split.
    + intros Hb. rewrite (step_enter arr prims objs tris verts r p c w) by auto.
      by rewrite Hst, (Hv Hb), Hsib.
    + intros Hb Hi. rewrite (step_enter arr prims objs tris verts r p c w) by auto.
      by rewrite Hst, (Hvl Hb Hi), Hsib.
    + intros Hb Hi. unfold bvh_step. rewrite Hst, Hcw, Hb, Hleaf.
      destruct c as [i|]; [by destruct (Hi i) | done].
  - repeat split.
    + intros Hb. rewrite (step_enter arr prims objs tris verts r p c w) by auto.
      by rewrite Hst, (Hv Hb).
    + intros Hb Hi. rewrite (step_enter arr prims objs tris verts r p c w) by auto.
      by rewrite Hst, (Hvl Hb Hi).
    + intros Hb Hi. unfold bvh_step. rewrite Hst, Hcw, Hb, Hleaf.
      destruct c as [i|]; [by destruct (Hi i) | done].
  - rewrite (step_leave arr prims objs tris verts r Hroot p (tree_root c)) by (done || lia).
    rewrite Hsib. split; intros Hn.
    + by rewrite <- Hn, Z.eqb_refl.
    + by destruct (Z.eqb_spec (tree_root c) (util_bvh_get_near_child arr p (origin r))).
Qed.

End Transitions.

(** * The walk follows the specified transitions *)

Section Followed.
Context `{Stray} `{Uninit} `{SceneStructs} `{Intersections}.
Variables (arr : list BVHGPUNode) (prims : list Primitive) (objs : list Object)
          (tris : list ivec3) (verts : list vec3) (r : Ray).

Local Abbreviation step := (bvh_step arr prims objs tris verts r).
Local Abbreviation test_all := (tested prims objs tris verts r).

(** The interior nodes of a tree the array holds are held by the array. *)
Lemma node_of_in T p a b : node_of T p a b → ∀ up,
  tree_in arr up T → ∃ up', tree_in arr up' (BNode p a b).
Proof.
  induction 1 as [p a b | i l r' p a b _ IH | i l r' p a b _ IH]; intros up Hin.
  - by exists up.
  - apply tree_in_node_inv in Hin as (_ & _ & _ & Hl & _). by apply (IH i).
  - apply tree_in_node_inv in Hin as (_ & _ & _ & _ & Hr). by apply (IH i).
Qed.

(** The interior nodes below an interior node are interior nodes of the
    tree. *)
Lemma node_of_below T p a b :
  node_of T p a b → ∀ c i x y, c = a ∨ c = b → c = BNode i x y → node_of T i x y.
Proof.
  induction 1 as [p a b | i0 l r' p a b _ IH | i0 l r' p a b _ IH]; intros c i x y Hc ->.
  - destruct Hc as [<- | <-]; [apply node_left | apply node_right]; apply node_here.
  - apply node_left. by eapply IH.
  - apply node_right. by eapply IH.
Qed.

(** An interior node is the root or a child of an interior node. *)
Lemma node_of_above T p a b :
  node_of T p a b →
  p = tree_root T ∨
  ∃ q x y c s, node_of T q x y ∧ ((c = x ∧ s = y) ∨ (c = y ∧ s = x)) ∧ tree_root c = p.
Proof.
  induction 1 as [p a b | i l r' p a b Hn IH | i l r' p a b Hn IH]; [by left | |]; right.
  - destruct IH as [-> | (q & x & y & c & s & Hq & Hcs & Hc)].
    + exists i, l, r', l, r'. split; [apply node_here|]. split; [by left | done].
    + exists q, x, y, c, s. split; [by apply node_left | done].
  - destruct IH as [-> | (q & x & y & c & s & Hq & Hcs & Hc)].
    + exists i, l, r', r', l. split; [apply node_here|]. split; [by right | done].
    + exists q, x, y, c, s. split; [by apply node_right | done].
Qed.

(** The near child the code computes is the specified one. *)
Lemma near_child_near_of up p a b o :
  tree_in arr up (BNode p a b) → origin r = o →
  util_bvh_get_near_child arr p o = near_of arr r a b.
Proof.
  intros Hin <-. apply tree_in_node_inv in Hin as (Hl & Hr & _).
  unfold util_bvh_get_near_child, near_of. by rewrite Hl, Hr.
Qed.

Lemma near_of_cases a b : near_of arr r a b = tree_root a ∨ near_of arr r a b = tree_root b.
Proof. unfold near_of. destruct (fltb _ _); auto. Qed.

Lemma at_child_pair T p a b w :
  node_of T p a b → curr w = tree_root a ∨ curr w = tree_root b → at_child T w.
Proof.
  intros Hn [Hc | Hc].
  - exists p, a, b, a, b. split; [done|]. split; [by left | done].
  - exists p, a, b, b, a. split; [done|]. split; [by right | done].
Qed.

Lemma at_parent T p a b w :
  node_of T p a b → curr w = p → state w = fromChild → at_child T w ∨ at_end T w.
Proof.
  intros Hn Hc Hs. destruct (node_of_above _ _ _ _ Hn) as [-> | (q & x & y & c & s & Hq & Hcs & Hp)].
  - by right.
  - left. exists q, x, y, c, s. split; [done|]. split; [done|]. by rewrite Hc.
Qed.

(** At a child of an interior node the loop runs a specified round, and
    stands at a child again or at the end afterwards. *)
Lemma round_exists l r' w :
  tree_in arr (-1) (BNode 0 l r') →
  at_child (BNode 0 l r') w →
  ∃ w1, round_at arr prims objs tris verts r (BNode 0 l r') w w1 ∧
        (at_child (BNode 0 l r') w1 ∨ at_end (BNode 0 l r') w1).
Proof.
  intros HT (p & a & b & c & s & Hn & Hcs & Hcw).
  pose proof (tree_in_root _ _ _ HT) as [_ Hroot]. simpl in Hroot.
  destruct (node_of_in _ _ _ _ Hn _ HT) as [up Hin].
  pose proof (transitions_at_child arr prims objs tris verts r up p a b c s w
                Hroot Hin Hcs Hcw) as (HP & HS & HC).
  rewrite (near_child_near_of up p a b (origin r) Hin eq_refl) in HC.
  assert (Hs' : s = a ∨ s = b) by (destruct Hcs as [[_ ->] | [_ ->]]; auto).
  assert (Hc' : c = a ∨ c = b) by (destruct Hcs as [[-> _] | [-> _]]; auto).
  assert (Hsib : ∀ w1, curr w1 = tree_root s → at_child (BNode 0 l r') w1).
  { intros w1 Hw1. apply (at_child_pair _ p a b); [done|].
    destruct Hs' as [<- | <-]; auto. }
  assert (Hdown : ∀ i x y w1, c = BNode i x y → curr w1 = near_of arr r x y →
                              at_child (BNode 0 l r') w1).
  { intros i x y w1 Hc Hw1. apply (at_child_pair _ i x y).
    - by apply (node_of_below _ _ _ _ Hn c).
    - rewrite Hw1. apply near_of_cases. }
  assert (Hnear : ∀ i x y, c = BNode i x y →
            util_bvh_get_near_child arr (tree_root c) (origin r) = near_of arr r x y).
  { intros i x y ->. simpl.
    assert (Hinc : tree_in arr p (BNode i x y)).
    { apply tree_in_node_inv in Hin as (_ & _ & _ & Ha & Hb).
      by destruct Hc' as [<- | <-]. }
    by apply (near_child_near_of p). }
  destruct (state w) eqn:Hst.
  - (* fromChild *)
    destruct (HC eq_refl) as [Hn1 Hn2].
    destruct (decide (tree_root c = near_of arr r a b)) as [Heq | Hne].
    + exists (moved w (tree_root s) fromSibling). split.
      * econstructor; [exact Hn | exact Hcs | exact Hcw | by constructor | by apply Hn1].
      * left. by apply Hsib.
    + exists (moved w p fromChild). split.
      * econstructor; [exact Hn | exact Hcs | exact Hcw | by apply from_child_far
                      | by apply Hn2].
      * by apply (at_parent _ p a b).
  - (* fromParent *)
    destruct (HP eq_refl) as (Hmiss & Hleaf & Hint).
    destruct (enters arr r c) eqn:Hbox.
    + destruct c as [i | i x y] eqn:Hc.
      * exists (test_all w (tree_prims arr (BLeaf i)) (tree_root s) fromSibling). split.
        -- econstructor; [exact Hn | exact Hcs | exact Hcw
                         | by eapply from_parent_leaf | apply Hleaf; by eauto].
        -- left. by apply Hsib.
      * exists (moved w (near_of arr r x y) fromParent). split.
        -- econstructor; [exact Hn | exact Hcs | exact Hcw
                         | by eapply from_parent_descend |].
           rewrite <- (Hnear i x y eq_refl). by apply Hint.
        -- left. by apply (Hdown i x y).
    + exists (moved w (tree_root s) fromSibling). split.
      * econstructor; [exact Hn | exact Hcs | exact Hcw | by apply from_parent_miss
                      | by apply Hmiss].
      * left. by apply Hsib.
  - (* fromSibling *)
    destruct (HS eq_refl) as (Hmiss & Hleaf & Hint).
    destruct (enters arr r c) eqn:Hbox.
    + destruct c as [i | i x y] eqn:Hc.
      * exists (test_all w (tree_prims arr (BLeaf i)) p fromChild). split.
        -- econstructor; [exact Hn | exact Hcs | exact Hcw
                         | by eapply from_sibling_leaf | apply Hleaf; by eauto].
        -- by apply (at_parent _ p a b).
      * exists (moved w (near_of arr r x y) fromParent). split.
        -- econstructor; [exact Hn | exact Hcs | exact Hcw
                         | by eapply from_sibling_descend |].
           rewrite <- (Hnear i x y eq_refl). by apply Hint.
        -- left. by apply (Hdown i x y).
    + exists (moved w p fromChild). split.
      * econstructor; [exact Hn | exact Hcs | exact Hcw | by apply from_sibling_miss
                      | by apply Hmiss].
      * by apply (at_parent _ p a b).
Qed.

Lemma at_child_range T w up :
  tree_in arr up T → at_child T w → 0 ≤ curr w < Z.of_nat (length arr).
Proof.
  intros HT (p & a & b & c & s & Hn & Hcs & ->).
  destruct (node_of_in _ _ _ _ Hn _ HT) as [up' Hin].
  apply tree_in_node_inv in Hin as (_ & _ & _ & Ha & Hb).
  destruct Hcs as [[-> _] | [-> _]]; by eapply tree_in_root.
Qed.

(** A walk that returns has run specified rounds up to the round that
    finds it back at the root. *)
Lemma walk_follows l r' fuel : ∀ w wf,
  tree_in arr (-1) (BNode 0 l r') →
  at_child (BNode 0 l r') w ∨ at_end (BNode 0 l r') w →
  bvh_walk fuel arr (Z.of_nat (length arr)) prims objs tris verts r w = Some wf →
  follows arr prims objs tris verts r (BNode 0 l r') w wf ∧
  at_end (BNode 0 l r') wf ∧ step wf = Some (Exit wf).
Proof.
  induction fuel as [|fuel IH]; intros w wf HT Hat Hrun.
  - assert (Hrange : 0 ≤ curr w < Z.of_nat (length arr)).
    { destruct Hat as [Hat | [-> _]]; [by eapply at_child_range|].
      by apply (tree_in_root _ _ _ HT). }
    simpl in Hrun.
    destruct (Z.leb_spec 0 (curr w)), (Z.ltb_spec (curr w) (Z.of_nat (length arr)));
      (done || lia).
  - destruct Hat as [Hat | Hend].
    + pose proof (at_child_range _ _ _ HT Hat) as Hrange.
      destruct (round_exists l r' w HT Hat) as (w1 & Hround & Hnext).
      pose proof Hround as [p a b c s _ _ _ _ Hstep].
      cbn [bvh_walk] in Hrun. rewrite Hstep in Hrun.
      destruct (Z.leb_spec 0 (curr w)), (Z.ltb_spec (curr w) (Z.of_nat (length arr)));
        try lia.
      cbn [andb] in Hrun.
      destruct (IH w1 wf HT Hnext Hrun) as (Hf & He & Hx).
      split; [by eapply follows_round|]. by split.
    + pose proof Hend as [Hc Hs]. simpl in Hc.
      assert (Hstep : step w = Some (Exit w)) by (unfold bvh_step; by rewrite Hs, Hc).
      pose proof (tree_in_root _ _ _ HT) as [Hrange _]. simpl in Hrange.
      cbn [bvh_walk] in Hrun. rewrite Hstep, Hc in Hrun.
      destruct (Z.ltb_spec 0 (Z.of_nat (length arr))); [|lia].
      cbn [Z.leb andb] in Hrun. injection Hrun as <-.
      split; [apply follows_end|]. by split.
Qed.
End Followed.

Section WalkClaim.
Context `{Stray} `{Uninit} `{SceneStructs} `{Intersections}.
Variables (arr : list BVHGPUNode) (prims : list Primitive) (objs : list Object)
          (tris : list ivec3) (verts : list vec3) (r : Ray).

Local Abbreviation step := (bvh_step arr prims objs tris verts r).
Local Abbreviation test_all := (tested prims objs tris verts r).
Local Abbreviation hits c :=
  (boundingBoxIntersectionTest (bbox (rd stray_node arr (tree_root c))) r).

End WalkClaim.

(** * A root without children *)

Section RootLeaf.
Context `{Stray} `{Uninit} `{SceneStructs} `{Intersections}.

Lemma bvh_walk_outside fuel arr size prims objs tris verts r w :
  ¬ (0 ≤ curr w < size) →
  bvh_walk fuel arr size prims objs tris verts r w = Some w.
Proof.
  intros Hout.
  assert (Hr : (0 <=? curr w) && (curr w <? size) = false).
  { apply andb_false_iff. destruct (Z.leb_spec 0 (curr w)); [right | by left].
    apply Z.ltb_ge. lia. }
  destruct fuel; simpl; by rewrite Hr.
Qed.

(** When the root is a leaf the walk starts at -1, whatever lies before
    the array, so it ends at once and the lane reports a miss. *)
Lemma bvh_root_leaf_miss fuel num_paths paths mats objs tris verts prims arr
    path_index ints flags :
  left (rd stray_node arr 0) = -1 → right (rd stray_node arr 0) = -1 →
  path_index < num_paths →
  compute_intersection_bvh_stackless fuel num_paths paths mats objs tris verts prims arr
    (Z.of_nat (length arr)) path_index (ints, flags)
  = Some (ints, wr flags path_index 0).
Proof.
  intros Hl Hr Hlane. unfold compute_intersection_bvh_stackless.
  destruct (Z.leb_spec num_paths path_index) as [|_]; [lia|].
  rewrite bvh_walk_outside.
  - reflexivity.
  - unfold bvh_start, util_bvh_get_near_child. cbn [curr]. rewrite Hl, Hr.
    destruct (fltb _ _); lia.
Qed.
End RootLeaf.

(** * Scattering *)

Section NaN.
Implicit Types (x : float) (v : vec3).

Lemma feqb_self x : feqb x x = false ↔ x = S754_nan.
Proof.
  unfold feqb, SFeqb. destruct x as [[]|[]| |[] m e]; simpl; try done.
  all: rewrite Z.compare_refl; change (Pos.compare_cont Eq m m) with (Pos.compare m m).
  all: by rewrite Pos.compare_refl.
Qed.

(** [util_math_is_nan] holds exactly of the vectors with a NaN component. *)
Lemma util_math_is_nan_spec v :
  util_math_is_nan v = true ↔ vx v = S754_nan ∨ vy v = S754_nan ∨ vz v = S754_nan.
Proof.
  unfold util_math_is_nan. rewrite !orb_true_iff, !negb_true_iff, !feqb_self. tauto.
Qed.

Lemma util_math_is_nan_false v :
  util_math_is_nan v = false ↔ vx v ≠ S754_nan ∧ vy v ≠ S754_nan ∧ vz v ≠ S754_nan.
Proof.
  rewrite <- not_true_iff_false, util_math_is_nan_spec.
  destruct (decide (vx v = S754_nan)), (decide (vy v = S754_nan)),
    (decide (vz v = S754_nan)); tauto.
Qed.

(** A value at most zero is not above zero. *)
Lemma fleb_not_fltb x y : fleb x y = true → fltb y x = false.
Proof.
  unfold fleb, fltb, SFleb, SFltb.
  destruct x as [[]|[]| |[] m1 e1], y as [[]|[]| |[] m2 e2]; simpl; try done.
  all: intros Hle;
    repeat match goal with
      | |- context [Z.compare ?a ?b] => destruct (Z.compare_spec a b); subst; simpl
      | H : context [Z.compare ?a ?b] |- _ => destruct (Z.compare_spec a b); subst; simpl in H
      | |- context [Pos.compare_cont Eq ?a ?b] =>
          change (Pos.compare_cont Eq a b) with (Pos.compare a b);
          destruct (Pos.compare_spec a b); subst; simpl
      | H : context [Pos.compare_cont Eq ?a ?b] |- _ =>
          change (Pos.compare_cont Eq a b) with (Pos.compare a b) in H;
          destruct (Pos.compare_spec a b); subst; simpl in H
      end; try done; try lia.
Qed.
End NaN.

Section ScatterClaims.
Context `{Stray} `{Interactions} `{Utilities} `{Thrust}.

(** C5.  A lane whose hit material is emitting multiplies the throughput by
    colour times emittance, writes flag 0, and adds the new throughput to
    the image at the path's pixel exactly when none of its components is a
    NaN; with a NaN component the image is left as it was. *)
Theorem scatter_emitting iter num_paths inters mats idx o :
  idx < num_paths →
  mtype (rd stray_material mats (materialId (rd stray_intersection inters idx))) = emitting →
  let material := rd stray_material mats (materialId (rd stray_intersection inters idx)) in
  let seg := rd stray_path (so_paths o) idx in
  let c := vmul (color seg) (vscale (mcolor material) (emittance material)) in
  let o' := scatter_on_intersection iter num_paths inters mats idx o in
  so_paths o' = wr (so_paths o) idx (set_color seg c) ∧
  so_rayValid o' = wr (so_rayValid o) idx 0 ∧
  (vx c ≠ S754_nan ∧ vy c ≠ S754_nan ∧ vz c ≠ S754_nan →
   so_image o' = image_add (so_image o) (pixelIndex seg) c) ∧
  (vx c = S754_nan ∨ vy c = S754_nan ∨ vz c = S754_nan → so_image o' = so_image o).
Proof.
  intros Hlane Hem material seg c o'. unfold o', scatter_on_intersection.
  destruct (Z.leb_spec num_paths idx) as [|_]; [lia|].
  fold material. fold seg.
  destruct (decide (mtype material = emitting)) as [_|Hne]; [|by destruct Hne].
  fold c. cbn [so_paths so_rayValid so_image]. repeat split.
  - intros Hok. apply util_math_is_nan_false in Hok. by rewrite Hok.
  - intros Hnan. apply util_math_is_nan_spec in Hnan. by rewrite Hnan.
Qed.

(** C6.  A lane whose hit material is not emitting draws a sample from the
    sampler of the material type.  With a pdf at most zero it writes flag 0
    and leaves the image and the path as they were; with a positive pdf it
    multiplies the throughput by BSDF times |cos| over pdf, moves the ray
    origin to the hit point offset by [SCATTER_ORIGIN_OFFSETMULT] along the
    normal, negated when the new direction points below it, sets the new
    direction, writes flag 1 and leaves the image as it was. *)
Theorem scatter_non_emitting iter num_paths inters mats idx o :
  idx < num_paths →
  mtype (rd stray_material mats (materialId (rd stray_intersection inters idx))) ≠ emitting →
  let intersection := rd stray_intersection inters idx in
  let material := rd stray_material mats (materialId intersection) in
  let seg := rd stray_path (so_paths o) idx in
  let N := vnormalize (surfaceNormal intersection) in
  let TBN := mkMat3 (util_math_get_TBN N).1 (util_math_get_TBN N).2 N in
  let wo := vnormalize (mat3_transpose_mul TBN (vneg (direction (ray seg)))) in
  let smp := sample_bsdf material (direction (ray seg)) N wo (scatter_engine iter idx) in
  let newDir := vnormalize (mat3_mul TBN (bs_wi smp)) in
  let offset := if fltb (vdot newDir N) f_zero then vneg N else N in
  let o' := scatter_on_intersection iter num_paths inters mats idx o in
  (fleb (bs_pdf smp) f_zero = true →
     so_rayValid o' = wr (so_rayValid o) idx 0 ∧
     so_image o' = so_image o ∧
     so_paths o' = so_paths o) ∧
  (fltb f_zero (bs_pdf smp) = true →
     so_rayValid o' = wr (so_rayValid o) idx 1 ∧
     so_image o' = so_image o ∧
     so_paths o' =
       wr (so_paths o) idx
          {| ray := {| origin := vadd (worldPos intersection)
                                      (vscale offset SCATTER_ORIGIN_OFFSETMULT);
                       direction := newDir |};
             color := vmul (color seg)
                           (vdivs (vscale (bs_f smp) (util_math_abscos (bs_wi smp)))
                                  (bs_pdf smp));
             pixelIndex := pixelIndex seg;
             remainingBounces := remainingBounces seg |}).
Proof.
  intros Hlane Hne intersection material seg N TBN wo smp newDir offset o'.
  unfold o', scatter_on_intersection.
  destruct (Z.leb_spec num_paths idx) as [|_]; [lia|].
  fold intersection. fold material. fold seg. fold N.
  destruct (decide (mtype material = emitting)) as [He|_]; [by destruct Hne|].
  destruct (util_math_get_TBN N) as [T B] eqn:HTBN.
  subst TBN wo. cbn [fst snd] in *. fold smp. fold newDir. fold offset.
  split.
  - intros Hle. by rewrite (fleb_not_fltb _ _ Hle).
  - intros Hpos. by rewrite Hpos.
Qed.
End ScatterClaims.

(** * Launches *)

Section Launch.
Context {A S : Type}.

Lemma loopM_total (g : A → S → S) (l : list A) (s : S) :
  loopM (λ a s, Some (g a s)) l s = Some (foldl (λ s a, g a s) s l).
Proof. revert s. induction l as [|a l IH]; intros s; simpl; [done | apply IH]. Qed.

Lemma loopM_ext (f g : A → S → option S) (l : list A) (s : S) :
  (∀ a s, a ∈ l → f a s = g a s) → loopM f l s = loopM g l s.
Proof.
  revert s. induction l as [|a l IH]; intros s Hfg; simpl; [done|].
  rewrite (Hfg a s) by left. destruct (g a s); [|done].
  apply IH. intros a' s' Ha'. apply Hfg. by right.
Qed.

Lemma loopM_app (f : A → S → option S) (l1 l2 : list A) (s : S) :
  loopM f (l1 ++ l2) s = loopM f l1 s ≫= loopM f l2.
Proof.
  revert s. induction l1 as [|a l1 IH]; intros s; simpl; [done|].
  destruct (f a s); [apply IH | done].
Qed.

Lemma loopM_idle (f : A → S → option S) (l : list A) (s : S) :
  (∀ a s, a ∈ l → f a s = Some s) → loopM f l s = Some s.
Proof.
  induction l as [|a l IH]; intros Hf; simpl; [done|].
  rewrite (Hf a s) by left. apply IH. intros a' s' Ha'. apply Hf. by right.
Qed.
End Launch.

(** The lanes of a launch sized for [n] paths include the first [n]. *)
Lemma launch_blocks_cover n :
  0 ≤ n ≤ INT_MAX - blockSize1d → n ≤ blocks1d n * blockSize1d.
Proof.
  intros Hn. unfold blocks1d, blockSize1d, INT_MAX in *.
  rewrite !add32_small by (rewrite ?add32_small; lia).
  replace (n + 128 + -1) with (n + 128 - 1) by lia.
  rewrite Z.quot_div_nonneg by lia.
  pose proof (Z.div_mod (n + 128 - 1) 128 ltac:(lia)).
  pose proof (Z.mod_pos_bound (n + 128 - 1) 128 ltac:(lia)). lia.
Qed.

(** A launch whose lanes beyond [n] do nothing is the run of lanes
    [0 .. n-1]. *)
Lemma launch1d_guarded {S} (body : Z → S → option S) blocks n (s : S) :
  0 ≤ n ≤ blocks * blockSize1d →
  (∀ i s, n ≤ i → body i s = Some s) →
  launch1d blocks blockSize1d body s = loopM body (seqZ 0 n) s.
Proof.
  intros Hn Hidle. unfold launch1d.
  replace (blocks * blockSize1d) with (n + (blocks * blockSize1d - n)) by lia.
  rewrite seqZ_app, loopM_app by lia.
  destruct (loopM body (seqZ 0 n) s) as [s'|]; [|done]. simpl.
  apply loopM_idle. intros i s0 Hi. apply Hidle. apply elem_of_seqZ in Hi. lia.
Qed.

(** * The type tag and the two kernels *)

Section TypeTag.
Context `{Stray} `{Uninit} `{SceneStructs} `{Intersections}.

Lemma wr_same_field {A B} (f : A → B) (stray : Z → A) (l : list A) i x :
  f x = f (rd stray l i) → f <$> wr l i x = f <$> l.
Proof.
  intros Hx. unfold wr. destruct (Z.leb_spec 0 i) as [Hi|]; [|done].
  rewrite list_fmap_insert.
  destruct (decide (Z.to_nat i < length l)%nat) as [Hlt|Hge].
  - destruct (lookup_lt_is_Some_2 l (Z.to_nat i) Hlt) as [y Hy].
    rewrite (rd_lookup stray l i y) in Hx by done.
    apply list_insert_id. by rewrite list_lookup_fmap, Hy, Hx.
  - apply list_insert_ge. rewrite length_fmap. lia.
Qed.

(** One lane of the brute-force kernel leaves every type tag, and every
    record of another lane, as it was. *)
Lemma compute_intersection_frame num_paths paths geoms size tris verts idx ints flags out :
  compute_intersection num_paths paths geoms size tris verts idx (ints, flags) = Some out →
  type <$> out.1 = type <$> ints ∧
  ∀ j, j ≠ idx → rd stray_intersection out.1 j = rd stray_intersection ints j.
Proof.
  unfold compute_intersection. destruct (idx <? num_paths); [|by intros [= <-]].
  destruct (bf_scan geoms size tris verts _) as [s|]; [|done]. simpl.
  destruct (feqb (bf_t_min s) FLT_MAX); intros [= <-]; simpl; [done|].
  split; [by apply (wr_same_field type stray_intersection)|].
  intros j Hj. by apply rd_wr_ne.
Qed.

Lemma compute_intersection_lanes num_paths paths geoms size tris verts lanes : ∀ ints flags out,
  loopM (compute_intersection num_paths paths geoms size tris verts) lanes (ints, flags)
    = Some out →
  type <$> out.1 = type <$> ints.
Proof.
  induction lanes as [|i lanes IH]; intros ints flags out; cbn [loopM]; [by intros [= <-]|].
  destruct (compute_intersection num_paths paths geoms size tris verts i (ints, flags))
    as [[ints1 flags1]|] eqn:Hi; [|done].
  intros Hrest. apply compute_intersection_frame in Hi as [Hi _].
  rewrite (IH _ _ _ Hrest). exact Hi.
Qed.

(** C10.  A brute-force pass over the cleared buffer leaves every type tag
    as the clear left it, so the first [pixelcount] records still carry tag
    0; a lane of the brute-force kernel changes no type tag and no record
    but its own; and a lane of the BVH kernel that reports a hit stores the
    tag of the material of the hit. *)
Theorem brute_force_keeps_type_tag fuel sc blocks n pixelcount d d' :
  trace_bounce false fuel sc blocks n (clear_intersections pixelcount d) = Some d' →
  type <$> dev_intersections1 d' = type <$> dev_intersections1 (clear_intersections pixelcount d) ∧
  Forall (λ rec, type rec = 0) (take (Z.to_nat pixelcount) (dev_intersections1 d')) ∧
  (∀ num_paths paths geoms size tris verts idx ints flags out,
     compute_intersection num_paths paths geoms size tris verts idx (ints, flags) = Some out →
     type <$> out.1 = type <$> ints ∧
     ∀ j, j ≠ idx → rd stray_intersection out.1 j = rd stray_intersection ints j) ∧
  (∀ fuel' num_paths paths mats objs tris verts prims arr size idx ints flags out,
     compute_intersection_bvh_stackless fuel' num_paths paths mats objs tris verts prims
       arr size idx (ints, flags) = Some out →
     idx < num_paths →
     0 ≤ idx < Z.of_nat (length ints) → idx < Z.of_nat (length flags) →
     rd stray_int out.2 idx = 1 →
     type (rd stray_intersection out.1 idx)
     = MaterialType_code
         (mtype (rd stray_material mats (materialId (rd stray_intersection out.1 idx))))).
Proof.
  intros Htrace.
  assert (Htags : type <$> dev_intersections1 d'
                  = type <$> dev_intersections1 (clear_intersections pixelcount d)).
  { unfold trace_bounce in Htrace. cbn [negb] in Htrace.
    destruct (launch1d _ _ _ _) as [[ints' flags']|] eqn:Hl; [|done].
    injection Htrace as <-. cbn [dev_intersections1 fst].
    unfold launch1d in Hl. by apply compute_intersection_lanes in Hl. }
  split; [done|]. split; [|split].
  - apply Forall_forall. intros rec Hrec.
    apply list_elem_of_lookup in Hrec as [k Hk].
    pose proof (lookup_lt_Some _ _ _ Hk) as Hlt. rewrite length_take in Hlt.
    rewrite lookup_take_lt in Hk by lia.
    assert (Ht : (type <$> dev_intersections1 d') !! k = Some (type rec)).
    { by rewrite list_lookup_fmap, Hk. }
    rewrite Htags in Ht. unfold clear_intersections in Ht. cbn [dev_intersections1 set_intersections1] in Ht.
    rewrite fmap_app, fmap_replicate, lookup_app_l in Ht by (rewrite length_replicate; lia).
    apply lookup_replicate in Ht as [Ht _]. done.
  - intros. by eapply compute_intersection_frame.
  - intros fuel' num_paths paths mats objs tris verts prims arr size idx ints flags out.
    unfold compute_intersection_bvh_stackless.
    destruct (Z.leb_spec num_paths idx); [intros _ ?; lia|].
    destruct (bvh_walk _ _ _ _ _ _ _ _ _) as [w|]; [|done]. simpl.
    destruct (intersected w); intros [= <-] _ Hidx Hflags Hone; simpl in *.
    + by rewrite rd_wr_eq.
    + rewrite rd_wr_eq in Hone by lia. done.
Qed.
End TypeTag.

(** * The final gather *)

Section Gather.
Context `{Stray}.
Implicit Types (image : list vec3) (p : PathSegment) (ps : list PathSegment).

Lemma length_gather_add image p : length (gather_add image p) = length image.
Proof.
  unfold gather_add, image_add. destruct (util_math_is_nan _); [done | apply length_wr].
Qed.

Lemma length_gather_fold ps : ∀ image, length (foldl gather_add image ps) = length image.
Proof.
  induction ps as [|p ps IH]; intros image; simpl; [done|].
  by rewrite IH, length_gather_add.
Qed.

Lemma gather_add_other image p q :
  q ≠ pixelIndex p → rd stray_pixel (gather_add image p) q = rd stray_pixel image q.
Proof.
  intros Hq. unfold gather_add, image_add.
  destruct (util_math_is_nan _); [done | by apply rd_wr_ne].
Qed.

Lemma gather_fold_other ps : ∀ image q,
  q ∉ pixelIndex <$> ps →
  rd stray_pixel (foldl gather_add image ps) q = rd stray_pixel image q.
Proof.
  induction ps as [|p ps IH]; intros image q Hq; simpl; [done|].
  rewrite fmap_cons, not_elem_of_cons in Hq. destruct Hq as [Hqp Hq].
  rewrite IH by done. by apply gather_add_other.
Qed.

(** With one path per pixel, the pixel of a gathered path receives the
    path's throughput once, or nothing when the throughput has a NaN. *)
Lemma gather_fold_here ps : ∀ image p,
  NoDup (pixelIndex <$> ps) → p ∈ ps →
  0 ≤ pixelIndex p < Z.of_nat (length image) →
  rd stray_pixel (foldl gather_add image ps) (pixelIndex p)
  = if util_math_is_nan (color p) then rd stray_pixel image (pixelIndex p)
    else vadd (rd stray_pixel image (pixelIndex p)) (color p).
Proof.
  induction ps as [|p0 ps IH]; intros image p Hnd Hp Hrange; [by inversion Hp|].
  rewrite fmap_cons in Hnd. apply NoDup_cons in Hnd as [Hp0 Hnd]. simpl.
  apply elem_of_cons in Hp as [-> | Hp].
  - rewrite gather_fold_other by done. unfold gather_add, image_add.
    destruct (util_math_is_nan (color p0)); [done | by apply rd_wr_eq].
  - assert (Hne : pixelIndex p ≠ pixelIndex p0).
    { intros Heq. apply Hp0. rewrite <- Heq. by apply list_elem_of_fmap_2. }
    rewrite IH by (rewrite ?length_gather_add; done).
    by rewrite !gather_add_other.
Qed.

Lemma finalGather_lane nPaths paths index image :
  finalGather nPaths paths index image
  = if index <? nPaths then gather_add image (rd stray_path paths index) else image.
Proof.
  unfold finalGather, gather_add. destruct (index <? nPaths); [|done].
  by destruct (util_math_is_nan _).
Qed.

Lemma finalGather_fold paths image (k : nat) nPaths :
  (k ≤ length paths)%nat → Z.of_nat k ≤ nPaths →
  foldl (λ img i, finalGather nPaths paths i img) image (seqZ 0 (Z.of_nat k))
  = foldl gather_add image (take k paths).
Proof.
  induction k as [|k IH]; intros Hlen Hn; [done|].
  destruct (lookup_lt_is_Some_2 paths k) as [p Hp]; [lia|].
  rewrite seqZ_snoc, foldl_app, (take_S_r _ _ _ Hp), foldl_app. simpl.
  rewrite IH by lia. rewrite finalGather_lane, (rd_of_nat _ _ _ _ Hp).
  destruct (Z.ltb_spec (Z.of_nat k) nPaths); [done | lia].
Qed.
End Gather.

Section GatherClaim.
Context `{Stray} `{Uninit} `{SceneStructs} `{Intersections} `{Interactions}
        `{Utilities} `{Thrust}.

(** The loop is left only with its guard false. *)
Lemma bounce_loop_exit rounds use_bvh sort_by_material fuel sc iter pixelcount gui : ∀ l0 l,
  bounce_loop rounds use_bvh sort_by_material fuel sc iter pixelcount gui l0 = Some l →
  loop_guard l = false.
Proof.
  induction rounds as [|rounds IH]; intros l0 l; simpl.
  - destruct (loop_guard l0) eqn:Hg; [done|]. by intros [= <-].
  - destruct (loop_guard l0) eqn:Hg; [|by intros [= <-]].
    destruct (bounce_round _ _ _ _ _ _ _ l0) as [[[] l1]|] eqn:Hr; [| |done].
    + intros [= <-]. unfold bounce_round in Hr.
      destruct (trace_bounce _ _ _ _ _ _) as [d1|]; [|done]. simpl in Hr.
      destruct (compact_rays d1 (numRays l0) sort_by_material) as [n2 d2].
      destruct (Z.eqb_spec n2 0) as [-> | _].
      * injection Hr as <-. done.
      * destruct (scatter_bounce _ _ _ _ _) as [d3|]; [|done]. simpl in Hr.
        by destruct (compact_rays d3 n2 false).
    + apply IH.
Qed.

Lemma gather_fold l :
  0 ≤ numRays l ≤ INT_MAX - blockSize1d →
  numRays l ≤ Z.of_nat (length (dev_paths1 (dev l))) →
  gather l = Some (foldl gather_add (dev_image (dev l))
                     (take (Z.to_nat (numRays l)) (dev_paths1 (dev l)))).
Proof.
  intros Hn Hlen. unfold gather.
  destruct (Z.eqb_spec (numRays l) 0) as [-> | Hne]; [done|].
  rewrite (launch1d_guarded _ _ (numRays l)).
  - rewrite loopM_total. f_equal.
    rewrite <- (finalGather_fold _ _ (Z.to_nat (numRays l)) (numRays l)) by lia.
    by rewrite Z2Nat.id by lia.
  - split; [lia | by apply launch_blocks_cover].
  - intros i img Hi. rewrite finalGather_lane.
    destruct (Z.ltb_spec i (numRays l)); [lia | done].
Qed.

(** Whatever the sort setting: when the bounce loop is left with a count
    that the path buffer holds, the gather adds to the image, for each path
    still active and in lane order, the path's throughput at the path's
    pixel unless the throughput has a NaN component; with one path per
    pixel each such pixel holds its old value plus that throughput, and
    every other pixel is left as it was. *)
Lemma gather_of_loop_state rounds use_bvh sort_by_material fuel sc iter pixelcount gui l0 l :
  bounce_loop rounds use_bvh sort_by_material fuel sc iter pixelcount gui l0 = Some l →
  0 ≤ numRays l ≤ INT_MAX - blockSize1d →
  numRays l ≤ Z.of_nat (length (dev_paths1 (dev l))) →
  let active := take (Z.to_nat (numRays l)) (dev_paths1 (dev l)) in
  let image := dev_image (dev l) in
  loop_guard l = false ∧
  gather l = Some (foldl gather_add image active) ∧
  (NoDup (pixelIndex <$> active) →
   (∀ p, p ∈ active → 0 ≤ pixelIndex p < Z.of_nat (length image)) →
   (∀ p, p ∈ active →
      rd stray_pixel (foldl gather_add image active) (pixelIndex p)
      = if util_math_is_nan (color p) then rd stray_pixel image (pixelIndex p)
        else vadd (rd stray_pixel image (pixelIndex p)) (color p)) ∧
   (∀ q, q ∉ pixelIndex <$> active →
      rd stray_pixel (foldl gather_add image active) q = rd stray_pixel image q)).
Proof.
  intros Hloop Hn Hlen active image.
  split; [by eapply bounce_loop_exit|]. split; [by apply gather_fold|].
  intros Hnd Hrange. split.
  - intros p Hp. apply gather_fold_here; auto.
  - intros q Hq. by apply gather_fold_other.
Qed.

(** The image [pathtrace] leaves is the gather of the state the loop was
    left in. *)
Lemma pathtrace_gathers use_bvh sort_by_material rounds fuel sc iter gui d l image :
  pathtrace_with use_bvh sort_by_material rounds fuel sc iter gui d = Some (l, image) →
  loop_guard l = false ∧ gather l = Some image.
Proof.
  unfold pathtrace_with.
  destruct (generate_launch _ _ _ _) as [paths|]; [|done]. simpl.
  destruct (bounce_loop _ _ _ _ _ _ _ _ _) as [l'|] eqn:Hloop; [|done]. simpl.
  destruct (gather l') as [img|] eqn:Hg; [|done]. simpl. intros [= <- <-].
  split; [by eapply bounce_loop_exit | done].
Qed.

(** A lane of the scatter kernel that changes the image writes flag 0, so
    the path it belongs to is dropped by the compaction that follows. *)
Lemma scatter_adds_only_when_ending iter num_paths inters mats idx o :
  so_image (scatter_on_intersection iter num_paths inters mats idx o) ≠ so_image o →
  so_rayValid (scatter_on_intersection iter num_paths inters mats idx o)
  = wr (so_rayValid o) idx 0.
Proof.
  unfold scatter_on_intersection.
  destruct (num_paths <=? idx); [done|].
  destruct (decide _); [done|].
  destruct (util_math_get_TBN _) as [T B].
  by destruct (fltb f_zero _).
Qed.
End GatherClaim.

(** * Path generation *)

Lemma rd_ext {A} (stray : Z → A) (l1 l2 : list A) :
  length l1 = length l2 →
  (∀ i, 0 ≤ i < Z.of_nat (length l1) → rd stray l1 i = rd stray l2 i) →
  l1 = l2.
Proof.
  intros Hlen Hrd. apply list_eq_same_length with (length l1); [done | done |].
  intros k x y Hk Hx Hy.
  pose proof (Hrd (Z.of_nat k) ltac:(lia)) as Hxy.
  by rewrite (rd_of_nat _ _ _ _ Hx), (rd_of_nat _ _ _ _ Hy) in Hxy.
Qed.

Lemma quot8_cover n : 0 < n ≤ INT_MAX → n ≤ blocks2d n * 8.
Proof.
  intros Hn. unfold blocks2d, to_u32, INT_MAX in *.
  rewrite (Z.mod_small (n + 8 - 1)) by lia.
  rewrite Z.quot_div_nonneg by lia.
  pose proof (Z.div_mod (n + 8 - 1) 8 ltac:(lia)).
  pose proof (Z.mod_pos_bound (n + 8 - 1) 8 ltac:(lia)). lia.
Qed.

Section Generation.
Context `{Utilities} `{Thrust}.
Variables (cam : Camera) (iter td : Z) (stray : Z → PathSegment).

Local Abbreviation w := (resolution_x cam).
Local Abbreviation h := (resolution_y cam).
Local Abbreviation seg := (camera_segment cam iter td).
Local Abbreviation cell := (generateRayFromCamera cam iter td).

Hypothesis Hw : 0 < w.
Hypothesis Hh : 0 < h.
Hypothesis Hmax : w * h ≤ INT_MAX.

Lemma length_cell x y b : length (cell x y b) = length b.
Proof.
  unfold generateRayFromCamera. destruct (_ && _); [apply length_wr | done].
Qed.

(** Row [y] after its first [k] lanes. *)
Lemma row_spec (k : nat) y b :
  0 ≤ y → Z.of_nat (length b) = w * h →
  let b' := foldl (λ s x, cell x y s) b (seqZ 0 (Z.of_nat k)) in
  length b' = length b ∧
  ∀ i, rd stray b' i
       = if decide (y < h ∧ y * w ≤ i < y * w + Z.min (Z.of_nat k) w)
         then seg (i - y * w) y else rd stray b i.
Proof.
  intros Hy Hlen. induction k as [|k [IHlen IH]]; simpl.
  - split; [done|]. intros i. case_decide; [lia | done].
  - rewrite seqZ_snoc, foldl_app. simpl.
    set (bk := foldl (λ s x, cell x y s) b (seqZ 0 (Z.of_nat k))) in *.
    split; [by rewrite length_cell|].
    intros i. unfold generateRayFromCamera.
    destruct (Z.ltb_spec (Z.of_nat k) w) as [Hk|Hk];
      destruct (Z.ltb_spec y h) as [Hyh|Hyh]; simpl;
      try (rewrite IH; repeat case_decide; (done || lia)).
    assert (Hrow : y * w + w ≤ w * h) by nia.
    assert (Hbk : Z.of_nat (length bk) = w * h) by lia.
    assert (0 ≤ y * w) by nia.
    rewrite wrap32_id by (unfold INT_MAX in Hmax; lia).
    destruct (decide (i = Z.of_nat k + y * w)) as [-> | Hne].
    + rewrite rd_wr_eq by lia. rewrite decide_True by lia.
      by replace (Z.of_nat k + y * w - y * w) with (Z.of_nat k) by lia.
    + rewrite rd_wr_ne by done. rewrite IH. repeat case_decide; (done || lia).
Qed.

(** The buffer after the first [k] rows of a launch of [cols] columns. *)
Lemma rows_spec (cols k : nat) b :
  w ≤ Z.of_nat cols → Z.of_nat (length b) = w * h →
  let b' := foldl (λ s y, foldl (λ s x, cell x y s) s (seqZ 0 (Z.of_nat cols))) b
              (seqZ 0 (Z.of_nat k)) in
  length b' = length b ∧
  ∀ i, rd stray b' i
       = if decide (0 ≤ i < Z.min (Z.of_nat k) h * w)
         then seg (i mod w) (i / w) else rd stray b i.
Proof.
  intros Hcols Hlen. induction k as [|k [IHlen IH]]; simpl.
  - split; [done|]. intros i. case_decide; [lia | done].
  - rewrite seqZ_snoc, foldl_app. simpl.
    set (bk := foldl _ b (seqZ 0 (Z.of_nat k))) in *.
    destruct (row_spec cols (Z.of_nat k) bk ltac:(lia) ltac:(lia)) as [Hrl Hrow].
    split; [lia|]. intros i. rewrite Hrow, IH.
    replace (Z.min (Z.of_nat cols) w) with w by lia.
    destruct (decide (Z.of_nat k < h ∧ Z.of_nat k * w ≤ i < Z.of_nat k * w + w))
      as [(Hk & Hlo & Hhi) | Hout].
    + rewrite decide_True by nia.
      assert (Hq : i / w = Z.of_nat k).
      { symmetry. apply (Z.div_unique i w (Z.of_nat k) (i - Z.of_nat k * w)); lia. }
      assert (Hm : i mod w = i - Z.of_nat k * w).
      { symmetry. apply (Z.mod_unique i w (Z.of_nat k) (i - Z.of_nat k * w)); lia. }
      by rewrite Hq, Hm.
    + destruct (decide (0 ≤ i < Z.min (Z.of_nat k) h * w)).
      * by rewrite decide_True by nia.
      * by rewrite decide_False by nia.
Qed.

Lemma rd_generated i :
  0 ≤ i < w * h → rd stray (generated cam iter td) i = seg (i mod w) (i / w).
Proof.
  intros Hi. apply rd_lookup; [lia|]. unfold generated.
  rewrite list_lookup_fmap, (lookup_seqZ_lt 0 (w * h) (Z.to_nat i)) by lia.
  simpl. by rewrite Z.add_0_l, Z2Nat.id by lia.
Qed.

(** A full launch overwrites every entry: the outcome does not depend on
    what the buffer held before. *)
Lemma generate_launch_generated p :
  Z.of_nat (length p) = w * h →
  generate_launch cam iter td p = Some (generated cam iter td).
Proof.
  intros Hlen. unfold generate_launch, launch2d.
  rewrite (loopM_ext _ (λ y s1, Some (foldl (λ s x, cell x y s) s1
                                        (seqZ 0 (blocks2d w * 8))))).
  2:{ intros y s1 _. apply loopM_total. }
  rewrite loopM_total. f_equal.
  pose proof (quot8_cover w ltac:(nia)) as Hcx. pose proof (quot8_cover h ltac:(nia)) as Hcy.
  rewrite <- (Z2Nat.id (blocks2d w * 8)) by lia.
  rewrite <- (Z2Nat.id (blocks2d h * 8)) by lia.
  destruct (rows_spec (Z.to_nat (blocks2d w * 8))
              (Z.to_nat (blocks2d h * 8)) p ltac:(lia) Hlen) as [Hl Hrd].
  apply (rd_ext stray).
  - rewrite Hl. unfold generated. rewrite length_fmap, length_seqZ. lia.
  - intros i Hi. rewrite Hl in Hi. rewrite Hrd, rd_generated by lia.
    case_decide; [done | nia].
Qed.
End Generation.

(** * The bounce counters are never read *)

Section ArrayMaps.
Context {A B : Type} (f : A → B).

Lemma rd_fmap (stray : Z → A) (l : list A) i :
  f (rd stray l i) = rd (f ∘ stray) (f <$> l) i.
Proof.
  unfold rd. rewrite length_fmap.
  destruct ((0 <=? i) && (i <? Z.of_nat (length l))) eqn:Hr; [|done].
  apply andb_prop in Hr as [Hlo Hhi]. apply Z.leb_le in Hlo. apply Z.ltb_lt in Hhi.
  destruct (lookup_lt_is_Some_2 l (Z.to_nat i)) as [x Hx]; [lia|].
  rewrite (nth_lookup_Some _ _ _ _ Hx).
  by rewrite (nth_lookup_Some (f <$> l) (Z.to_nat i) _ (f x))
    by (by rewrite list_lookup_fmap, Hx).
Qed.

Lemma rd_same_image (stray : Z → A) (l1 l2 : list A) i :
  f <$> l1 = f <$> l2 → f (rd stray l1 i) = f (rd stray l2 i).
Proof. intros Hl. by rewrite !rd_fmap, Hl. Qed.

Lemma wr_same_image (l1 l2 : list A) i x1 x2 :
  f <$> l1 = f <$> l2 → f x1 = f x2 → f <$> wr l1 i x1 = f <$> wr l2 i x2.
Proof. intros Hl Hx. by rewrite !fmap_wr, Hl, Hx. Qed.

Lemma fmap_take_drop_same (l1 l2 : list A) n :
  f <$> l1 = f <$> l2 → f <$> take n l1 = f <$> take n l2 ∧ f <$> drop n l1 = f <$> drop n l2.
Proof. intros Hl. by rewrite !fmap_take, !fmap_drop, Hl. Qed.
End ArrayMaps.

Section ScatterIfMaps.
Context `{Stray} `{Thrust} {A B : Type} (f : A → B).

Lemma scatter_if_same_image (stray : Z → A) n (in1 in2 : list A) map stencil (out1 out2 : list A) :
  f <$> in1 = f <$> in2 → f <$> out1 = f <$> out2 →
  f <$> scatter_if stray n in1 map stencil out1 = f <$> scatter_if stray n in2 map stencil out2.
Proof.
  intros Hin. unfold scatter_if. generalize (seqZ 0 n). intros lanes. revert out1 out2.
  induction lanes as [|i lanes IH]; intros out1 out2 Hout; simpl; [done|].
  apply IH. destruct (rd stray_int stencil i =? 0); [done|].
  apply wr_same_image; [done|]. by apply rd_same_image.
Qed.
End ScatterIfMaps.

Section Bounces.
Context `{Stray} `{Uninit} `{SceneStructs} `{Intersections} `{Interactions}
        `{Utilities} `{Thrust}.

Lemma both_bind {A B} (R : A → A → Prop) (Q : B → B → Prop)
    (o1 o2 : option A) (k1 k2 : A → option B) :
  both R o1 o2 → (∀ a1 a2, R a1 a2 → both Q (k1 a1) (k2 a2)) →
  both Q (o1 ≫= k1) (o2 ≫= k2).
Proof. destruct o1, o2; simpl; try done. intros HR Hk. by apply Hk. Qed.

Lemma both_refl {A} (R : A → A → Prop) (o : option A) : (∀ a, R a a) → both R o o.
Proof. destruct o; simpl; auto. Qed.

Lemma forget_ray (p1 p2 : PathSegment) :
  forget_bounces p1 = forget_bounces p2 →
  ray p1 = ray p2 ∧ color p1 = color p2 ∧ pixelIndex p1 = pixelIndex p2.
Proof. by intros [= -> -> ->]. Qed.

(** The intersection kernels look at the ray of the path only. *)
Lemma compute_intersection_same n paths1 paths2 geoms size tris verts idx out :
  forget_bounces <$> paths1 = forget_bounces <$> paths2 →
  compute_intersection n paths1 geoms size tris verts idx out
  = compute_intersection n paths2 geoms size tris verts idx out.
Proof.
  intros Hp. unfold compute_intersection. destruct out as [ints flags].
  destruct (idx <? n); [|done].
  by destruct (forget_ray _ _ (rd_same_image forget_bounces stray_path _ _ idx Hp)) as [-> _].
Qed.

Lemma compute_intersection_bvh_same fuel n paths1 paths2 mats objs tris verts prims arr size
    idx out :
  forget_bounces <$> paths1 = forget_bounces <$> paths2 →
  compute_intersection_bvh_stackless fuel n paths1 mats objs tris verts prims arr size idx out
  = compute_intersection_bvh_stackless fuel n paths2 mats objs tris verts prims arr size idx out.
Proof.
  intros Hp. unfold compute_intersection_bvh_stackless. destruct out as [ints flags].
  destruct (n <=? idx); [done|].
  by destruct (forget_ray _ _ (rd_same_image forget_bounces stray_path _ _ idx Hp)) as [-> _].
Qed.

Lemma clear_intersections_same pixelcount d1 d2 :
  same_but_bounces d1 d2 →
  same_but_bounces (clear_intersections pixelcount d1) (clear_intersections pixelcount d2).
Proof.
  intros (Hi & Hp1 & Hp2 & Hs1 & Hs2 & Hv & Hx).
  unfold clear_intersections, set_intersections1, same_but_bounces. simpl.
  by rewrite Hs1.
Qed.

Lemma trace_bounce_same use_bvh fuel sc blocks n d1 d2 :
  same_but_bounces d1 d2 →
  both same_but_bounces (trace_bounce use_bvh fuel sc blocks n d1)
                        (trace_bounce use_bvh fuel sc blocks n d2).
Proof.
  intros (Hi & Hp1 & Hp2 & Hs1 & Hs2 & Hv & Hx). unfold trace_bounce.
  rewrite Hs1, Hv.
  apply (both_bind eq); [|intros out ? <-; simpl; by rewrite Hi, Hs2, Hx].
  unfold launch1d. erewrite loopM_ext; [by apply both_refl|].
  intros idx out _. destruct use_bvh.
  - by apply compute_intersection_bvh_same.
  - by apply compute_intersection_same.
Qed.

Lemma compact_rays_same n d1 d2 :
  same_but_bounces d1 d2 →
  (compact_rays d1 n false).1 = (compact_rays d2 n false).1 ∧
  same_but_bounces (compact_rays d1 n false).2 (compact_rays d2 n false).2.
Proof.
  intros (Hi & Hp1 & Hp2 & Hs1 & Hs2 & Hv & Hx).
  unfold compact_rays, same_but_bounces. simpl. rewrite Hi, Hs1, Hs2, Hv, Hx.
  repeat split; try done.
  by apply scatter_if_same_image.
Qed.

(** A scatter lane reads the ray, the throughput and the pixel of its
    path, and keeps the bounce counter it finds. *)
Lemma scatter_on_intersection_same iter n inters mats idx o1 o2 :
  same_out_but_bounces o1 o2 →
  same_out_but_bounces (scatter_on_intersection iter n inters mats idx o1)
                       (scatter_on_intersection iter n inters mats idx o2).
Proof.
  intros (Hp & Hv & Hi). unfold scatter_on_intersection.
  destruct (n <=? idx); [done|].
  destruct (forget_ray _ _ (rd_same_image forget_bounces stray_path _ _ idx Hp))
    as (Hr & Hc & Hx).
  rewrite Hr, Hc, Hx, Hv, Hi.
  destruct (decide _).
  - split; [|done]. simpl. apply wr_same_image; [done|].
    unfold forget_bounces, set_color. simpl. by rewrite Hr, Hx.
  - destruct (util_math_get_TBN _) as [T B].
    destruct (fltb f_zero _); (split; [|done]); [|done].
    simpl. apply wr_same_image; [done|]. unfold forget_bounces, set_ray, set_color. simpl.
    by rewrite Hx.
Qed.

Lemma scatter_bounce_same sc iter blocks n d1 d2 :
  same_but_bounces d1 d2 →
  both same_but_bounces (scatter_bounce sc iter blocks n d1) (scatter_bounce sc iter blocks n d2).
Proof.
  intros (Hi & Hp1 & Hp2 & Hs1 & Hs2 & Hv & Hx). unfold scatter_bounce, launch1d.
  rewrite !loopM_total. simpl. rewrite Hs1, Hs2, Hx.
  generalize (seqZ 0 (blocks * blockSize1d)). intros lanes.
  assert (Ho : same_out_but_bounces
                 {| so_paths := dev_paths1 d1; so_rayValid := rayValid d1; so_image := dev_image d1 |}
                 {| so_paths := dev_paths1 d2; so_rayValid := rayValid d2; so_image := dev_image d2 |})
    by done.
  revert Ho. generalize (mkScatterOut (dev_paths1 d1) (rayValid d1) (dev_image d1)).
  generalize (mkScatterOut (dev_paths1 d2) (rayValid d2) (dev_image d2)).
  induction lanes as [|i lanes IH]; intros o2 o1 Ho; simpl.
  - destruct Ho as (? & ? & ?). by repeat split.
  - apply IH. by apply scatter_on_intersection_same.
Qed.
End Bounces.

Section BounceLoop.
Context `{Stray} `{Uninit} `{SceneStructs} `{Intersections} `{Interactions}
        `{Utilities} `{Thrust}.

Lemma bounce_round_same use_bvh fuel sc iter pixelcount gui l1 l2 :
  same_loop_but_bounces l1 l2 →
  both (λ r1 r2, r1.1 = r2.1 ∧ same_loop_but_bounces r1.2 r2.2)
       (bounce_round use_bvh false fuel sc iter pixelcount gui l1)
       (bounce_round use_bvh false fuel sc iter pixelcount gui l2).
Proof.
  intros (Hd & Hn & Ht & Hdev). unfold bounce_round. rewrite Hd, Hn, Ht.
  apply (both_bind same_but_bounces).
  { apply trace_bounce_same. by apply clear_intersections_same. }
  intros d1 d2 Hd12.
  destruct (compact_rays_same (numRays l2) d1 d2 Hd12) as [Hc Hc'].
  destruct (compact_rays d1 (numRays l2) false) as [n1 e1],
           (compact_rays d2 (numRays l2) false) as [n2 e2]. simpl in Hc, Hc'. subst n2.
  destruct (n1 =? 0); [simpl; unfold same_loop_but_bounces; simpl; auto 10|].
  apply (both_bind same_but_bounces); [by apply scatter_bounce_same|].
  intros f1 f2 Hf.
  destruct (compact_rays_same n1 f1 f2 Hf) as [Hg Hg'].
  destruct (compact_rays f1 n1 false) as [m1 g1], (compact_rays f2 n1 false) as [m2 g2].
  simpl in Hg, Hg'. subst m2. simpl; unfold same_loop_but_bounces; simpl; auto 10.
Qed.

Lemma bounce_loop_same rounds use_bvh fuel sc iter pixelcount gui : ∀ l1 l2,
  same_loop_but_bounces l1 l2 →
  both same_loop_but_bounces
       (bounce_loop rounds use_bvh false fuel sc iter pixelcount gui l1)
       (bounce_loop rounds use_bvh false fuel sc iter pixelcount gui l2).
Proof.
  induction rounds as [|rounds IH]; intros l1 l2 Hl;
    pose proof Hl as (Hd & Hn & _); simpl; unfold loop_guard; rewrite Hd, Hn.
  - by destruct (negb (numRays l2 =? 0) && (depth l2 <? MAX_ITER)).
  - destruct (negb (numRays l2 =? 0) && (depth l2 <? MAX_ITER)); [|done].
    pose proof (bounce_round_same use_bvh fuel sc iter pixelcount gui l1 l2 Hl) as Hr.
    destruct (bounce_round _ _ _ _ _ _ _ l1) as [[b1 r1]|],
             (bounce_round _ _ _ _ _ _ _ l2) as [[b2 r2]|]; simpl in Hr; try done.
    destruct Hr as [-> Hr]. destruct b2; [done | by apply IH].
Qed.

Lemma generate_launch_same cam iter td1 td2 p1 p2 :
  forget_bounces <$> p1 = forget_bounces <$> p2 →
  both (λ q1 q2, forget_bounces <$> q1 = forget_bounces <$> q2)
       (generate_launch cam iter td1 p1) (generate_launch cam iter td2 p2).
Proof.
  unfold generate_launch, launch2d.
  generalize (seqZ 0 (blocks2d (resolution_x cam) * 8)). intros xs.
  generalize (seqZ 0 (blocks2d (resolution_y cam) * 8)). intros ys.
  revert p1 p2. induction ys as [|y ys IH]; intros p1 p2 Hp; simpl; [done|].
  rewrite !loopM_total. apply IH. clear IH.
  revert p1 p2 Hp. induction xs as [|x xs IHx]; intros p1 p2 Hp; simpl; [done|].
  apply IHx. unfold generateRayFromCamera.
  destruct (_ && _); [|done]. by apply wr_same_image.
Qed.

Lemma gather_same l1 l2 :
  same_loop_but_bounces l1 l2 → gather l1 = gather l2.
Proof.
  intros (_ & Hn & _ & Hi & Hp & _). unfold gather, launch1d. rewrite Hn, Hi.
  destruct (numRays l2 =? 0); [done|].
  rewrite !loopM_total. f_equal.
  generalize (dev_image (dev l2)).
  generalize (seqZ 0 (blocks1d (numRays l2) * blockSize1d)).
  intros lanes. induction lanes as [|i lanes IH]; intros image; simpl; [done|].
  rewrite IH. f_equal. unfold finalGather.
  destruct (i <? numRays l2); [|done].
  by destruct (forget_ray _ _ (rd_same_image forget_bounces stray_path _ _ i Hp))
    as (_ & -> & ->).
Qed.

Lemma bounce_loop_traceDepth rounds use_bvh sm fuel sc td iter pixelcount gui : ∀ l,
  bounce_loop rounds use_bvh sm fuel (with_traceDepth sc td) iter pixelcount gui l
  = bounce_loop rounds use_bvh sm fuel sc iter pixelcount gui l.
Proof.
  induction rounds as [|rounds IH]; intros l; simpl; [done|].
  destruct (loop_guard l); [|done].
  change (bounce_round use_bvh sm fuel (with_traceDepth sc td) iter pixelcount gui l)
    with (bounce_round use_bvh sm fuel sc iter pixelcount gui l).
  destruct (bounce_round _ _ _ _ _ _ _ l) as [[[] l']|]; auto.
Qed.

(** The trace depth of the scene, which only initialises the bounce
    counters, changes nothing else of an iteration. *)
Lemma pathtrace_same use_bvh rounds fuel sc iter gui d td :
  both (λ r1 r2, same_loop_but_bounces r1.1 r2.1 ∧ r1.2 = r2.2)
       (pathtrace_with use_bvh false rounds fuel sc iter gui d)
       (pathtrace_with use_bvh false rounds fuel (with_traceDepth sc td) iter gui d).
Proof.
  unfold pathtrace_with. simpl.
  apply (both_bind (λ q1 q2, forget_bounces <$> q1 = forget_bounces <$> q2)).
  { by apply generate_launch_same. }
  intros q1 q2 Hq.
  apply (both_bind same_loop_but_bounces).
  { rewrite bounce_loop_traceDepth. apply bounce_loop_same. repeat split; simpl; auto. }
  intros l1 l2 Hl. rewrite (gather_same l1 l2 Hl).
  destruct (gather l2); simpl; auto.
Qed.

Lemma loop_guard_spec l :
  loop_guard l = true ↔ numRays l ≠ 0 ∧ depth l < MAX_ITER.
Proof.
  unfold loop_guard. rewrite andb_true_iff, negb_true_iff, Z.eqb_neq, Z.ltb_lt. tauto.
Qed.

Lemma bounce_round_depth use_bvh sm fuel sc iter pixelcount gui l b l' :
  bounce_round use_bvh sm fuel sc iter pixelcount gui l = Some (b, l') →
  depth l' = add32 (depth l) 1.
Proof.
  unfold bounce_round.
  destruct (trace_bounce _ _ _ _ _ _) as [d1|]; [|done]. simpl.
  destruct (compact_rays d1 (numRays l) sm) as [n2 d2].
  destruct (n2 =? 0); [by intros [= <- <-]|].
  destruct (scatter_bounce _ _ _ _ _) as [d3|]; [|done]. simpl.
  destruct (compact_rays d3 n2 false). by intros [= <- <-].
Qed.

(** The depth cap bounds the loop: rounds allowed beyond
    [MAX_ITER - depth] are never used. *)
Lemma bounce_loop_capped use_bvh sm fuel sc iter pixelcount gui (k : nat) : ∀ (rounds : nat) l,
  0 ≤ depth l → (Z.to_nat (MAX_ITER - depth l) ≤ rounds)%nat →
  bounce_loop (rounds + k) use_bvh sm fuel sc iter pixelcount gui l
  = bounce_loop rounds use_bvh sm fuel sc iter pixelcount gui l.
Proof.
  induction rounds as [|rounds IH]; intros l Hd Hr.
  - assert (Hg : loop_guard l = false).
    { apply not_true_iff_false. rewrite loop_guard_spec. unfold MAX_ITER in *. lia. }
    destruct k; simpl; by rewrite Hg.
  - simpl. destruct (loop_guard l) eqn:Hg; [|done].
    apply loop_guard_spec in Hg as [_ Hlt].
    destruct (bounce_round _ _ _ _ _ _ _ l) as [[[] l']|] eqn:Hround; try done.
    apply bounce_round_depth in Hround.
    rewrite add32_small in Hround by (unfold MAX_ITER in Hlt; lia).
    apply IH; unfold MAX_ITER in *; lia.
Qed.
End BounceLoop.


(** * Counts and buffer sizes along the bounce loop *)

Section LaunchFlags.
Context {S : Type} (fl : S → list Z) (body : Z → S → option S) (n : Z).

Hypothesis Hlane : ∀ i s s', body i s = Some s' →
  if i <? n then ∃ b, (b = 0 ∨ b = 1) ∧ fl s' = wr (fl s) i b else fl s' = fl s.

Lemma lanes_flags (k : nat) s : ∀ s',
  loopM body (seqZ 0 (Z.of_nat k)) s = Some s' →
  length (fl s') = length (fl s) ∧
  ∀ j : nat, Z.of_nat j < Z.min (Z.of_nat k) n → (j < length (fl s))%nat →
    ∃ b, (b = 0 ∨ b = 1) ∧ fl s' !! j = Some b.
Proof.
  induction k as [|k IH]; intros s'.
  - simpl. intros [= <-]. split; [done|]. intros; lia.
  - rewrite seqZ_snoc, loopM_app.
    destruct (loopM body (seqZ 0 (Z.of_nat k)) s) as [s1|]; [|done]. simpl.
    destruct (body (Z.of_nat k) s1) as [s2|] eqn:Hk; [|done]. intros [= <-].
    destruct (IH s1 eq_refl) as [Hlen Hj].
    apply Hlane in Hk. destruct (Z.ltb_spec (Z.of_nat k) n) as [Hkn|Hkn].
    + destruct Hk as (b & Hb & ->). split; [by rewrite length_wr|].
      intros j Hjk Hjl. rewrite wr_of_nat.
      destruct (decide (j = k)) as [-> | Hne].
      * exists b. split; [done|]. apply list_lookup_insert_eq. lia.
      * rewrite list_lookup_insert_ne by done. apply Hj; lia.
    + rewrite Hk. split; [done|]. intros j Hjk Hjl. apply Hj; lia.
Qed.

(** After a launch that covers the first [n] lanes, the first [n] flags are
    0 or 1. *)
Lemma launch_flags01 m s s' :
  0 ≤ n ≤ m → n ≤ Z.of_nat (length (fl s)) →
  loopM body (seqZ 0 m) s = Some s' →
  length (fl s') = length (fl s) ∧ flags01 n (fl s').
Proof.
  intros Hm Hlen Hrun. rewrite <- (Z2Nat.id m) in Hrun by lia.
  destruct (lanes_flags _ _ _ Hrun) as [Hl Hj]. split; [done|].
  unfold flags01. apply Forall_lookup. intros j f Hf.
  pose proof (lookup_lt_Some _ _ _ Hf) as Hlt. rewrite length_take in Hlt.
  rewrite lookup_take_lt in Hf by lia.
  destruct (Hj j) as (b & Hb & Hjb); [lia | lia |]. congruence.
Qed.
End LaunchFlags.

Lemma loopM_keeps {A S B} (f : S → B) (body : A → S → option S) (l : list A) : ∀ s s',
  (∀ a s s', body a s = Some s' → f s' = f s) →
  loopM body l s = Some s' → f s' = f s.
Proof.
  induction l as [|a l IH]; intros s s' Hbody; simpl; [by intros [= <-]|].
  destruct (body a s) as [s1|] eqn:Ha; [|done]. intros Hrest.
  rewrite (IH _ _ Hbody Hrest). by eapply Hbody.
Qed.

Lemma survivors_sublist {A} (fs : list Z) : ∀ xs : list A,
  survivors fs xs `sublist_of` take (length fs) xs.
Proof.
  induction fs as [|f fs IH]; intros [|x xs]; simpl; try apply sublist_nil_l.
  destruct (f =? 0); [apply sublist_cons | apply sublist_skip]; apply IH.
Qed.

Lemma elem_of_survivors {A} (fs : list Z) : ∀ (xs : list A) x,
  x ∈ survivors fs xs → ∃ (i : nat) f, fs !! i = Some f ∧ f ≠ 0 ∧ xs !! i = Some x.
Proof.
  induction fs as [|f fs IH]; intros [|y xs] x; simpl; try (by intros ?%elem_of_nil).
  destruct (Z.eqb_spec f 0) as [-> | Hf].
  - intros (i & g & ? & ? & ?)%IH. by exists (S i), g.
  - intros [-> | (i & g & ? & ? & ?)%IH]%elem_of_cons.
    + by exists 0%nat, f.
    + by exists (S i), g.
Qed.

Section Sized.
Context `{Stray} `{Uninit} `{SceneStructs} `{Intersections} `{Interactions}
        `{Utilities} `{Thrust}.

Lemma compute_intersection_flag num_paths paths geoms size tris verts i s s' :
  compute_intersection num_paths paths geoms size tris verts i s = Some s' →
  length s'.1 = length s.1 ∧
  if i <? num_paths then ∃ b, (b = 0 ∨ b = 1) ∧ s'.2 = wr s.2 i b else s'.2 = s.2.
Proof.
  destruct s as [ints flags]. unfold compute_intersection.
  destruct (i <? num_paths); [|by intros [= <-]].
  destruct (bf_scan geoms size tris verts _) as [st|]; [|done]. simpl.
  destruct (feqb (bf_t_min st) FLT_MAX); intros [= <-]; simpl.
  - split; [done|]. exists 0. auto.
  - split; [apply length_wr|]. exists 1. auto.
Qed.

Lemma compute_intersection_bvh_flag fuel num_paths paths mats objs tris verts prims arr size
    i s s' :
  compute_intersection_bvh_stackless fuel num_paths paths mats objs tris verts prims arr size
    i s = Some s' →
  length s'.1 = length s.1 ∧
  if i <? num_paths then ∃ b, (b = 0 ∨ b = 1) ∧ s'.2 = wr s.2 i b else s'.2 = s.2.
Proof.
  destruct s as [ints flags]. unfold compute_intersection_bvh_stackless.
  destruct (Z.leb_spec num_paths i), (Z.ltb_spec i num_paths); try lia;
    [by intros [= <-]|].
  destruct (bvh_walk _ _ _ _ _ _ _ _ _) as [w|]; [|done]. simpl.
  destruct (intersected w); intros [= <-]; simpl.
  - split; [apply length_wr|]. exists 1. auto.
  - split; [done|]. exists 0. auto.
Qed.

(** The intersection launch touches the records and the flags only, keeps
    their sizes, and leaves the first [n] flags 0 or 1. *)
Lemma trace_bounce_sized use_bvh fuel sc blocks n d d' :
  0 ≤ n ≤ blocks * blockSize1d → n ≤ Z.of_nat (length (rayValid d)) →
  trace_bounce use_bvh fuel sc blocks n d = Some d' →
  dev_image d' = dev_image d ∧ dev_paths1 d' = dev_paths1 d ∧
  dev_paths2 d' = dev_paths2 d ∧ dev_intersections2 d' = dev_intersections2 d ∧
  rayIndex d' = rayIndex d ∧
  length (dev_intersections1 d') = length (dev_intersections1 d) ∧
  length (rayValid d') = length (rayValid d) ∧
  flags01 n (rayValid d').
Proof.
  intros Hn Hlen. unfold trace_bounce, launch1d.
  destruct (loopM _ _ _) as [out|] eqn:Hrun; [|done]. simpl. intros [= <-]. simpl.
  do 5 (split; [done|]).
  destruct use_bvh.
  - split.
    + apply (loopM_keeps (λ s, length s.1)) in Hrun; [done|].
      intros a s s' Ha. by apply compute_intersection_bvh_flag in Ha as [-> _].
    + apply (launch_flags01 snd _ n) in Hrun; [done | | done | done].
      intros i s s' Hi. by apply compute_intersection_bvh_flag in Hi as [_ ?].
  - split.
    + apply (loopM_keeps (λ s, length s.1)) in Hrun; [done|].
      intros a s s' Ha. by apply compute_intersection_flag in Ha as [-> _].
    + apply (launch_flags01 snd _ n) in Hrun; [done | | done | done].
      intros i s s' Hi. by apply compute_intersection_flag in Hi as [_ ?].
Qed.

Lemma scatter_lane_sized iter n inters mats i o :
  let o' := scatter_on_intersection iter n inters mats i o in
  pixelIndex <$> so_paths o' = pixelIndex <$> so_paths o ∧
  length (so_image o') = length (so_image o) ∧
  if i <? n then ∃ b, (b = 0 ∨ b = 1) ∧ so_rayValid o' = wr (so_rayValid o) i b
  else so_rayValid o' = so_rayValid o.
Proof.
  unfold scatter_on_intersection.
  destruct (Z.leb_spec n i), (Z.ltb_spec i n); try lia; [done|].
  destruct (decide _).
  - cbn [so_paths so_rayValid so_image]. split; [|split].
    + by apply (wr_same_field pixelIndex stray_path).
    + destruct (negb _); [apply length_wr | done].
    + exists 0. auto.
  - destruct (util_math_get_TBN _) as [T B].
    destruct (fltb f_zero _); cbn [so_paths so_rayValid so_image].
    + split; [by apply (wr_same_field pixelIndex stray_path)|]. split; [done|].
      exists 1. auto.
    + split; [done|]. split; [done|]. exists 0. auto.
Qed.

(** A lane of the scatter kernel changes the image at the pixel of its own
    path only, and not at all when it writes flag 1. *)
Lemma scatter_lane_image iter n inters mats i o :
  i < n →
  let o' := scatter_on_intersection iter n inters mats i o in
  ∃ b, so_rayValid o' = wr (so_rayValid o) i b ∧
       (b = 1 → so_image o' = so_image o) ∧
       ∀ q, q ≠ pixelIndex (rd stray_path (so_paths o) i) →
            rd stray_pixel (so_image o') q = rd stray_pixel (so_image o) q.
Proof.
  intros Hi. unfold scatter_on_intersection.
  destruct (Z.leb_spec n i); [lia|].
  destruct (decide _).
  - cbn [so_paths so_rayValid so_image]. exists 0. split; [done|]. split; [done|].
    intros q Hq. destruct (negb _); [|done]. unfold image_add. by apply rd_wr_ne.
  - destruct (util_math_get_TBN _) as [T B].
    destruct (fltb f_zero _); cbn [so_paths so_rayValid so_image].
    + by exists 1.
    + by exists 0.
Qed.

(** After the first [k] lanes of a scatter launch, the image is unchanged
    at every pixel whose lanes so far all carry flag 1. *)
Lemma scatter_lanes_image iter n inters mats o (k : nat) :
  n ≤ Z.of_nat (length (so_rayValid o)) → n ≤ Z.of_nat (length (so_paths o)) →
  let o' := foldl (λ o i, scatter_on_intersection iter n inters mats i o) o
              (seqZ 0 (Z.of_nat k)) in
  pixelIndex <$> so_paths o' = pixelIndex <$> so_paths o ∧
  length (so_rayValid o') = length (so_rayValid o) ∧
  ∀ q, (∀ j : nat, Z.of_nat j < Z.min (Z.of_nat k) n →
          (pixelIndex <$> so_paths o) !! j = Some q → so_rayValid o' !! j = Some 1) →
       rd stray_pixel (so_image o') q = rd stray_pixel (so_image o) q.
Proof.
  intros Hlv Hlp. induction k as [|k (Hpix & Hlen & Himg)].
  - simpl. done.
  - rewrite seqZ_snoc, foldl_app. cbn [foldl].
    set (ok := foldl _ o (seqZ 0 (Z.of_nat k))) in *.
    destruct (scatter_lane_sized iter n inters mats (Z.of_nat k) ok) as (Lpix & _ & Lfl).
    destruct (Z.ltb_spec (Z.of_nat k) n) as [Hkn|Hkn].
    + destruct (scatter_lane_image iter n inters mats (Z.of_nat k) ok Hkn)
        as (b & Hb & Hone & Hother).
      split; [by rewrite Lpix|]. split; [by rewrite Hb, length_wr|].
      intros q Hq. rewrite Hb, wr_of_nat in Hq.
      assert (IHq : rd stray_pixel (so_image ok) q = rd stray_pixel (so_image o) q).
      { apply Himg. intros j Hj Hpj. specialize (Hq j ltac:(lia) Hpj).
        rewrite list_lookup_insert_ne in Hq by lia. done. }
      destruct (lookup_lt_is_Some_2 (so_paths ok) k) as [pk Hpk].
      { apply (f_equal length) in Hpix. rewrite !length_fmap in Hpix. lia. }
      rewrite (rd_of_nat _ _ _ _ Hpk) in Hother.
      destruct (decide (q = pixelIndex pk)) as [-> | Hne].
      * assert (Hk : (pixelIndex <$> so_paths o) !! k = Some (pixelIndex pk)).
        { by rewrite <- Hpix, list_lookup_fmap, Hpk. }
        specialize (Hq k ltac:(lia) Hk).
        rewrite list_lookup_insert_eq in Hq by lia. injection Hq as ->.
        by rewrite Hone.
      * by rewrite Hother.
    + assert (Hid : scatter_on_intersection iter n inters mats (Z.of_nat k) ok = ok).
      { unfold scatter_on_intersection. destruct (Z.leb_spec n (Z.of_nat k)); [done | lia]. }
      rewrite Hid. split; [done|]. split; [done|].
      intros q Hq. apply Himg. intros j Hj. apply Hq. lia.
Qed.

(** The scatter launch keeps every size and the pixel of every path, and
    leaves the first [n] flags 0 or 1. *)
Lemma scatter_bounce_sized sc iter blocks n d d' :
  0 ≤ n ≤ blocks * blockSize1d → n ≤ Z.of_nat (length (rayValid d)) →
  scatter_bounce sc iter blocks n d = Some d' →
  dev_paths2 d' = dev_paths2 d ∧ dev_intersections1 d' = dev_intersections1 d ∧
  dev_intersections2 d' = dev_intersections2 d ∧ rayIndex d' = rayIndex d ∧
  pixelIndex <$> dev_paths1 d' = pixelIndex <$> dev_paths1 d ∧
  length (dev_image d') = length (dev_image d) ∧
  length (rayValid d') = length (rayValid d) ∧
  flags01 n (rayValid d').
Proof.
  intros Hn Hlen. unfold scatter_bounce, launch1d.
  destruct (loopM _ _ _) as [o|] eqn:Hrun; [|done]. simpl. intros [= <-]. simpl.
  do 4 (split; [done|]).
  split.
  { apply (loopM_keeps (λ o, pixelIndex <$> so_paths o)) in Hrun; [done|].
    intros a s s' [= <-]. apply scatter_lane_sized. }
  split.
  { apply (loopM_keeps (λ o, length (so_image o))) in Hrun; [done|].
    intros a s s' [= <-]. apply scatter_lane_sized. }
  apply (launch_flags01 so_rayValid _ n) in Hrun; [done | | done | done].
  intros i s s' [= <-]. apply scatter_lane_sized.
Qed.

(** The scatter launch leaves the image as it was at the pixel of every
    path that is to continue. *)
Lemma scatter_bounce_image sc iter blocks n d d' (i : nat) p :
  0 ≤ n ≤ blocks * blockSize1d →
  n ≤ Z.of_nat (length (rayValid d)) → n ≤ Z.of_nat (length (dev_paths1 d)) →
  NoDup (pixelIndex <$> take (Z.to_nat n) (dev_paths1 d)) →
  scatter_bounce sc iter blocks n d = Some d' →
  Z.of_nat i < n → rayValid d' !! i = Some 1 → dev_paths1 d' !! i = Some p →
  rd stray_pixel (dev_image d') (pixelIndex p) = rd stray_pixel (dev_image d) (pixelIndex p).
Proof.
  intros Hn Hlv Hlp Hnd. unfold scatter_bounce, launch1d.
  rewrite loopM_total. cbn [mbind option_bind]. intros [= <-] Hi Hflag Hp.
  cbn [rayValid dev_paths1 dev_image] in *.
  rewrite <- (Z2Nat.id (blocks * blockSize1d)) in Hflag, Hp |- * by lia.
  set (o := {| so_paths := dev_paths1 d; so_rayValid := rayValid d;
               so_image := dev_image d |}) in *.
  destruct (scatter_lanes_image iter n (dev_intersections1 d) (materials sc) o
              (Z.to_nat (blocks * blockSize1d)) Hlv Hlp) as (Hpix & _ & Himg).
  apply Himg. intros j Hj Hpj.
  assert (Hpi : (pixelIndex <$> so_paths o) !! i = Some (pixelIndex p)).
  { by rewrite <- Hpix, list_lookup_fmap, Hp. }
  assert (j = i) as ->; [|done].
  rewrite fmap_take in Hnd.
  apply (NoDup_lookup _ j i (pixelIndex p) Hnd); rewrite lookup_take_lt by lia; done.
Qed.

(** A compaction without sort of [n >= 1] paths with 0/1 flags: the new
    count lies between 0 and [n], the buffers keep their sizes, and the new
    active paths are the survivors. *)
Lemma compact_rays_sized pc d n :
  1 ≤ n ≤ pc → pc ≤ INT_MAX → allocated pc d →
  Z.of_nat (length (rayValid d)) = pc → Z.of_nat (length (rayIndex d)) = pc →
  flags01 n (rayValid d) →
  let r := compact_rays d n false in
  0 ≤ r.1 ≤ n ∧ allocated pc r.2 ∧
  Z.of_nat (length (rayValid r.2)) = pc ∧ Z.of_nat (length (rayIndex r.2)) = pc ∧
  dev_image r.2 = dev_image d ∧
  take (Z.to_nat r.1) (dev_paths1 r.2)
  = survivors (take (Z.to_nat n) (rayValid d)) (dev_paths1 d).
Proof.
  intros Hn Hpc [] Hv Hi H01 r.
  assert (Hc : compactable d n) by (constructor; (done || lia)).
  pose proof (compact_count d n false Hc) as Hcount. fold r in Hcount.
  destruct (compact_rays_survivors d n Hc) as [Hp Hs]. fold r in Hp, Hs.
  destruct (compact_flags_take d n Hc) as [Hf Hfl].
  pose proof (zsum_bounds _ Hf) as Hb. rewrite Hfl in Hb.
  pose proof (length_survivors _ (dev_paths1 d) Hf ltac:(lia)) as Hlp.
  pose proof (length_survivors _ (dev_intersections1 d) Hf ltac:(lia)) as Hls.
  split; [lia|]. split; [|split; [|split; [|split]]].
  - constructor; try done.
    + rewrite Hp, length_app, length_drop. lia.
    + rewrite Hs, length_app, length_drop. lia.
  - done.
  - unfold r. rewrite compact_rayIndex, length_exclusive_scan; lia.
  - done.
  - rewrite Hp. apply take_app_length'. lia.
Qed.

(** A round of the loop, in a build without material sort, keeps the
    counts and sizes in range, and adds nothing to the image at the pixels
    of the paths it leaves active. *)
Lemma bounce_round_sized use_bvh fuel sc iter pc gui image0 l b l' :
  loop_sized pc l → untouched image0 l → loop_guard l = true →
  bounce_round use_bvh false fuel sc iter pc gui l = Some (b, l') →
  loop_sized pc l' ∧ untouched image0 l'.
Proof.
  intros [Hcnt Hmax' Hal Hv Hi Hpx] Hun Hg. apply loop_guard_spec in Hg as [Hne _].
  assert (Hmax : pc ≤ INT_MAX) by (unfold blockSize1d in Hmax'; lia).
  unfold bounce_round.
  set (d0 := clear_intersections pc (dev l)).
  set (blocks := blocks1d (numRays l)).
  pose proof (launch_blocks_cover (numRays l) ltac:(lia)) as Hcover. fold blocks in Hcover.
  destruct Hal as [Ha1 Ha2 Ha3 Ha4 Ha5].
  assert (Hal0 : allocated pc d0).
  { constructor; try done. unfold d0, clear_intersections. simpl.
    rewrite length_app, length_replicate, length_drop. lia. }
  destruct (trace_bounce use_bvh fuel sc blocks (numRays l) d0) as [d1|] eqn:Ht; [|done].
  cbn [mbind option_bind].
  apply trace_bounce_sized in Ht as (Ti & Tp1 & Tp2 & Ti2 & Tx & Tl1 & Tlv & T01);
    [|lia|simpl; lia].
  destruct Hal0 as [Hb1 Hb2 Hb3 Hb4 Hb5].
  assert (Hal1 : allocated pc d1).
  { constructor; congruence. }
  assert (Hv1 : Z.of_nat (length (rayValid d1)) = pc).
  { rewrite Tlv. exact Hv. }
  assert (Hi1 : Z.of_nat (length (rayIndex d1)) = pc).
  { rewrite Tx. exact Hi. }
  pose proof (compact_rays_sized pc d1 (numRays l) ltac:(lia) Hmax Hal1 Hv1 Hi1 T01) as Hc1.
  destruct (compact_rays d1 (numRays l) false) as [n2 d2]. simpl in Hc1. cbv beta iota.
  destruct Hc1 as (Hn2 & Hal2 & Hv2 & Hi2 & Him2 & Hsv2).
  assert (Hsub2 : pixelIndex <$> take (Z.to_nat n2) (dev_paths1 d2)
                  `sublist_of` pixelIndex <$> take (Z.to_nat (numRays l)) (dev_paths1 (dev l))).
  { rewrite Hsv2. apply fmap_sublist.
    etrans; [apply survivors_sublist|]. rewrite Tp1.
    rewrite length_take.
    replace (Z.to_nat (numRays l) `min` length (rayValid d1))%nat
      with (Z.to_nat (numRays l)) by lia.
    done. }
  assert (Hpx2 : pixelIndex <$> take (Z.to_nat n2) (dev_paths1 d2)
                 `sublist_of` seqZ 0 pc) by (by etrans).
  assert (Hun2 : ∀ q, q ∈ pixelIndex <$> take (Z.to_nat n2) (dev_paths1 d2) →
                      rd stray_pixel (dev_image d2) q = rd stray_pixel image0 q).
  { intros q Hq. rewrite Him2, Ti. apply Hun. by eapply elem_of_sublist. }
  destruct (n2 =? 0) eqn:Hn2ne.
  { intros [= <- <-]. split; [constructor; simpl; (done || lia) | exact Hun2]. }
  apply Z.eqb_neq in Hn2ne.
  destruct (scatter_bounce sc iter blocks n2 d2) as [d3|] eqn:Hsc; [|done].
  cbn [mbind option_bind].
  pose proof Hsc as Hsc'.
  apply scatter_bounce_sized in Hsc as (Sp2 & Si1 & Si2 & Sx & Spx & Sli & Slv & S01);
    [|lia|lia].
  destruct Hal2 as [Hc1 Hc2 Hc3 Hc4 Hc5].
  assert (Hl3 : length (dev_paths1 d3) = length (dev_paths1 d2)).
  { apply (f_equal length) in Spx. by rewrite !length_fmap in Spx. }
  assert (Hal3 : allocated pc d3).
  { constructor; congruence. }
  pose proof (compact_rays_sized pc d3 n2 ltac:(lia) Hmax Hal3
                ltac:(lia) ltac:(rewrite Sx; lia) S01) as Hc3'.
  destruct (compact_rays d3 n2 false) as [n4 d4]. simpl in Hc3'. cbv beta iota.
  destruct Hc3' as (Hn4 & Hal4 & Hv4 & Hi4 & Him4 & Hsv4).
  assert (Hpix3 : pixelIndex <$> take (Z.to_nat n2) (dev_paths1 d3)
                  = pixelIndex <$> take (Z.to_nat n2) (dev_paths1 d2)).
  { by rewrite !fmap_take, Spx. }
  intros [= <- <-]. split.
  - constructor; simpl; try (done || lia).
    rewrite Hsv4. etrans; [apply fmap_sublist, survivors_sublist|].
    rewrite length_take.
    replace (Z.to_nat n2 `min` length (rayValid d3))%nat with (Z.to_nat n2) by lia.
    by rewrite Hpix3.
  - intros q Hq. cbn [numRays dev] in Hq |- *. rewrite Hsv4 in Hq.
    apply list_elem_of_fmap in Hq as (p & -> & Hp).
    apply elem_of_survivors in Hp as (i & f & Hf & Hf0 & Hp).
    pose proof (lookup_lt_Some _ _ _ Hf) as Hlt. rewrite length_take in Hlt.
    rewrite lookup_take_lt in Hf by lia.
    assert (f = 1) as ->.
    { destruct (flags01_lookup n2 (rayValid d3) i f S01 ltac:(lia) Hf); [done | done]. }
    rewrite Him4.
    rewrite (scatter_bounce_image sc iter blocks n2 d2 d3 i p); try (done || lia).
    + apply Hun2. rewrite <- Hpix3. apply list_elem_of_fmap_2.
      apply list_elem_of_lookup. exists i. rewrite lookup_take_lt by lia. done.
    + eapply sublist_NoDup; [apply NoDup_seqZ | exact Hpx2].
Qed.
End Sized.

Section SizedLoop.
Context `{Stray} `{Uninit} `{SceneStructs} `{Intersections} `{Interactions}
        `{Utilities} `{Thrust}.

Lemma bounce_loop_sized rounds use_bvh fuel sc iter pc gui image0 : ∀ l0 l,
  loop_sized pc l0 → untouched image0 l0 →
  bounce_loop rounds use_bvh false fuel sc iter pc gui l0 = Some l →
  loop_sized pc l ∧ untouched image0 l.
Proof.
  induction rounds as [|rounds IH]; intros l0 l Hs Hu; cbn [bounce_loop].
  - destruct (loop_guard l0); [done|]. by intros [= <-].
  - destruct (loop_guard l0) eqn:Hg; [|by intros [= <-]].
    destruct (bounce_round use_bvh false fuel sc iter pc gui l0) as [[[] l1]|] eqn:Hr;
      [| |done].
    + intros [= <-]. by eapply bounce_round_sized.
    + destruct (bounce_round_sized _ _ _ _ _ _ _ _ _ _ Hs Hu Hg Hr). by apply IH.
Qed.

(** The generated paths carry the pixels [0 .. pixelcount-1], in order. *)
Lemma generated_pixels cam iter td :
  0 < resolution_x cam → 0 < resolution_y cam →
  resolution_x cam * resolution_y cam ≤ INT_MAX →
  pixelIndex <$> generated cam iter td = seqZ 0 (resolution_x cam * resolution_y cam).
Proof.
  intros Hw Hh Hmax. unfold generated. rewrite <- list_fmap_compose.
  rewrite <- (list_fmap_id (seqZ 0 _)) at 2.
  apply list_fmap_ext. intros k i Hi. apply lookup_seqZ in Hi as [-> Hk]. simpl.
  pose proof (Z.div_mod (0 + Z.of_nat k) (resolution_x cam) ltac:(lia)) as Hdm.
  rewrite wrap32_id; unfold INT_MAX in *; lia.
Qed.

(** The state the loop starts in, on buffers as [pathtraceInit] leaves
    them. *)
Lemma loop_start_sized cam iter td d :
  0 < resolution_x cam → 0 < resolution_y cam →
  resolution_x cam * resolution_y cam ≤ INT_MAX - blockSize1d →
  allocated (resolution_x cam * resolution_y cam) d →
  loop_sized (resolution_x cam * resolution_y cam)
    (loop_start (resolution_x cam * resolution_y cam) d (generated cam iter td)).
Proof.
  intros Hw Hh Hmax [].
  assert (Hpc : 0 < resolution_x cam * resolution_y cam) by nia.
  assert (Hint : resolution_x cam * resolution_y cam ≤ INT_MAX).
  { unfold blockSize1d in Hmax. lia. }
  assert (Hlen : Z.of_nat (length (generated cam iter td))
                 = resolution_x cam * resolution_y cam).
  { unfold generated. rewrite length_fmap, length_seqZ. lia. }
  constructor; cbn [loop_start numRays dev rayValid rayIndex dev_paths1].
  - lia.
  - done.
  - by constructor.
  - rewrite length_map, length_seqZ. lia.
  - rewrite length_map, length_seqZ. lia.
  - rewrite take_ge by lia. by rewrite generated_pixels.
Qed.
End SizedLoop.

(** * The final gather of an iteration *)

Section GatherOnce.
Context `{Stray} `{Uninit} `{SceneStructs} `{Intersections} `{Interactions}
        `{Utilities} `{Thrust}.

(** The state [pathtrace] leaves its loop in, on buffers as
    [pathtraceInit] leaves them and without material sort. *)
Lemma pathtrace_loop_sized use_bvh rounds fuel sc iter gui d l image :
  0 < resolution_x (camera sc) → 0 < resolution_y (camera sc) →
  resolution_x (camera sc) * resolution_y (camera sc) ≤ INT_MAX - blockSize1d →
  allocated (resolution_x (camera sc) * resolution_y (camera sc)) d →
  pathtrace_with use_bvh false rounds fuel sc iter gui d = Some (l, image) →
  loop_sized (resolution_x (camera sc) * resolution_y (camera sc)) l ∧
  untouched (dev_image d) l ∧
  loop_guard l = false ∧ gather l = Some image.
Proof.
  intros Hw Hh Hmax Hal. unfold pathtrace_with. cbv zeta.
  rewrite wrap32_id by (unfold INT_MAX, blockSize1d in Hmax; nia).
  rewrite (generate_launch_generated (camera sc) iter (traceDepth sc) stray_path Hw Hh)
    by (destruct Hal; unfold blockSize1d in Hmax; (done || lia)).
  cbn [mbind option_bind].
  destruct (bounce_loop _ _ _ _ _ _ _ _ _) as [l'|] eqn:Hloop; [|done].
  cbn [mbind option_bind].
  destruct (gather l') as [img|] eqn:Hg; [|done]. cbn [mbind option_bind].
  intros [= <- <-].
  destruct (bounce_loop_sized _ _ _ _ _ _ _ (dev_image d) _ _
              (loop_start_sized _ iter (traceDepth sc) d Hw Hh Hmax Hal)
              ltac:(by intros q _) Hloop) as [Hs Hu].
  split; [done|]. split; [done|]. split; [by eapply bounce_loop_exit | done].
Qed.

End GatherOnce.

(** * Seeding and reproducibility *)

Section Reproducible.
Context `{Stray} `{Interactions} `{Utilities} `{Thrust}.

(** What a scatter lane writes to its path and flag is decided by the
    iteration, the lane, the record, the material and the ray and
    throughput of the path; the pixel index and the bounce counter play no
    part. *)
Lemma scatter_lane_by_ray_and_color iter n inters mats idx o1 o2 :
  ray_and_color <$> so_paths o1 = ray_and_color <$> so_paths o2 →
  so_rayValid o1 = so_rayValid o2 →
  ray_and_color <$> so_paths (scatter_on_intersection iter n inters mats idx o1)
  = ray_and_color <$> so_paths (scatter_on_intersection iter n inters mats idx o2) ∧
  so_rayValid (scatter_on_intersection iter n inters mats idx o1)
  = so_rayValid (scatter_on_intersection iter n inters mats idx o2).
Proof.
  intros Hp Hv. unfold scatter_on_intersection.
  destruct (n <=? idx); [done|].
  pose proof (rd_same_image ray_and_color stray_path _ _ idx Hp) as Hrc.
  injection Hrc as Hr Hc. rewrite Hr, Hc, Hv.
  destruct (decide _).
  - split; [|done]. simpl. apply wr_same_image; [done|].
    unfold ray_and_color, set_color. simpl. by rewrite Hr.
  - destruct (util_math_get_TBN _) as [T B].
    destruct (fltb f_zero _); (split; [|done]); [|done].
    simpl. by apply wr_same_image.
Qed.

(** C7 (as amended).  A generation launch over a full-size buffer leaves
    the buffer [generated], whatever the buffer held before, so two runs of
    the same iteration on the same camera produce the same paths; the
    engine of pixel [(x, y)] is seeded from [x], [y] and the iteration, the
    engine of a scatter lane from the iteration and the lane index with
    depth 0; and what a scatter lane writes to its path and flag does not
    depend on the pixel index of the path. *)
Theorem path_generation_reproducible cam iter td p1 p2 :
  0 < resolution_x cam → 0 < resolution_y cam →
  resolution_x cam * resolution_y cam ≤ INT_MAX →
  Z.of_nat (length p1) = resolution_x cam * resolution_y cam →
  Z.of_nat (length p2) = resolution_x cam * resolution_y cam →
  generate_launch cam iter td p1 = Some (generated cam iter td) ∧
  generate_launch cam iter td p2 = generate_launch cam iter td p1 ∧
  (∀ x y,
     camera_segment cam iter td x y
     = {| ray := {| origin := position cam;
                    direction := camera_direction cam x y (makeSeededRandomEngine x y iter) |};
          color := vec3_splat f_one;
          pixelIndex := wrap32 (x + y * resolution_x cam);
          remainingBounces := td |}) ∧
  (∀ idx, scatter_engine iter idx = makeSeededRandomEngine iter idx 0) ∧
  (∀ n inters mats idx o1 o2,
     ray_and_color <$> so_paths o1 = ray_and_color <$> so_paths o2 →
     so_rayValid o1 = so_rayValid o2 →
     ray_and_color <$> so_paths (scatter_on_intersection iter n inters mats idx o1)
     = ray_and_color <$> so_paths (scatter_on_intersection iter n inters mats idx o2) ∧
     so_rayValid (scatter_on_intersection iter n inters mats idx o1)
     = so_rayValid (scatter_on_intersection iter n inters mats idx o2)).
Proof.
  intros Hw Hh Hmax Hl1 Hl2.
  pose proof (generate_launch_generated cam iter td stray_path Hw Hh Hmax) as Hgen.
  split; [by apply Hgen|]. split; [by rewrite !Hgen|].
  split; [done|]. split; [done|].
  intros. by apply scatter_lane_by_ray_and_color.
Qed.
End Reproducible.

(** * Launches over the pixel grid *)

Section Grid.
Context {A : Type}.
Variables (w h : Z) (f : Z → Z → A) (stray : Z → A).

Local Abbreviation cell := (grid_cell w h f).

Hypothesis Hw : 0 < w.
Hypothesis Hh : 0 < h.
Hypothesis Hmax : w * h ≤ INT_MAX.

Lemma length_grid_cell x y b : length (cell x y b) = length b.
Proof. unfold grid_cell. destruct (_ && _); [apply length_wr | done]. Qed.

Lemma grid_row (k : nat) y b :
  0 ≤ y → Z.of_nat (length b) = w * h →
  let b' := foldl (λ s x, cell x y s) b (seqZ 0 (Z.of_nat k)) in
  length b' = length b ∧
  ∀ i, rd stray b' i
       = if decide (y < h ∧ y * w ≤ i < y * w + Z.min (Z.of_nat k) w)
         then f (i - y * w) y else rd stray b i.
Proof.
  intros Hy Hlen. induction k as [|k [IHlen IH]]; simpl.
  - split; [done|]. intros i. rewrite decide_False by lia. done.
  - rewrite seqZ_snoc, foldl_app. simpl.
    set (bk := foldl (λ s x, cell x y s) b (seqZ 0 (Z.of_nat k))) in *.
    split; [by rewrite length_grid_cell|].
    intros i. unfold grid_cell.
    destruct (Z.ltb_spec (Z.of_nat k) w) as [Hk|Hk];
      destruct (Z.ltb_spec y h) as [Hyh|Hyh]; simpl;
      try (rewrite IH; destruct (decide _), (decide _); (done || lia)).
    assert (Hrow : y * w + w ≤ w * h) by nia.
    assert (Hbk : Z.of_nat (length bk) = w * h) by lia.
    assert (0 ≤ y * w) by nia.
    rewrite wrap32_id by (unfold INT_MAX in Hmax; lia).
    destruct (decide (i = Z.of_nat k + y * w)) as [-> | Hne].
    + rewrite rd_wr_eq by lia. rewrite decide_True by lia.
      by replace (Z.of_nat k + y * w - y * w) with (Z.of_nat k) by lia.
    + rewrite rd_wr_ne by done. rewrite IH.
      destruct (decide _), (decide _); (done || lia).
Qed.

Lemma grid_rows (cols k : nat) b :
  w ≤ Z.of_nat cols → Z.of_nat (length b) = w * h →
  let b' := foldl (λ s y, foldl (λ s x, cell x y s) s (seqZ 0 (Z.of_nat cols))) b
              (seqZ 0 (Z.of_nat k)) in
  length b' = length b ∧
  ∀ i, rd stray b' i
       = if decide (0 ≤ i < Z.min (Z.of_nat k) h * w)
         then f (i mod w) (i / w) else rd stray b i.
Proof.
  intros Hcols Hlen. induction k as [|k [IHlen IH]]; simpl.
  - split; [done|]. intros i. rewrite decide_False by lia. done.
  - rewrite seqZ_snoc, foldl_app. simpl.
    set (bk := foldl _ b (seqZ 0 (Z.of_nat k))) in *.
    destruct (grid_row cols (Z.of_nat k) bk ltac:(lia) ltac:(lia)) as [Hrl Hrow].
    split; [lia|]. intros i. rewrite Hrow, IH.
    replace (Z.min (Z.of_nat cols) w) with w by lia.
    destruct (decide (Z.of_nat k < h ∧ Z.of_nat k * w ≤ i < Z.of_nat k * w + w))
      as [(Hk & Hlo & Hhi) | Hout].
    + rewrite decide_True by nia.
      assert (Hq : i / w = Z.of_nat k).
      { symmetry. apply (Z.div_unique i w (Z.of_nat k) (i - Z.of_nat k * w)); lia. }
      assert (Hm : i mod w = i - Z.of_nat k * w).
      { symmetry. apply (Z.mod_unique i w (Z.of_nat k) (i - Z.of_nat k * w)); lia. }
      by rewrite Hq, Hm.
    + destruct (decide (0 ≤ i < Z.min (Z.of_nat k) h * w)).
      * by rewrite decide_True by nia.
      * by rewrite decide_False by nia.
Qed.

(** A launch over the grid leaves, at every index of a buffer of [w * h]
    entries, the value of the pixel that index stands for. *)
Lemma grid_launch b :
  Z.of_nat (length b) = w * h →
  launch2d (blocks2d w) (blocks2d h) 8 8 (λ x y s, Some (cell x y s)) b
  = Some ((λ i, f (i mod w) (i / w)) <$> seqZ 0 (w * h)).
Proof.
  intros Hlen. unfold launch2d.
  rewrite (loopM_ext _ (λ y s1, Some (foldl (λ s x, cell x y s) s1
                                        (seqZ 0 (blocks2d w * 8))))).
  2:{ intros y s1 _. apply loopM_total. }
  rewrite loopM_total. f_equal.
  pose proof (quot8_cover w ltac:(nia)) as Hcx. pose proof (quot8_cover h ltac:(nia)) as Hcy.
  rewrite <- (Z2Nat.id (blocks2d w * 8)) by lia.
  rewrite <- (Z2Nat.id (blocks2d h * 8)) by lia.
  destruct (grid_rows (Z.to_nat (blocks2d w * 8))
              (Z.to_nat (blocks2d h * 8)) b ltac:(lia) Hlen) as [Hl Hrd].
  apply (rd_ext stray).
  - rewrite Hl, length_fmap, length_seqZ. lia.
  - intros i Hi. rewrite Hl in Hi. rewrite Hrd.
    rewrite decide_True by nia.
    symmetry. apply rd_lookup; [lia|].
    rewrite list_lookup_fmap, (lookup_seqZ_lt 0 (w * h) (Z.to_nat i)) by lia.
    simpl. by rewrite Z.add_0_l, Z2Nat.id by lia.
Qed.
End Grid.

(** * The texels of the presented image *)

(** The literal above is the double nearest to 255. *)
Lemma double_constants : d_255 = binary_normalize prec64 emax64 255 0 false.
Proof. by vm_compute. Qed.

Section PresentFacts.
Context `{Stray} `{Conversions}.

Lemma glm_clamp_range x : 0 ≤ glm_clamp x 0 255 ≤ 255.
Proof. unfold glm_clamp. lia. Qed.

Lemma channel_range iter p : 0 ≤ channel iter p ≤ 255.
Proof. apply glm_clamp_range. Qed.

Lemma to_u8_id z : 0 ≤ z ≤ 255 → to_u8 z = z.
Proof. intros Hz. unfold to_u8. apply Z.mod_small. lia. Qed.

(** X1.  The presentation launch overwrites the whole buffer: every texel has
    [w = 0]; the texel of a pixel with a NaN component is (255, 192, 203);
    the channels of any other texel are the clamped values, between 0 and
    255, which the conversion to [unsigned char] leaves as they are. *)
Theorem present_launch_texels cam iter image pbo (stray_texel : Z → uchar4) :
  0 < resolution_x cam → 0 < resolution_y cam →
  resolution_x cam * resolution_y cam ≤ INT_MAX →
  Z.of_nat (length pbo) = resolution_x cam * resolution_y cam →
  ∃ pbo',
    present_launch cam iter image pbo = Some pbo' ∧
    length pbo' = length pbo ∧
    ∀ i, 0 ≤ i < resolution_x cam * resolution_y cam →
      let pix := rd stray_pixel image i in
      let tx := rd stray_texel pbo' i in
      uw tx = 0 ∧
      (util_math_is_nan pix = true → ux tx = 255 ∧ uy tx = 192 ∧ uz tx = 203) ∧
      (util_math_is_nan pix = false →
         ux tx = channel iter (vx pix) ∧ uy tx = channel iter (vy pix) ∧
         uz tx = channel iter (vz pix)) ∧
      0 ≤ ux tx ≤ 255 ∧ 0 ≤ uy tx ≤ 255 ∧ 0 ≤ uz tx ≤ 255.
Proof.
  intros Hw Hh Hmax Hlen.
  set (w := resolution_x cam) in *. set (h := resolution_y cam) in *.
  pose proof (grid_launch w h (λ x y, texel iter (rd stray_pixel image (wrap32 (x + y * w))))
                stray_texel Hw Hh Hmax pbo Hlen) as Hrun.
  eexists. split; [exact Hrun|]. split.
  { rewrite length_fmap, length_seqZ. lia. }
  intros i Hi pix tx.
  assert (Htx : tx = texel iter pix).
  { unfold tx. erewrite rd_lookup; [reflexivity | lia |].
    rewrite list_lookup_fmap, (lookup_seqZ_lt 0 (w * h) (Z.to_nat i)) by lia.
    simpl. rewrite Z.add_0_l, Z2Nat.id by lia. unfold pix.
    pose proof (Z.div_mod i w ltac:(lia)).
    pose proof (Z.mod_pos_bound i w ltac:(lia)).
    rewrite wrap32_id by (unfold INT_MAX in Hmax; lia).
    by replace (i mod w + i / w * w) with i by lia. }
  rewrite Htx. unfold texel.
  pose proof (channel_range iter (vx pix)). pose proof (channel_range iter (vy pix)).
  pose proof (channel_range iter (vz pix)).
  destruct (util_math_is_nan pix); cbn [ux uy uz uw]; rewrite ?to_u8_id by lia;
    repeat split; try (done || lia); by vm_compute.
Qed.
End PresentFacts.

(** * The seeds of the camera rays *)

Section SeedPeriod.
Context `{Utilities} `{Thrust}.

Lemma testbit_add_512 a k : 0 ≤ k < 9 → Z.testbit (a + 512) k = Z.testbit a k.
Proof.
  intros Hk.
  rewrite <- (Z.mod_pow2_bits_low (a + 512) 9 k), <- (Z.mod_pow2_bits_low a 9 k) by lia.
  f_equal. change (2 ^ 9) with 512.
  rewrite <- (Z.mul_1_l 512) at 1. by rewrite Z.mod_add by lia.
Qed.

(** The hash argument of the camera engine keeps the low nine bits of the
    iteration count only. *)
Lemma seed_word_period iter x :
  to_u32 (Z.lor (Z.lor (Z.shiftl 1 31) (Z.shiftl (iter + 512) 22)) x)
  = to_u32 (Z.lor (Z.lor (Z.shiftl 1 31) (Z.shiftl iter 22)) x).
Proof.
  unfold to_u32. apply Z.bits_inj'. intros n Hn.
  destruct (Z.lt_ge_cases n 32) as [Hlt|Hge].
  - rewrite !Z.mod_pow2_bits_low by lia. rewrite !Z.lor_spec. f_equal.
    destruct (Z.lt_ge_cases n 22) as [Hlow|Hhigh].
    + by rewrite !(Z.shiftl_spec_low _ 22 n) by lia.
    + rewrite !(Z.shiftl_spec _ 22 n) by lia.
      destruct (decide (n = 31)) as [-> | Hne].
      * rewrite (Z.shiftl_spec 1 31 31) by lia. simpl. done.
      * f_equal. apply testbit_add_512. lia.
  - by rewrite !Z.mod_pow2_bits_high by lia.
Qed.

(** X2.  The camera ray of a pixel repeats every 512 iterations: the iteration
    count reaches the seed through bits 22 to 30 of a 32-bit word, bit 31
    being set in any case. *)
Theorem camera_rays_repeat cam iter td p :
  (∀ x y, camera_segment cam (iter + 512) td x y = camera_segment cam iter td x y) ∧
  generate_launch cam (iter + 512) td p = generate_launch cam iter td p.
Proof.
  assert (Hseg : ∀ x y, camera_segment cam (iter + 512) td x y
                        = camera_segment cam iter td x y).
  { intros x y. unfold camera_segment, makeSeededRandomEngine.
    by rewrite seed_word_period. }
  split; [done|].
  unfold generate_launch, launch2d.
  apply loopM_ext. intros y s _. apply loopM_ext. intros x s' _.
  unfold generateRayFromCamera. by rewrite Hseg.
Qed.
End SeedPeriod.

(** * What the intersection kernels report *)

Section LeafTest.
Context `{Stray} `{Uninit} `{SceneStructs} `{Intersections}.
Variables (prims : list Primitive) (objs : list Object)
          (tris : list ivec3) (verts : list vec3) (r : Ray).

Local Abbreviation lp := (leaf_prim prims objs tris verts r).

(** A run of primitive tests either leaves the flag and the record as they
    were, or sets the flag and leaves a positive [t] strictly below the old
    one; the type tag is not touched. *)
Lemma leaf_fold_improves idxs : ∀ b isect,
  let res := foldl lp (b, isect) idxs in
  type res.2 = type isect ∧
  (res = (b, isect) ∨
   (res.1 = true ∧ fltb f_zero (t res.2) = true ∧ fltb (t res.2) (t isect) = true)).
Proof.
  induction idxs as [|i idxs IH]; intros b isect; simpl; [by split; [|left]|].
  unfold leaf_prim at 2 4 6 8 10. cbn [fst snd].
  destruct (fltb f_zero _) eqn:Hpos; cbn [andb]; [|apply IH].
  destruct (fltb _ (t isect)) eqn:Hlt; [|apply IH].
  match goal with |- context [foldl lp (true, ?i1) idxs] => set (isect1 := i1) end.
  destruct (IH true isect1) as [Hty [Hsame | (Hb & Hp & Hl)]].
  - split; [by rewrite Hty|]. right. rewrite Hsame. by split.
  - split; [by rewrite Hty|]. right. split; [done|]. split; [done|].
    eapply fltb_trans; [exact Hl | exact Hlt].
Qed.

Lemma leaf_intersect_cases arr curr isect hit isect' :
  util_bvh_leaf_intersect arr curr prims objs tris verts r isect = Some (hit, isect') →
  type isect' = type isect ∧
  if hit then fltb f_zero (t isect') = true ∧ fltb (t isect') (t isect) = true
  else isect' = isect.
Proof.
  unfold util_bvh_leaf_intersect.
  destruct (for_range _ _) as [idxs|]; [|done]. cbn [mbind option_bind].
  intros [= Hres].
  destruct (leaf_fold_improves idxs false isect) as [Hty Hcases].
  cbv zeta in Hty, Hcases. rewrite Hres in Hty, Hcases. cbn [fst snd] in Hty, Hcases.
  split; [done|].
  destruct Hcases as [[= -> ->] | (-> & Hp & Hl)]; done.
Qed.

(** X3.  When [util_bvh_leaf_intersect] returns, the type tag of the record is
    as it was; if it reports a hit the record holds a positive [t]
    strictly below the one it held; if it reports none the record is
    unchanged; and on a leaf with an empty primitive range it reports
    none. *)
Theorem leaf_intersect_only_improves arr curr isect hit isect' :
  util_bvh_leaf_intersect arr curr prims objs tris verts r isect = Some (hit, isect') →
  type isect' = type isect ∧
  (if hit then fltb f_zero (t isect') = true ∧ fltb (t isect') (t isect) = true
   else isect' = isect) ∧
  (startPrim (rd stray_node arr curr) = endPrim (rd stray_node arr curr) → hit = false).
Proof.
  intros Hrun. destruct (leaf_intersect_cases _ _ _ _ _ Hrun) as [Hty Hcases].
  split; [done|]. split; [done|].
  intros Heq. revert Hrun. unfold util_bvh_leaf_intersect, for_range. rewrite Heq.
  rewrite Z.leb_refl, Z.sub_diag. cbn [mbind option_bind]. by intros [= <- _].
Qed.
End LeafTest.

Section KernelBounds.
Context `{Stray} `{Uninit} `{SceneStructs} `{Intersections}.

Lemma bvh_step_bounded arr prims objs tris verts r w fl :
  walk_bounded w →
  bvh_step arr prims objs tris verts r w = Some fl →
  walk_bounded (match fl with Continue w' => w' | Exit w' => w' end).
Proof.
  intros Hw.
  assert (Hleaf : ∀ next st fl',
            visit_leaf arr prims objs tris verts r w next st = Some fl' →
            walk_bounded (match fl' with Continue w' => w' | Exit w' => w' end)).
  { intros next st fl'. unfold visit_leaf.
    destruct (util_bvh_leaf_intersect _ _ _ _ _ _ _ _) as [[hit isect']|] eqn:Hl; [|done].
    cbn [mbind option_bind]. intros [= <-].
    apply leaf_intersect_cases in Hl as [_ Hl].
    unfold walk_bounded in *. cbn [intersected tmpIntersection].
    destruct hit.
    - destruct Hl as [Hp Hlt]. split; [done|].
      destruct (intersected w).
      + destruct Hw as [_ Hw]. by eapply fltb_trans.
      + by rewrite Hw in Hlt.
    - by subst. }
  unfold bvh_step.
  destruct (state w).
  - destruct (curr w =? 0); [by intros [= <-]|].
    destruct (curr w =? _); by intros [= <-].
  - destruct (negb _); [by intros [= <-]|].
    destruct (util_bvh_is_leaf _ _); [apply Hleaf | by intros [= <-]].
  - destruct (negb _); [by intros [= <-]|].
    destruct (util_bvh_is_leaf _ _); [apply Hleaf | by intros [= <-]].
Qed.

Lemma bvh_walk_bounded fuel arr size prims objs tris verts r : ∀ w w',
  walk_bounded w →
  bvh_walk fuel arr size prims objs tris verts r w = Some w' →
  walk_bounded w'.
Proof.
  induction fuel as [|fuel IH]; intros w w' Hw; simpl.
  - destruct (_ && _); [done | by intros [= <-]].
  - destruct (_ && _); [|by intros [= <-]].
    destruct (bvh_step arr prims objs tris verts r w) as [[w1|w1]|] eqn:Hs; [| |done].
    + apply IH. exact (bvh_step_bounded _ _ _ _ _ _ _ _ Hw Hs).
    + intros [= <-]. exact (bvh_step_bounded _ _ _ _ _ _ _ _ Hw Hs).
Qed.

(** X4.  Whatever the BVH array holds and however many rounds the walk takes,
    a lane of the BVH kernel that returns writes flag 0 or 1; with flag 0
    the records are untouched; with flag 1 its record holds a [t] that is
    positive and strictly below [1e20f], and no other record has
    changed. *)
Theorem bvh_kernel_hit_bounds fuel num_paths paths mats objs tris verts prims arr size
    idx ints flags out :
  idx < num_paths →
  0 ≤ idx < Z.of_nat (length ints) → 0 ≤ idx < Z.of_nat (length flags) →
  compute_intersection_bvh_stackless fuel num_paths paths mats objs tris verts prims arr size
    idx (ints, flags) = Some out →
  (rd stray_int out.2 idx = 0 ∧ out.1 = ints) ∨
  (rd stray_int out.2 idx = 1 ∧
   fltb f_zero (t (rd stray_intersection out.1 idx)) = true ∧
   fltb (t (rd stray_intersection out.1 idx)) f_1e20 = true ∧
   ∀ j, j ≠ idx → rd stray_intersection out.1 j = rd stray_intersection ints j).
Proof.
  intros Hlane Hints Hflags. unfold compute_intersection_bvh_stackless.
  destruct (Z.leb_spec num_paths idx) as [|_]; [lia|].
  destruct (bvh_walk _ _ _ _ _ _ _ _ _) as [w|] eqn:Hwalk; [|done].
  cbn [mbind option_bind].
  apply bvh_walk_bounded in Hwalk; [|reflexivity].
  unfold walk_bounded in Hwalk.
  destruct (intersected w); intros [= <-]; cbn [fst snd].
  - right. rewrite !rd_wr_eq by lia. destruct Hwalk as [Hp Hlt].
    split; [done|]. split; [done|]. split; [done|].
    intros j Hj. by apply rd_wr_ne.
  - left. by rewrite rd_wr_eq by lia.
Qed.

(** X5.  The brute-force kernel finds the nearest positive hit: on a scene
    with ordered mesh ranges a lane returns; it writes flag 0 and leaves
    the records alone exactly when no candidate has a positive [t] below
    [FLT_MAX]; otherwise it writes flag 1 and its record is the hit of a
    candidate with positive [t] below [FLT_MAX] that no candidate with
    positive [t] undercuts, with the type tag it had before. *)
Theorem brute_force_nearest_hit num_paths paths geoms tris verts idx ints flags :
  Forall (λ geom, otype geom = MODEL → triangleStart geom ≤ triangleEnd geom) geoms →
  idx < num_paths →
  0 ≤ idx < Z.of_nat (length ints) → 0 ≤ idx < Z.of_nat (length flags) →
  let cands := key_hit geoms tris verts (ray (rd stray_path paths idx)) <$> bf_keys geoms in
  ∃ out,
    compute_intersection num_paths paths geoms (Z.of_nat (length geoms)) tris verts idx
      (ints, flags) = Some out ∧
    ((rd stray_int out.2 idx = 0 ∧ out.1 = ints ∧
      Forall (λ c, positive c → fltb (hit_t c) FLT_MAX = false) cands) ∨
     (rd stray_int out.2 idx = 1 ∧
      record_hit (rd stray_intersection out.1 idx) ∈ cands ∧
      positive (record_hit (rd stray_intersection out.1 idx)) ∧
      fltb (t (rd stray_intersection out.1 idx)) FLT_MAX = true ∧
      Forall (λ c', positive c' →
                    fltb (hit_t c') (t (rd stray_intersection out.1 idx)) = false) cands ∧
      type (rd stray_intersection out.1 idx) = type (rd stray_intersection ints idx) ∧
      ∀ j, j ≠ idx → rd stray_intersection out.1 j = rd stray_intersection ints j)).
Proof.
  intros Hmesh Hlane Hints Hflags cands.
  destruct (bf_scan_abs geoms tris verts (ray (rd stray_path paths idx)) Hmesh)
    as (s & Hscan & Hs_t & Hs_c & _).
  fold cands in Hs_t, Hs_c.
  unfold compute_intersection.
  destruct (Z.ltb_spec idx num_paths) as [_|]; [|lia].
  rewrite Hscan. cbn [mbind option_bind].
  destruct (pick_fold cands (FLT_MAX, None)) as [[Hfold Hall] | (c & Hfold & Hc & Hpos & Hlt & Hall)].
  - rewrite Hfold in Hs_t. cbn [fst] in Hs_t. rewrite Hs_t, feqb_FLT_MAX.
    eexists. split; [reflexivity|]. left. cbn [fst snd].
    split; [by rewrite rd_wr_eq by lia|]. split; [done|].
    eapply Forall_impl; [exact Hall|]. cbn [fst]. intros c Hc Hp.
    unfold positive in Hp. by rewrite Hp in Hc.
  - rewrite Hfold in Hs_t, Hs_c. cbn [fst snd] in Hs_t, Hs_c, Hlt.
    rewrite Hs_t, (fltb_feqb _ _ Hlt).
    eexists. split; [reflexivity|]. right. cbn [fst snd].
    rewrite !rd_wr_eq by lia.
    assert (Hrec : record_hit (bf_record (rd stray_intersection ints idx) s) = c).
    { symmetry. exact (Hs_c c eq_refl). }
    split; [done|]. rewrite Hrec. split; [done|]. split; [done|].
    assert (Ht : t (bf_record (rd stray_intersection ints idx) s) = hit_t c).
    { by rewrite <- Hrec. }
    rewrite Ht. split; [done|]. split; [done|]. split; [done|].
    intros j Hj. by apply rd_wr_ne.
Qed.
End KernelBounds.

(** * Siblings in a well-formed tree *)

Section Siblings.
Context `{Stray} `{Uninit} `{SceneStructs} `{Intersections}.

(** X6.  Below an interior node of a well-formed tree, [util_bvh_get_sibling]
    swaps the two children: the sibling of a child is the other child, it
    has the same parent, and the sibling of the sibling is the child
    itself.  The near child is one of the two. *)
Theorem sibling_swaps_children arr up p l r' c o :
  tree_in arr up (BNode p l r') →
  c = tree_root l ∨ c = tree_root r' →
  util_bvh_get_sibling arr c ≠ c ∧
  (util_bvh_get_sibling arr c = tree_root l ∨ util_bvh_get_sibling arr c = tree_root r') ∧
  parent (rd stray_node arr (util_bvh_get_sibling arr c)) = p ∧
  util_bvh_get_sibling arr (util_bvh_get_sibling arr c) = c ∧
  (util_bvh_get_near_child arr p o = c ∨
   util_bvh_get_near_child arr p o = util_bvh_get_sibling arr c).
Proof.
  intros Hin Hc.
  pose proof (tree_in_root _ _ _ Hin) as [Hp _]. cbn [tree_root] in Hp.
  destruct (tree_in_node_inv _ _ _ _ _ Hin) as (Hl & Hr & Hne & Hinl & Hinr).
  pose proof (tree_in_root _ _ _ Hinl) as [_ Hpl].
  pose proof (tree_in_root _ _ _ Hinr) as [_ Hpr].
  assert (Hsl : util_bvh_get_sibling arr (tree_root l) = tree_root r').
  { rewrite (sibling_of_left arr p) by (done || lia). done. }
  assert (Hsr : util_bvh_get_sibling arr (tree_root r') = tree_root l).
  { rewrite (sibling_of_right arr p) by (done || lia || congruence). done. }
  pose proof (near_child_cases arr p o) as Hnear. rewrite Hl, Hr in Hnear.
  destruct Hc as [-> | ->].
  - rewrite Hsl, Hsr. repeat split; auto; first [congruence | tauto].
  - rewrite Hsr, Hsl. repeat split; auto; first [congruence | tauto].
Qed.
End Siblings.

(** * The iteration returns *)

Lemma loopM_defined {A S} (body : A → S → option S) (l : list A) :
  (∀ a s, is_Some (body a s)) → ∀ s, is_Some (loopM body l s).
Proof.
  intros Hbody. induction l as [|a l IH]; intros s; simpl; [by eexists|].
  destruct (Hbody a s) as [s' ->]. apply IH.
Qed.

Section Returns.
Context `{Stray} `{Uninit} `{SceneStructs} `{Intersections} `{Interactions}
        `{Utilities} `{Thrust}.

Lemma trace_bounce_returns use_bvh fuel sc blocks n d :
  kernels_return use_bvh fuel sc → is_Some (trace_bounce use_bvh fuel sc blocks n d).
Proof.
  intros Hk. unfold trace_bounce, launch1d.
  match goal with |- is_Some (mbind _ (loopM ?body ?lanes ?s)) =>
    assert (Hrun : is_Some (loopM body lanes s)) end.
  { apply loopM_defined. intros i [ints flags]. destruct use_bvh.
    - destruct Hk as (l & r' & Hshape & Hfuel).
      apply bvh_shape_tree_in in Hshape as [Hin _].
      unfold compute_intersection_bvh_stackless.
      destruct (n <=? i); [by eexists|].
      rewrite (bvh_walk_tested (bvhArray sc) (primitives sc) (objects sc) (triangles sc)
                 (verticies sc) _ l r' fuel Hin Hfuel).
      cbn [mbind option_bind]. by destruct (intersected _); eexists.
    - unfold compute_intersection. destruct (i <? n); [|by eexists].
      destruct (bf_scan_abs (objects sc) (triangles sc) (verticies sc)
                  (ray (rd stray_path (dev_paths1 d) i)) Hk) as (s & -> & _).
      cbn [mbind option_bind]. by destruct (feqb _ _); eexists. }
  destruct Hrun as [out ->]. by eexists.
Qed.

Lemma bounce_round_returns use_bvh sm fuel sc iter pc gui l :
  kernels_return use_bvh fuel sc →
  is_Some (bounce_round use_bvh sm fuel sc iter pc gui l).
Proof.
  intros Hk. unfold bounce_round.
  destruct (trace_bounce_returns use_bvh fuel sc (blocks1d (numRays l)) (numRays l)
              (clear_intersections pc (dev l)) Hk) as [d1 ->].
  cbn [mbind option_bind].
  destruct (compact_rays d1 (numRays l) sm) as [n2 d2].
  destruct (n2 =? 0); [by eexists|].
  unfold scatter_bounce, launch1d. rewrite loopM_total. cbn [mbind option_bind].
  destruct (compact_rays _ n2 false). by eexists.
Qed.

Lemma bounce_loop_returns use_bvh sm fuel sc iter pc gui (rounds : nat) : ∀ l,
  kernels_return use_bvh fuel sc →
  0 ≤ depth l ≤ MAX_ITER → (Z.to_nat (MAX_ITER - depth l) ≤ rounds)%nat →
  ∃ l', bounce_loop rounds use_bvh sm fuel sc iter pc gui l = Some l' ∧
        depth l ≤ depth l' ≤ MAX_ITER.
Proof.
  induction rounds as [|rounds IH]; intros l Hk Hd Hr.
  - assert (Hg : loop_guard l = false).
    { apply not_true_iff_false. rewrite loop_guard_spec. lia. }
    exists l. simpl. rewrite Hg. split; [done | lia].
  - cbn [bounce_loop]. destruct (loop_guard l) eqn:Hg; [|exists l; split; [done | lia]].
    apply loop_guard_spec in Hg as [_ Hlt].
    destruct (bounce_round_returns use_bvh sm fuel sc iter pc gui l Hk) as [[b l1] Hround].
    rewrite Hround. pose proof (bounce_round_depth _ _ _ _ _ _ _ _ _ _ Hround) as Hd1.
    rewrite add32_small in Hd1 by (unfold MAX_ITER in *; lia).
    destruct b.
    + exists l1. split; [done | lia].
    + destruct (IH l1 Hk ltac:(lia) ltac:(lia)) as (l' & Hl' & Hdl').
      exists l'. split; [done | lia].
Qed.

(** When every lane of the intersection kernel returns, so does the
    iteration. *)
Lemma pathtrace_with_returns use_bvh sm rounds fuel sc iter gui d :
  kernels_return use_bvh fuel sc → (Z.to_nat MAX_ITER ≤ rounds)%nat →
  ∃ l image,
    pathtrace_with use_bvh sm rounds fuel sc iter gui d = Some (l, image) ∧
    0 ≤ depth l ≤ MAX_ITER ∧ loop_guard l = false.
Proof.
  intros Hk Hrounds. unfold pathtrace_with, generate_launch, launch2d.
  rewrite (loopM_ext _ (λ y s1, Some (foldl (λ s x, generateRayFromCamera (camera sc) iter
                                                     (traceDepth sc) x y s) s1
                                        (seqZ 0 (blocks2d (resolution_x (camera sc)) * 8))))).
  2:{ intros y s1 _. apply loopM_total. }
  rewrite loopM_total. cbn [mbind option_bind].
  match goal with |- context [bounce_loop _ _ _ _ _ _ ?pc _ ?l0] =>
    destruct (bounce_loop_returns use_bvh sm fuel sc iter pc gui rounds l0 Hk)
      as (l & Hloop & Hd) end.
  { cbn [loop_start depth]. unfold MAX_ITER. lia. }
  { cbn [loop_start depth]. lia. }
  rewrite Hloop. cbn [mbind option_bind].
  assert (Hgather : is_Some (gather l)).
  { unfold gather. destruct (numRays l =? 0); [by eexists|].
    unfold launch1d. rewrite loopM_total. by eexists. }
  destruct Hgather as [image Hgather]. rewrite Hgather. cbn [mbind option_bind].
  exists l, image. split; [done|]. split.
  - cbn [loop_start depth] in Hd. lia.
  - by eapply bounce_loop_exit.
Qed.

(** X7.  An iteration returns: when every lane of the intersection kernel
    returns, [pathtrace] leaves its loop after at most [MAX_ITER] rounds,
    with the guard false and a depth between 0 and [MAX_ITER], and gathers
    an image. *)
Theorem pathtrace_terminates use_bvh sm rounds fuel sc iter gui d :
  kernels_return use_bvh fuel sc → (Z.to_nat MAX_ITER ≤ rounds)%nat →
  ∃ l image,
    pathtrace_with use_bvh sm rounds fuel sc iter gui d = Some (l, image) ∧
    0 ≤ depth l ≤ MAX_ITER ∧ loop_guard l = false.
Proof. apply pathtrace_with_returns. Qed.
End Returns.

(** * The loop guard and the bounce counters *)

Section LoopClaim.
Context `{Stray} `{Uninit} `{SceneStructs} `{Intersections} `{Interactions}
        `{Utilities} `{Thrust}.

Lemma kernels_return_traceDepth use_bvh fuel sc td :
  kernels_return use_bvh fuel sc → kernels_return use_bvh fuel (with_traceDepth sc td).
Proof. by destruct use_bvh. Qed.

(** C8.  The bounce loop runs another round exactly when the ray count is
    not zero and the depth counter is below [MAX_ITER]; the counts that
    occur lie between 0 and the pixel count, so that not zero is positive;
    a round adds one to the depth; the loop is left only with the guard
    false, and rounds allowed beyond [MAX_ITER - depth] are never used.
    When the lanes of the intersection kernel return, the loop returns
    within [MAX_ITER - depth] rounds, with a depth of at most [MAX_ITER],
    and so does the iteration.  The bounce counter of a path is set to the
    trace depth at generation and never read: an iteration run with
    another trace depth returns as well, and leaves the same image, depth,
    counts, flags, records, rays and throughputs; the two runs differ in
    the bounce counters only. *)
Theorem bounce_loop_guard_and_counters use_bvh rounds fuel sc iter gui d td :
  kernels_return use_bvh fuel sc → (Z.to_nat MAX_ITER ≤ rounds)%nat →
  (∀ l, loop_guard l = true ↔ numRays l ≠ 0 ∧ depth l < MAX_ITER) ∧
  (∀ pixelcount l,
     loop_sized pixelcount l →
     (loop_guard l = true ↔ 0 < numRays l ∧ depth l < MAX_ITER)) ∧
  (∀ cam,
     0 < resolution_x cam → 0 < resolution_y cam →
     resolution_x cam * resolution_y cam ≤ INT_MAX - blockSize1d →
     allocated (resolution_x cam * resolution_y cam) d →
     loop_sized (resolution_x cam * resolution_y cam)
       (loop_start (resolution_x cam * resolution_y cam) d (generated cam iter td))) ∧
  (∀ pixelcount l b l',
     loop_sized pixelcount l → loop_guard l = true →
     bounce_round use_bvh false fuel sc iter pixelcount gui l = Some (b, l') →
     loop_sized pixelcount l') ∧
  (∀ sm pixelcount l b l',
     0 ≤ depth l < MAX_ITER →
     bounce_round use_bvh sm fuel sc iter pixelcount gui l = Some (b, l') →
     depth l' = depth l + 1) ∧
  (∀ (n : nat) sm pixelcount l,
     loop_guard l = false →
     bounce_loop n use_bvh sm fuel sc iter pixelcount gui l = Some l) ∧
  (∀ (n : nat) sm pixelcount l,
     loop_guard l = true →
     bounce_loop (S n) use_bvh sm fuel sc iter pixelcount gui l
     = match bounce_round use_bvh sm fuel sc iter pixelcount gui l with
       | Some (true, l') => Some l'
       | Some (false, l') => bounce_loop n use_bvh sm fuel sc iter pixelcount gui l'
       | None => None
       end) ∧
  (∀ (n : nat) sm pixelcount l0 l,
     bounce_loop n use_bvh sm fuel sc iter pixelcount gui l0 = Some l →
     loop_guard l = false) ∧
  (∀ sm pixelcount (k : nat) l,
     0 ≤ depth l →
     bounce_loop (Z.to_nat (MAX_ITER - depth l) + k) use_bvh sm fuel sc iter pixelcount gui l
     = bounce_loop (Z.to_nat (MAX_ITER - depth l)) use_bvh sm fuel sc iter pixelcount gui l) ∧
  (∀ sm pixelcount l,
     0 ≤ depth l ≤ MAX_ITER →
     ∃ l', bounce_loop (Z.to_nat (MAX_ITER - depth l)) use_bvh sm fuel sc iter pixelcount
             gui l = Some l' ∧
           depth l ≤ depth l' ≤ MAX_ITER ∧ loop_guard l' = false) ∧
  (∀ cam x y, remainingBounces (camera_segment cam iter (traceDepth sc) x y) = traceDepth sc) ∧
  (∀ n : nat,
     both (λ r1 r2, same_loop_but_bounces r1.1 r2.1 ∧ r1.2 = r2.2)
          (pathtrace_with use_bvh false n fuel sc iter gui d)
          (pathtrace_with use_bvh false n fuel (with_traceDepth sc td) iter gui d)) ∧
  (∃ r1 r2,
     pathtrace_with use_bvh false rounds fuel sc iter gui d = Some r1 ∧
     pathtrace_with use_bvh false rounds fuel (with_traceDepth sc td) iter gui d = Some r2 ∧
     same_loop_but_bounces r1.1 r2.1 ∧ r1.2 = r2.2 ∧
     0 ≤ depth r1.1 ≤ MAX_ITER ∧ loop_guard r1.1 = false).
Proof.
  intros Hk Hrounds.
  split; [apply loop_guard_spec|]. split.
  { intros pixelcount l [Hn _ _ _ _ _]. rewrite loop_guard_spec. lia. }
  split.
  { intros cam. apply loop_start_sized. }
  split.
  { intros pixelcount l b l' Hs Hg Hr.
    by apply (bounce_round_sized use_bvh fuel sc iter pixelcount gui
                (dev_image (dev l)) l b l' Hs). }
  split.
  { intros sm pixelcount l b l' Hd Hr. apply bounce_round_depth in Hr.
    rewrite Hr. apply add32_small. unfold MAX_ITER in Hd. lia. }
  split.
  { intros n sm pixelcount l Hg. destruct n; simpl; by rewrite Hg. }
  split.
  { intros n sm pixelcount l Hg. simpl. by rewrite Hg. }
  split.
  { intros n sm pixelcount l0 l. apply bounce_loop_exit. }
  split.
  { intros sm pixelcount k l Hd. by apply bounce_loop_capped. }
  split.
  { intros sm pixelcount l Hd.
    destruct (bounce_loop_returns use_bvh sm fuel sc iter pixelcount gui
                (Z.to_nat (MAX_ITER - depth l)) l Hk Hd ltac:(lia)) as (l' & Hl' & Hdl').
    exists l'. split; [done|]. split; [done|]. by eapply bounce_loop_exit. }
  split; [done|]. split; [intros n; apply pathtrace_same|].
  destruct (pathtrace_with_returns use_bvh false rounds fuel sc iter gui d Hk Hrounds)
    as (l1 & image1 & Hr1 & Hd1 & Hg1).
  destruct (pathtrace_with_returns use_bvh false rounds fuel (with_traceDepth sc td) iter gui d
              (kernels_return_traceDepth _ _ _ td Hk) Hrounds)
    as (l2 & image2 & Hr2 & _).
  pose proof (pathtrace_same use_bvh rounds fuel sc iter gui d td) as Hsame.
  rewrite Hr1, Hr2 in Hsame. destruct Hsame as [Hs1 Hs2].
  exists (l1, image1), (l2, image2).
  split; [done|]. split; [done|]. split; [exact Hs1|]. split; [exact Hs2|]. by split.
Qed.
End LoopClaim.

(** * A scene with nothing to hit *)

Section NothingToHit.
Context `{Stray} `{Uninit} `{SceneStructs} `{Intersections} `{Interactions}
        `{Utilities} `{Thrust}.

Lemma lanes_all_clear {S} (fl : S → list Z) (body : Z → S → option S) (n : Z) (k : nat) s :
  (∀ i s, 0 ≤ i →
          ∃ s', body i s = Some s' ∧ fl s' = if i <? n then wr (fl s) i 0 else fl s) →
  ∃ s', loopM body (seqZ 0 (Z.of_nat k)) s = Some s' ∧
        length (fl s') = length (fl s) ∧
        ∀ j : nat, Z.of_nat j < Z.min (Z.of_nat k) n → (j < length (fl s))%nat →
                   fl s' !! j = Some 0.
Proof.
  intros Hbody. induction k as [|k (s1 & Hrun & Hlen & Hj)].
  - exists s. split; [done|]. split; [done|]. intros; lia.
  - rewrite seqZ_snoc, loopM_app, Hrun. cbn [mbind option_bind loopM].
    destruct (Hbody (Z.of_nat k) s1 ltac:(lia)) as (s2 & -> & Hfl).
    exists s2. split; [done|]. rewrite Hfl.
    destruct (Z.ltb_spec (Z.of_nat k) n) as [Hkn|Hkn].
    + split; [by rewrite length_wr|]. intros j Hjk Hjl. rewrite wr_of_nat.
      destruct (decide (j = k)) as [-> | Hne].
      * apply list_lookup_insert_eq. lia.
      * rewrite list_lookup_insert_ne by done. apply Hj; lia.
    + split; [done|]. intros j Hjk Hjl. apply Hj; lia.
Qed.

(** Below a box the ray does not enter the descent tests nothing. *)
Lemma visit_prims_missed arr r tr :
  boundingBoxIntersectionTest (bbox (rd stray_node arr (tree_root tr))) r = false →
  visit_prims arr r tr = [].
Proof. intros Hb. destruct tr; simpl in *; by rewrite Hb. Qed.

Lemma trace_bounce_none_hit use_bvh fuel sc blocks n d :
  nothing_to_hit use_bvh fuel sc →
  (∀ i, 0 ≤ i < n → origin (ray (rd stray_path (dev_paths1 d) i)) = position (camera sc)) →
  0 ≤ n ≤ blocks * blockSize1d → n ≤ Z.of_nat (length (rayValid d)) →
  ∃ d1, trace_bounce use_bvh fuel sc blocks n d = Some d1 ∧
        dev_image d1 = dev_image d ∧ dev_paths1 d1 = dev_paths1 d ∧
        dev_paths2 d1 = dev_paths2 d ∧
        length (dev_intersections1 d1) = length (dev_intersections1 d) ∧
        dev_intersections2 d1 = dev_intersections2 d ∧ rayIndex d1 = rayIndex d ∧
        length (rayValid d1) = length (rayValid d) ∧
        take (Z.to_nat n) (rayValid d1) = replicate (Z.to_nat n) 0.
Proof.
  intros Hnone Hori Hn Hlen. unfold trace_bounce, launch1d.
  rewrite <- (Z2Nat.id (blocks * blockSize1d)) by lia.
  match goal with |- context [loopM ?body _ ?s0] =>
    destruct (lanes_all_clear snd body n (Z.to_nat (blocks * blockSize1d)) s0)
      as (out & Hrun & Hl & Hj)
  end.
  { intros i [ints flags] Hi. destruct use_bvh; unfold nothing_to_hit in Hnone.
    - destruct Hnone as (l & r' & Hshape & Hfuel & Hmiss).
      apply bvh_shape_tree_in in Hshape as [Hin _].
      unfold compute_intersection_bvh_stackless.
      destruct (Z.leb_spec n i), (Z.ltb_spec i n); try lia; [by eexists|].
      rewrite (bvh_walk_tested (bvhArray sc) (primitives sc) (objects sc) (triangles sc)
                 (verticies sc) _ l r' fuel Hin Hfuel).
      destruct (Hmiss (ray (rd stray_path (dev_paths1 d) i)) (Hori i ltac:(lia)))
        as [Hml Hmr].
      unfold visit_children.
      rewrite (visit_prims_missed _ _ l Hml), (visit_prims_missed _ _ r' Hmr).
      destruct (_ =? _); cbn [mbind option_bind app tested foldl bvh_start intersected fst];
        by eexists.
    - unfold compute_intersection. rewrite Hnone.
      destruct (Z.ltb_spec i n); [|by eexists].
      unfold bf_scan. rewrite seqZ_nil by (simpl; lia). cbn [loopM mbind option_bind].
      cbn [bf_init bf_t_min]. rewrite feqb_FLT_MAX. by eexists. }
  pose proof Hrun as Hints.
  apply (loopM_keeps (λ st : list ShadeableIntersection * list Z, length st.1)) in Hints.
  2:{ intros a s s' Ha. destruct use_bvh.
      - by apply compute_intersection_bvh_flag in Ha as [-> _].
      - by apply compute_intersection_flag in Ha as [-> _]. }
  rewrite Hrun. cbn [mbind option_bind]. eexists. split; [reflexivity|].
  cbn [dev_image dev_paths1 dev_paths2 dev_intersections1 dev_intersections2 rayValid
       rayIndex snd fst] in *.
  do 3 (split; [done|]). split; [done|].
  do 3 (split; [done|]).
  apply list_eq. intros j.
  destruct (decide (j < Z.to_nat n)%nat) as [Hlt|Hge].
  - rewrite lookup_take_lt, lookup_replicate_2 by lia. apply Hj; lia.
  - rewrite lookup_take_ge by lia. symmetry. apply lookup_replicate_None. lia.
Qed.

Lemma zsum_replicate_0 (n : nat) : zsum (replicate n 0) = 0.
Proof. induction n as [|n IH]; simpl; [done|]. exact IH. Qed.

Lemma compact_rays_image d n sm : dev_image (compact_rays d n sm).2 = dev_image d.
Proof. unfold compact_rays. by destruct (if sm then _ else _). Qed.

End NothingToHit.

(** * What the scatter launch leaves alone *)

Section ScatterFrame.
Context `{Stray} `{Uninit} `{SceneStructs} `{Intersections} `{Interactions}
        `{Utilities} `{Thrust}.

Lemma drop_wr_below {A} (l : list A) (n : nat) i x :
  i < Z.of_nat n → drop n (wr l i x) = drop n l.
Proof.
  intros Hi. unfold wr. destruct (Z.leb_spec 0 i); [|done].
  apply drop_insert_lt. lia.
Qed.

Lemma scatter_lane_kept iter n inters mats i o :
  scatter_kept n (scatter_on_intersection iter n inters mats i o) = scatter_kept n o.
Proof.
  unfold scatter_on_intersection, scatter_kept.
  destruct (Z.leb_spec n i) as [|Hi]; [done|].
  assert (Hin : i < Z.of_nat (Z.to_nat n)) by lia.
  destruct (decide _).
  - cbn [so_paths so_rayValid so_image].
    rewrite (wr_same_field pixelIndex stray_path) by done.
    rewrite (wr_same_field remainingBounces stray_path) by done.
    rewrite !length_wr, !drop_wr_below by done.
    destruct (negb _); [|done]. unfold image_add. by rewrite length_wr.
  - destruct (util_math_get_TBN _) as [T B].
    destruct (fltb f_zero _); cbn [so_paths so_rayValid so_image].
    + rewrite (wr_same_field pixelIndex stray_path) by done.
      rewrite (wr_same_field remainingBounces stray_path) by done.
      by rewrite !length_wr, !drop_wr_below by done.
    + by rewrite !length_wr, !drop_wr_below by done.
Qed.

(** X9.  The scatter launch always returns.  It changes no pixel index and no
    bounce counter, the size of no buffer, no path and no flag from lane
    [numRays] on, and nothing of the intersection records, the back
    buffers and the slot array. *)
Theorem scatter_launch_frame sc iter blocks n d :
  ∃ d', scatter_bounce sc iter blocks n d = Some d' ∧
        pixelIndex <$> dev_paths1 d' = pixelIndex <$> dev_paths1 d ∧
        remainingBounces <$> dev_paths1 d' = remainingBounces <$> dev_paths1 d ∧
        length (dev_paths1 d') = length (dev_paths1 d) ∧
        length (rayValid d') = length (rayValid d) ∧
        length (dev_image d') = length (dev_image d) ∧
        drop (Z.to_nat n) (dev_paths1 d') = drop (Z.to_nat n) (dev_paths1 d) ∧
        drop (Z.to_nat n) (rayValid d') = drop (Z.to_nat n) (rayValid d) ∧
        dev_intersections1 d' = dev_intersections1 d ∧
        dev_intersections2 d' = dev_intersections2 d ∧
        dev_paths2 d' = dev_paths2 d ∧ rayIndex d' = rayIndex d.
Proof.
  unfold scatter_bounce, launch1d.
  destruct (loopM _ _ _) as [o|] eqn:Hrun.
  2:{ rewrite loopM_total in Hrun. done. }
  cbn [mbind option_bind]. eexists. split; [reflexivity|].
  apply (loopM_keeps (scatter_kept n)) in Hrun.
  2:{ intros a s s' [= <-]. apply scatter_lane_kept. }
  unfold scatter_kept in Hrun. cbn [so_paths so_rayValid so_image] in Hrun.
  injection Hrun as Hpix Hrem Hlp Hlv Hli Hdp Hdv.
  cbn [dev_paths1 dev_paths2 dev_intersections1 dev_intersections2 rayValid rayIndex
       dev_image].
  by repeat split.
Qed.
End ScatterFrame.

(** * Compaction keeps paths and records together *)

Section CompactPairs.
Context `{Stray} `{Thrust}.

Lemma survivors_zip {A B} (fs : list Z) : ∀ (xs : list A) (ys : list B),
  survivors fs (zip xs ys) = zip (survivors fs xs) (survivors fs ys).
Proof.
  induction fs as [|f fs IH]; intros [|x xs] [|y ys]; simpl; try done.
  - by destruct (f =? 0), (survivors fs xs).
  - destruct (f =? 0); simpl; by rewrite IH.
Qed.

Lemma survivors_none {A} (fs : list Z) : ∀ xs : list A,
  Forall (λ f, f = 0) fs → survivors fs xs = [].
Proof.
  induction fs as [|f fs IH]; intros [|x xs] Hfs; simpl; try done.
  inversion Hfs as [|?? Hf Hrest]; subst. simpl. by apply IH.
Qed.

(** X10.  After a compaction without sort the front of the two current buffers
    holds, lane by lane, the path and the record of the same surviving
    lane, in the old order; behind the front the buffers hold what the
    back buffers held; the old current buffers become the back buffers;
    and when every flag is 0 the count is 0. *)
Theorem compact_keeps_pairs d n :
  compactable d n →
  let r := compact_rays d n false in
  let flags := take (Z.to_nat n) (rayValid d) in
  let count := Z.to_nat r.1 in
  zip (take count (dev_paths1 r.2)) (take count (dev_intersections1 r.2))
  = survivors flags (zip (dev_paths1 d) (dev_intersections1 d)) ∧
  drop count (dev_paths1 r.2) = drop count (dev_paths2 d) ∧
  drop count (dev_intersections1 r.2) = drop count (dev_intersections2 d) ∧
  dev_paths2 r.2 = dev_paths1 d ∧
  dev_intersections2 r.2 = dev_intersections1 d ∧
  (Forall (λ f, f = 0) flags → r.1 = 0).
Proof.
  intros Hc r flags count. pose proof Hc as [].
  pose proof (compact_count d n false Hc) as Hcount. fold r flags in Hcount.
  destruct (compact_rays_survivors d n Hc) as [Hp Hs]. fold r flags in Hp, Hs.
  destruct (compact_flags_take d n Hc) as [Hf Hfl]. fold flags in Hf, Hfl.
  pose proof (length_survivors flags (dev_paths1 d) Hf ltac:(lia)) as Hlp.
  pose proof (length_survivors flags (dev_intersections1 d) Hf ltac:(lia)) as Hls.
  assert (Hcp : count = length (survivors flags (dev_paths1 d))) by (unfold count; lia).
  assert (Hcs : count = length (survivors flags (dev_intersections1 d)))
    by (unfold count; lia).
  split; [|split; [|split; [|split; [|split]]]]; try done.
  - rewrite Hp, Hs, survivors_zip.
    by rewrite (take_app_length' _ _ count Hcp), (take_app_length' _ _ count Hcs).
  - rewrite Hp, (drop_app_length' _ _ count Hcp). by rewrite Hcp.
  - rewrite Hs, (drop_app_length' _ _ count Hcs). by rewrite Hcs.
  - intros Hzero. rewrite Hcount.
    rewrite <- (length_survivors flags (dev_paths1 d) Hf) by lia.
    by rewrite survivors_none.
Qed.
End CompactPairs.

(** * One round of the loop *)

Section RoundShrinks.
Context `{Stray} `{Uninit} `{SceneStructs} `{Intersections} `{Interactions}
        `{Utilities} `{Thrust}.

(** X11.  A round of the loop (in the build without material sort) adds one to
    the depth and never adds a path: the pixels of the paths it leaves
    active are, in the same order, among the pixels of the paths that were
    active, so the count does not grow.  A round left by the [break]
    leaves no path and has not touched the image or the traced depth. *)
Theorem bounce_round_shrinks use_bvh fuel sc iter pc gui l b l' :
  loop_sized pc l → 0 ≤ depth l → loop_guard l = true →
  bounce_round use_bvh false fuel sc iter pc gui l = Some (b, l') →
  depth l' = depth l + 1 ∧
  0 ≤ numRays l' ≤ numRays l ∧
  pixelIndex <$> active_paths l' `sublist_of` pixelIndex <$> active_paths l ∧
  (b = true →
   numRays l' = 0 ∧ dev_image (dev l') = dev_image (dev l) ∧ TracedDepth l' = TracedDepth l).
Proof.
  intros [Hcnt Hmax' Hal Hv Hi Hpx] Hdepth Hg Hround.
  pose proof (bounce_round_depth _ _ _ _ _ _ _ _ _ _ Hround) as Hd.
  apply loop_guard_spec in Hg as [Hne Hlt].
  rewrite add32_small in Hd by (unfold MAX_ITER in Hlt; lia).
  split; [done|]. clear Hd. revert Hround.
  assert (Hmax : pc ≤ INT_MAX) by (unfold blockSize1d in Hmax'; lia).
  unfold bounce_round, active_paths.
  set (d0 := clear_intersections pc (dev l)).
  set (blocks := blocks1d (numRays l)).
  pose proof (launch_blocks_cover (numRays l) ltac:(lia)) as Hcover. fold blocks in Hcover.
  destruct Hal as [Ha1 Ha2 Ha3 Ha4 Ha5].
  assert (Hal0 : allocated pc d0).
  { constructor; try done. unfold d0, clear_intersections. simpl.
    rewrite length_app, length_replicate, length_drop. lia. }
  destruct (trace_bounce use_bvh fuel sc blocks (numRays l) d0) as [d1|] eqn:Ht; [|done].
  cbn [mbind option_bind].
  apply trace_bounce_sized in Ht as (Ti & Tp1 & Tp2 & Ti2 & Tx & Tl1 & Tlv & T01);
    [|lia|simpl; lia].
  destruct Hal0 as [Hb1 Hb2 Hb3 Hb4 Hb5].
  assert (Hal1 : allocated pc d1).
  { constructor; congruence. }
  assert (Hv1 : Z.of_nat (length (rayValid d1)) = pc).
  { rewrite Tlv. exact Hv. }
  assert (Hi1 : Z.of_nat (length (rayIndex d1)) = pc).
  { rewrite Tx. exact Hi. }
  pose proof (compact_rays_sized pc d1 (numRays l) ltac:(lia) Hmax Hal1 Hv1 Hi1 T01) as Hc1.
  destruct (compact_rays d1 (numRays l) false) as [n2 d2]. simpl in Hc1. cbv beta iota.
  destruct Hc1 as (Hn2 & Hal2 & Hv2 & Hi2 & Him2 & Hsv2).
  assert (Hsub2 : pixelIndex <$> take (Z.to_nat n2) (dev_paths1 d2)
                  `sublist_of` pixelIndex <$> take (Z.to_nat (numRays l)) (dev_paths1 (dev l))).
  { rewrite Hsv2. apply fmap_sublist.
    etrans; [apply survivors_sublist|]. rewrite Tp1.
    rewrite length_take.
    replace (Z.to_nat (numRays l) `min` length (rayValid d1))%nat
      with (Z.to_nat (numRays l)) by lia.
    done. }
  destruct (n2 =? 0) eqn:Hn2ne.
  { apply Z.eqb_eq in Hn2ne. intros [= <- <-]. cbn [numRays dev TracedDepth].
    split; [lia|]. split; [done|]. intros _. by rewrite Him2, Ti. }
  apply Z.eqb_neq in Hn2ne.
  destruct (scatter_bounce sc iter blocks n2 d2) as [d3|] eqn:Hsc; [|done].
  cbn [mbind option_bind].
  apply scatter_bounce_sized in Hsc as (Sp2 & Si1 & Si2 & Sx & Spx & Sli & Slv & S01);
    [|lia|lia].
  destruct Hal2 as [Hc1 Hc2 Hc3 Hc4 Hc5].
  assert (Hl3 : length (dev_paths1 d3) = length (dev_paths1 d2)).
  { apply (f_equal length) in Spx. by rewrite !length_fmap in Spx. }
  assert (Hal3 : allocated pc d3).
  { constructor; congruence. }
  pose proof (compact_rays_sized pc d3 n2 ltac:(lia) Hmax Hal3
                ltac:(lia) ltac:(rewrite Sx; lia) S01) as Hc3'.
  destruct (compact_rays d3 n2 false) as [n4 d4]. simpl in Hc3'. cbv beta iota.
  destruct Hc3' as (Hn4 & Hal4 & Hv4 & Hi4 & Him4 & Hsv4).
  assert (Hpix3 : pixelIndex <$> take (Z.to_nat n2) (dev_paths1 d3)
                  = pixelIndex <$> take (Z.to_nat n2) (dev_paths1 d2)).
  { by rewrite !fmap_take, Spx. }
  intros [= <- <-]. cbn [numRays dev TracedDepth].
  split; [lia|]. split; [|done].
  etrans; [|exact Hsub2]. rewrite Hsv4, <- Hpix3.
  apply fmap_sublist. etrans; [apply survivors_sublist|].
  rewrite length_take.
  by replace (Z.to_nat n2 `min` length (rayValid d3))%nat with (Z.to_nat n2) by lia.
Qed.
End RoundShrinks.

(** * The generated paths *)

Section GeneratedPaths.
Context `{Utilities} `{Thrust}.

(** X12.  A generation launch over a buffer of one entry per pixel returns a
    buffer of the same size with one path per pixel, in pixel order, each
    with throughput (1, 1, 1), the camera position as its origin and the
    trace depth as its bounce counter. *)
Theorem generation_one_ray_per_pixel cam iter td p :
  0 < resolution_x cam → 0 < resolution_y cam →
  resolution_x cam * resolution_y cam ≤ INT_MAX →
  Z.of_nat (length p) = resolution_x cam * resolution_y cam →
  ∃ paths, generate_launch cam iter td p = Some paths ∧
           length paths = length p ∧
           pixelIndex <$> paths = seqZ 0 (resolution_x cam * resolution_y cam) ∧
           Forall (λ s, color s = vec3_splat f_one ∧ origin (ray s) = position cam ∧
                        remainingBounces s = td) paths.
Proof.
  intros Hw Hh Hmax Hlen. exists (generated cam iter td).
  split; [by apply (generate_launch_generated cam iter td (λ _, camera_segment cam iter td 0 0))|].
  split; [|split].
  - unfold generated. rewrite length_fmap, length_seqZ. lia.
  - by apply generated_pixels.
  - unfold generated. apply Forall_fmap, Forall_forall. by intros i _.
Qed.

Lemma blocks2d_none n : -8 < n ≤ 0 → blocks2d n = 0.
Proof.
  intros Hn. unfold blocks2d, to_u32. rewrite Z.mod_small by lia.
  apply Z.quot_small. lia.
Qed.

(** The lane coordinates of a grid over a resolution of at most
    [INT_MAX - 7] are ints. *)
Lemma grid_lanes_int n x :
  0 ≤ n ≤ INT_MAX - 7 → x ∈ seqZ 0 (blocks2d n * 8) → wrap32 x = x.
Proof.
  intros Hn Hx. apply elem_of_seqZ in Hx. unfold INT_MAX in Hn.
  assert (Hb : blocks2d n * 8 ≤ n + 7).
  { unfold blocks2d, to_u32. rewrite Z.mod_small by lia.
    rewrite Z.quot_div_nonneg by lia.
    pose proof (Z.mul_div_le (n + 8 - 1) 8 ltac:(lia)). lia. }
  apply wrap32_id. lia.
Qed.

(** X13.  With a resolution of zero, or of a negative value above -8, in
    one direction the grid of the generation launch has no block in that
    direction: no lane runs and the buffer is returned as it was. *)
Theorem generation_without_pixels cam iter td p :
  -8 < resolution_x cam ≤ 0 ∨ -8 < resolution_y cam ≤ 0 →
  (blocks2d (resolution_x cam) = 0 ∨ blocks2d (resolution_y cam) = 0) ∧
  generate_launch cam iter td p = Some p.
Proof.
  intros Hres.
  assert (Hgrid : blocks2d (resolution_x cam) = 0 ∨ blocks2d (resolution_y cam) = 0).
  { destruct Hres as [Hx | Hy]; [left | right]; by apply blocks2d_none. }
  split; [done|]. unfold generate_launch, launch2d.
  destruct Hgrid as [-> | ->]; [|done].
  apply loopM_idle. intros y s0 Hy. reflexivity.
Qed.
End GeneratedPaths.

(** * The buffers from call to call *)

Section Buffers.
Context `{Stray} `{Uninit} `{SceneStructs} `{Intersections} `{Interactions}
        `{Utilities} `{Thrust}.

(** X14.  [pathtraceInit] leaves buffers of one entry per pixel with a black
    image, and an iteration of [pathtrace] (in the build without material
    sort) that starts from such buffers leaves such buffers: the calls can
    follow one another. *)
Theorem pathtrace_keeps_buffers sc :
  0 < resolution_x (camera sc) → 0 < resolution_y (camera sc) →
  resolution_x (camera sc) * resolution_y (camera sc) ≤ INT_MAX - blockSize1d →
  let pixelcount := resolution_x (camera sc) * resolution_y (camera sc) in
  allocated pixelcount (pathtraceInit sc) ∧
  Forall (λ pix, pix = zero_vec3) (dev_image (pathtraceInit sc)) ∧
  ∀ use_bvh rounds fuel iter gui d r,
    allocated pixelcount d →
    pathtrace_with use_bvh false rounds fuel sc iter gui d = Some r →
    allocated pixelcount (pathtrace_device r).
Proof.
  intros Hw Hh Hmax pixelcount.
  assert (Hpc : 0 < pixelcount) by (unfold pixelcount; nia).
  split; [|split].
  - unfold pathtraceInit. cbv zeta. fold pixelcount.
    rewrite wrap32_id by (unfold INT_MAX, blockSize1d in Hmax; lia).
    constructor; cbn [dev_image dev_paths1 dev_paths2 dev_intersections1 dev_intersections2];
      rewrite ?length_replicate, ?length_map, ?length_seqZ; lia.
  - unfold pathtraceInit. cbv zeta. cbn [dev_image]. by apply Forall_replicate.
  - intros use_bvh rounds fuel iter gui d [l image] Hal Hrun.
    destruct (pathtrace_loop_sized _ _ _ _ _ _ _ _ _ Hw Hh Hmax Hal Hrun)
      as ([Hcnt _ [Hi Hp1 Hp2 Hi1 Hi2] _ _ _] & _ & _ & Hgather).
    rewrite gather_fold in Hgather by (fold pixelcount; lia). injection Hgather as <-.
    constructor; cbn [pathtrace_device dev_image dev_paths1 dev_paths2 dev_intersections1
                      dev_intersections2 fst snd]; try done.
    by rewrite length_gather_fold.
Qed.
End Buffers.

(** * The guard against NaN *)

Section NanGuard.
Context `{Stray}.

(** X15.  The gather checks the throughput it adds, not the sum it stores: a
    lane of [finalGather] adds a throughput without a NaN component to its
    pixel whatever the pixel holds, so a pixel at plus infinity that
    receives minus infinity holds a NaN afterwards. *)
Theorem nan_guard_checks_contribution nPaths paths index image :
  index < nPaths →
  let p := rd stray_path paths index in
  0 ≤ pixelIndex p < Z.of_nat (length image) →
  util_math_is_nan (color p) = false →
  let image' := finalGather nPaths paths index image in
  rd stray_pixel image' (pixelIndex p) = vadd (rd stray_pixel image (pixelIndex p)) (color p) ∧
  (vx (rd stray_pixel image (pixelIndex p)) = S754_infinity false →
   vx (color p) = S754_infinity true →
   util_math_is_nan (rd stray_pixel image' (pixelIndex p)) = true).
Proof.
  intros Hlane p Hrange Hok image'.
  assert (Hadd : rd stray_pixel image' (pixelIndex p)
                 = vadd (rd stray_pixel image (pixelIndex p)) (color p)).
  { unfold image', finalGather. apply Z.ltb_lt in Hlane. rewrite Hlane.
    fold p. rewrite Hok. cbn [negb]. unfold image_add. by apply rd_wr_eq. }
  split; [done|]. intros Hinf Hneg. rewrite Hadd.
  apply util_math_is_nan_spec. left. unfold vadd. cbn [vx]. by rewrite Hinf, Hneg.
Qed.
End NanGuard.

(** * What the intersection launch leaves alone *)

Section TraceFrame.
Context `{Stray} `{Uninit} `{SceneStructs} `{Intersections} `{Interactions}
        `{Utilities} `{Thrust}.

Lemma intersection_lane_kept (use_bvh : bool) fuel sc paths n i s s' :
  (if use_bvh then
     compute_intersection_bvh_stackless fuel n paths (materials sc) (objects sc)
       (triangles sc) (verticies sc) (primitives sc) (bvhArray sc)
       (Z.of_nat (length (bvhArray sc))) i s
   else
     compute_intersection n paths (objects sc) (Z.of_nat (length (objects sc)))
       (triangles sc) (verticies sc) i s) = Some s' →
  trace_kept n s' = trace_kept n s.
Proof.
  destruct s as [ints flags]. unfold trace_kept. destruct use_bvh.
  - unfold compute_intersection_bvh_stackless.
    destruct (Z.leb_spec n i) as [|Hi]; [by intros [= <-]|].
    destruct (bvh_walk _ _ _ _ _ _ _ _ _) as [w|]; [|done]. cbn [mbind option_bind].
    destruct (intersected w); intros [= <-]; cbn [fst snd];
      by rewrite ?length_wr, ?drop_wr_below by lia.
  - unfold compute_intersection.
    destruct (Z.ltb_spec i n) as [Hi|]; [|by intros [= <-]].
    destruct (bf_scan _ _ _ _ _) as [st|]; [|done]. cbn [mbind option_bind].
    destruct (feqb _ _); intros [= <-]; cbn [fst snd];
      by rewrite ?length_wr, ?drop_wr_below by lia.
Qed.

(** X16.  An intersection launch that returns has changed nothing but the
    current intersection records and the flags, and of these neither the
    sizes nor the entries from lane [numRays] on; the brute-force launch
    has changed no type tag either. *)
Theorem trace_launch_frame use_bvh fuel sc blocks n d d' :
  trace_bounce use_bvh fuel sc blocks n d = Some d' →
  dev_image d' = dev_image d ∧ dev_paths1 d' = dev_paths1 d ∧
  dev_paths2 d' = dev_paths2 d ∧ dev_intersections2 d' = dev_intersections2 d ∧
  rayIndex d' = rayIndex d ∧
  length (dev_intersections1 d') = length (dev_intersections1 d) ∧
  length (rayValid d') = length (rayValid d) ∧
  drop (Z.to_nat n) (dev_intersections1 d') = drop (Z.to_nat n) (dev_intersections1 d) ∧
  drop (Z.to_nat n) (rayValid d') = drop (Z.to_nat n) (rayValid d) ∧
  (use_bvh = false → type <$> dev_intersections1 d' = type <$> dev_intersections1 d).
Proof.
  unfold trace_bounce, launch1d.
  destruct (loopM _ _ _) as [out|] eqn:Hrun; [|done]. cbn [mbind option_bind].
  intros [= <-].
  cbn [dev_image dev_paths1 dev_paths2 dev_intersections1 dev_intersections2 rayValid
       rayIndex].
  do 5 (split; [done|]).
  pose proof Hrun as Hkept.
  apply (loopM_keeps (trace_kept n)) in Hkept.
  2:{ intros a s s' Ha. apply (intersection_lane_kept use_bvh fuel sc (dev_paths1 d) n a).
      by destruct use_bvh. }
  unfold trace_kept in Hkept. cbn [fst snd] in Hkept.
  injection Hkept as Hl1 Hl2 Hd1 Hd2.
  do 4 (split; [done|]).
  intros ->. by apply compute_intersection_lanes in Hrun.
Qed.
End TraceFrame.

(** * The traced depth *)

Section TracedDepth.
Context `{Stray} `{Uninit} `{SceneStructs} `{Intersections} `{Interactions}
        `{Utilities} `{Thrust}.

Lemma bounce_round_traced use_bvh sm fuel sc iter pc gui l b l' :
  bounce_round use_bvh sm fuel sc iter pc gui l = Some (b, l') →
  if b then TracedDepth l' = TracedDepth l ∧ numRays l' = 0
  else TracedDepth l' = if gui then Some (add32 (depth l) 1) else TracedDepth l.
Proof.
  unfold bounce_round.
  destruct (trace_bounce _ _ _ _ _ _) as [d1|]; [|done]. cbn [mbind option_bind].
  destruct (compact_rays d1 (numRays l) sm) as [n2 d2].
  destruct (Z.eqb_spec n2 0) as [-> | _]; [by intros [= <- <-]|].
  destruct (scatter_bounce _ _ _ _ _) as [d3|]; [|done]. cbn [mbind option_bind].
  destruct (compact_rays d3 n2 false). by intros [= <- <-].
Qed.

(** A loop that returns has run some rounds with the scatter kernel, each
    of which has written its depth as traced depth, and has then been left
    by its guard or, one round later, by the [break]. *)
Lemma bounce_loop_rounds use_bvh sm fuel sc iter pc (gui : bool) (rounds : nat) : ∀ l l',
  0 ≤ depth l ≤ MAX_ITER →
  TracedDepth l = (if gui then traced_after (depth l) else None) →
  bounce_loop rounds use_bvh sm fuel sc iter pc gui l = Some l' →
  ∃ (k : nat) lp,
    loop_rounds use_bvh sm fuel sc iter pc gui k l lp ∧
    depth lp = depth l + Z.of_nat k ∧ depth lp ≤ MAX_ITER ∧
    TracedDepth lp = (if gui then traced_after (depth lp) else None) ∧
    ((l' = lp ∧ loop_guard lp = false) ∨
     (loop_guard lp = true ∧
      bounce_round use_bvh sm fuel sc iter pc gui lp = Some (true, l') ∧
      depth l' = depth lp + 1 ∧ numRays l' = 0 ∧ TracedDepth l' = TracedDepth lp)).
Proof.
  induction rounds as [|rounds IH]; intros l l' Hd Ht; cbn [bounce_loop].
  - destruct (loop_guard l) eqn:Hg; [done|]. intros [= <-].
    exists 0%nat, l. split; [constructor|]. split; [lia|]. split; [lia|]. split; [done|].
    by left.
  - destruct (loop_guard l) eqn:Hg.
    2:{ intros [= <-]. exists 0%nat, l. split; [constructor|]. split; [lia|].
        split; [lia|]. split; [done|]. by left. }
    pose proof Hg as Hg'. apply loop_guard_spec in Hg' as [_ Hlt].
    destruct (bounce_round use_bvh sm fuel sc iter pc gui l) as [[b l1]|] eqn:Hround;
      [|done].
    pose proof (bounce_round_depth _ _ _ _ _ _ _ _ _ _ Hround) as Hd1.
    rewrite add32_small in Hd1 by (unfold MAX_ITER in *; lia).
    pose proof (bounce_round_traced _ _ _ _ _ _ _ _ _ _ Hround) as Htr.
    destruct b.
    + destruct Htr as [Htr Hn]. intros [= <-].
      exists 0%nat, l. split; [constructor|]. split; [lia|]. split; [lia|].
      split; [done|]. right. by repeat split.
    + rewrite add32_small in Htr by (unfold MAX_ITER in *; lia).
      intros Hloop.
      destruct (IH l1 l' ltac:(lia)) as (k & lp & Hk & Hdk & Hcap & Htk & Hcases);
        [|done|].
      { rewrite Htr, Hd1. destruct gui; [|done]. unfold traced_after.
        destruct (Z.eqb_spec (depth l + 1) 0); [lia | done]. }
      exists (S k), lp. split; [by econstructor|]. split; [lia|]. by repeat split.
Qed.

(** X17.  The traced depth passed to the GUI counts the rounds that ran the
    scatter kernel.  An iteration that returns has run [k] such rounds from
    the start of its loop, at most [MAX_ITER], reaching a state of depth
    [k]; the loop was then left by its guard, in that state, or by the
    [break] of one more round, which leaves depth [k + 1] and no path.
    Either way the traced depth is [k] with a GUI, unwritten for [k = 0],
    and never written without one. *)
Theorem traced_depth_counts_scatter_rounds use_bvh sm rounds fuel sc iter gui d l image :
  pathtrace_with use_bvh sm rounds fuel sc iter gui d = Some (l, image) →
  let pixelcount := wrap32 (resolution_x (camera sc) * resolution_y (camera sc)) in
  ∃ paths (k : nat) lp,
    generate_launch (camera sc) iter (traceDepth sc) (dev_paths1 d) = Some paths ∧
    loop_rounds use_bvh sm fuel sc iter pixelcount gui k (loop_start pixelcount d paths) lp ∧
    depth lp = Z.of_nat k ∧ Z.of_nat k ≤ MAX_ITER ∧
    TracedDepth l = (if gui then traced_after (Z.of_nat k) else None) ∧
    ((l = lp ∧ loop_guard l = false) ∨
     (loop_guard lp = true ∧
      bounce_round use_bvh sm fuel sc iter pixelcount gui lp = Some (true, l) ∧
      depth l = Z.of_nat k + 1 ∧ numRays l = 0)).
Proof.
  unfold pathtrace_with. cbv zeta.
  destruct (generate_launch _ _ _ _) as [paths|]; [|done]. cbn [mbind option_bind].
  destruct (bounce_loop _ _ _ _ _ _ _ _ _) as [l'|] eqn:Hloop; [|done].
  cbn [mbind option_bind].
  destruct (gather l') as [img|]; [|done]. cbn [mbind option_bind]. intros [= <- <-].
  apply bounce_loop_rounds in Hloop
    as (k & lp & Hk & Hdk & Hcap & Htk & Hcases);
    [|cbn [loop_start depth]; unfold MAX_ITER; lia | cbn [loop_start depth TracedDepth];
      by destruct gui].
  cbn [loop_start depth] in Hdk. rewrite Z.add_0_l in Hdk.
  exists paths, k, lp. split; [done|]. split; [done|]. split; [done|].
  split; [by rewrite <- Hdk|]. rewrite <- Hdk.
  destruct Hcases as [[-> Hg] | (Hg & Hround & Hd & Hn & Ht)].
  - split; [done|]. by left.
  - split; [by rewrite Ht|]. right. by repeat split.
Qed.
End TracedDepth.

(** * Worked examples *)

Section Examples.
#[local] Existing Instance ex_stray.
#[local] Existing Instance ex_uninit.
#[local] Existing Instance ex_structs.
#[local] Existing Instance ex_intersections.
#[local] Existing Instance ex_interactions.
#[local] Existing Instance ex_utilities.
#[local] Existing Instance ex_thrust.

Example ex_bf_scan :
  (λ s, (bf_t_min s, bf_hit_material_index s))
    <$> bf_scan (objects ex_scene) 3 (triangles ex_scene) (verticies ex_scene) ex_ray
  = Some (f_of 2, 1).
Proof. vm_compute. reflexivity. Qed.

Example ex_bvh_walk :
  (λ w, (curr w, state w, intersected w, t (tmpIntersection w), materialId (tmpIntersection w)))
    <$> bvh_walk 9 (bvhArray ex_scene) 5 (primitives ex_scene) (objects ex_scene)
          (triangles ex_scene) (verticies ex_scene) ex_ray (bvh_start (bvhArray ex_scene) ex_ray)
  = Some (0, fromChild, true, f_of 2, 1).
Proof. vm_compute. reflexivity. Qed.

Lemma ex_scene_keys :
  bf_keys (objects ex_scene) = [(0, None); (1, None); (2, Some 0)] ∧
  prim_key (primitives ex_scene) (objects ex_scene)
    <$> tree_prims (bvhArray ex_scene) (BNode 0 (BLeaf 1) (BNode 2 (BLeaf 3) (BLeaf 4)))
  = [(0, None); (1, None); (2, Some 0)].
Proof. by vm_compute. Qed.

Lemma ex_scene_comparable :
  comparable ex_scene ex_ray (BLeaf 1) (BNode 2 (BLeaf 3) (BLeaf 4)).
Proof.
  destruct ex_scene_keys as [Hbf Hbvh].
  constructor; rewrite ?Hbf, ?Hbvh.
  - by vm_compute.
  - repeat constructor; simpl; intros; (discriminate || lia).
  - repeat constructor.
  - repeat constructor.
  - by vm_compute.
  - repeat (constructor; [by vm_compute|]). constructor.
  - repeat (constructor; [repeat (constructor; [by vm_compute|]); constructor|]).
    constructor.
Qed.

(** Witness of C1 (as amended): lane 0 of three paths over the example
    scene. *)
Lemma intersection_kernels_agree_witness :
  comparable ex_scene ex_ray (BLeaf 1) (BNode 2 (BLeaf 3) (BLeaf 4)) ∧
  ∃ out_bf out_bvh,
    compute_intersection 3 ex_paths (objects ex_scene)
      (Z.of_nat (length (objects ex_scene))) (triangles ex_scene) (verticies ex_scene) 0
      (replicate 3 ex_zero_record, [5; 5; 5]) = Some out_bf ∧
    compute_intersection_bvh_stackless 9 3 ex_paths (materials ex_scene) (objects ex_scene)
      (triangles ex_scene) (verticies ex_scene) (primitives ex_scene) (bvhArray ex_scene)
      (Z.of_nat (length (bvhArray ex_scene))) 0
      (replicate 3 ex_zero_record, [5; 5; 5]) = Some out_bvh ∧
    out_bf.2 = out_bvh.2 ∧
    record_hit <$> out_bf.1 = record_hit <$> out_bvh.1.
Proof.
  split; [exact ex_scene_comparable|].
  apply (intersection_kernels_agree ex_scene ex_ray (BLeaf 1) (BNode 2 (BLeaf 3) (BLeaf 4))
           9 3 ex_paths 0 (replicate 3 ex_zero_record) [5; 5; 5]).
  - exact ex_scene_comparable.
  - lia.
  - reflexivity.
  - simpl. lia.
Defined.

(** Counterexample to C1 as stated: a sphere and a box in the same place
    with different materials, under a well-formed BVH that holds both and
    whose boxes admit the ray.  Both kernels report a hit at [t = 2]; the
    brute-force kernel keeps the first object it scans, the sphere with
    material 1, the BVH kernel the primitive of the near leaf, the box with
    material 0. *)
Lemma coincident_hits_disagree :
  bvh_shape 3 (bvhArray ex_coincident) (-1) 0 = Some (BNode 0 (BLeaf 1) (BLeaf 2)) ∧
  bf_keys (objects ex_coincident) = [(0, None); (1, None)] ∧
  prim_key (primitives ex_coincident) (objects ex_coincident)
    <$> tree_prims (bvhArray ex_coincident) (BNode 0 (BLeaf 1) (BLeaf 2))
  = [(1, None); (0, None)] ∧
  boxes_admit (bvhArray ex_coincident) (primitives ex_coincident) (objects ex_coincident)
    (triangles ex_coincident) (verticies ex_coincident) ex_ray (BLeaf 1)
  && boxes_admit (bvhArray ex_coincident) (primitives ex_coincident) (objects ex_coincident)
       (triangles ex_coincident) (verticies ex_coincident) ex_ray (BLeaf 2) = true ∧
  lane_view <$> compute_intersection 3 ex_paths (objects ex_coincident) 2
                  (triangles ex_coincident) (verticies ex_coincident) 0
                  (replicate 3 ex_zero_record, [5; 5; 5])
  = Some ([(f_of 2, 1); (f_zero, 0); (f_zero, 0)], [1; 5; 5]) ∧
  lane_view <$> compute_intersection_bvh_stackless 9 3 ex_paths (materials ex_coincident)
                  (objects ex_coincident) (triangles ex_coincident) (verticies ex_coincident)
                  (primitives ex_coincident) (bvhArray ex_coincident) 3 0
                  (replicate 3 ex_zero_record, [5; 5; 5])
  = Some ([(f_of 2, 0); (f_zero, 0); (f_zero, 0)], [1; 5; 5]).
Proof. repeat split; by vm_compute. Qed.

(** The other conditions of [comparable] are needed as well.  A BVH whose
    root is its only node satisfies the data-model invariants, holds the
    scene's one primitive and admits the ray, yet the BVH kernel, however
    many rounds it is allowed, reports a miss where the brute-force kernel
    reports the hit. *)
Lemma root_leaf_bvh_disagrees :
  bvh_shape 1 (bvhArray ex_single) (-1) 0 = Some (BLeaf 0) ∧
  prim_key (primitives ex_single) (objects ex_single)
    <$> tree_prims (bvhArray ex_single) (BLeaf 0) = bf_keys (objects ex_single) ∧
  boxes_admit (bvhArray ex_single) (primitives ex_single) (objects ex_single)
    (triangles ex_single) (verticies ex_single) ex_ray (BLeaf 0) = true ∧
  snd <$> compute_intersection 3 ex_paths (objects ex_single) 1 (triangles ex_single)
            (verticies ex_single) 0 (replicate 3 ex_zero_record, [5; 5; 5])
    = Some [1; 5; 5] ∧
  ∀ fuel,
    snd <$> compute_intersection_bvh_stackless fuel 3 ex_paths (materials ex_single)
              (objects ex_single) (triangles ex_single) (verticies ex_single)
              (primitives ex_single) (bvhArray ex_single) 1 0
              (replicate 3 ex_zero_record, [5; 5; 5])
    = Some [0; 5; 5].
Proof.
  split; [by vm_compute|]. split; [by vm_compute|]. split; [by vm_compute|].
  split; [by vm_compute|].
  intros fuel.
  rewrite (bvh_root_leaf_miss fuel 3 ex_paths (materials ex_single) (objects ex_single)
             (triangles ex_single) (verticies ex_single) (primitives ex_single)
             (bvhArray ex_single) 0) by (reflexivity || lia).
  reflexivity.
Qed.

(** A hit beyond [1e20f] and below [FLT_MAX] is a hit for the brute-force
    kernel and a miss for the BVH kernel. *)
Lemma far_hit_disagrees :
  bvh_shape 3 (bvhArray ex_far) (-1) 0 = Some (BNode 0 (BLeaf 1) (BLeaf 2)) ∧
  snd <$> compute_intersection 3 ex_paths (objects ex_far) 2 (triangles ex_far)
            (verticies ex_far) 0 (replicate 3 ex_zero_record, [5; 5; 5])
    = Some [1; 5; 5] ∧
  snd <$> compute_intersection_bvh_stackless 9 3 ex_paths (materials ex_far)
            (objects ex_far) (triangles ex_far) (verticies ex_far)
            (primitives ex_far) (bvhArray ex_far) 3 0
            (replicate 3 ex_zero_record, [5; 5; 5])
    = Some [0; 5; 5].
Proof. repeat split; by vm_compute. Qed.

(** A box that does not admit the ray hides the primitives below it: the
    BVH kernel finds the triangle at [t = 3] where the brute-force kernel
    finds the sphere at [t = 2]. *)
Lemma short_box_disagrees :
  bvh_shape 5 (bvhArray ex_short_box) (-1) 0
    = Some (BNode 0 (BLeaf 1) (BNode 2 (BLeaf 3) (BLeaf 4))) ∧
  lane_view <$> compute_intersection 3 ex_paths (objects ex_short_box) 3
                  (triangles ex_short_box) (verticies ex_short_box) 0
                  (replicate 3 ex_zero_record, [5; 5; 5])
  = Some ([(f_of 2, 1); (f_zero, 0); (f_zero, 0)], [1; 5; 5]) ∧
  lane_view <$> compute_intersection_bvh_stackless 9 3 ex_paths (materials ex_short_box)
                  (objects ex_short_box) (triangles ex_short_box) (verticies ex_short_box)
                  (primitives ex_short_box) (bvhArray ex_short_box) 5 0
                  (replicate 3 ex_zero_record, [5; 5; 5])
  = Some ([(f_of 3, 2); (f_zero, 0); (f_zero, 0)], [1; 5; 5]).
Proof. repeat split; by vm_compute. Qed.

Lemma ex_device_compactable : compactable ex_device 3.
Proof.
  constructor; try (simpl; unfold INT_MAX; lia).
  unfold flags01. change (Z.to_nat 3) with 3%nat. simpl.
  repeat (constructor; [by auto|]). constructor.
Qed.

(** Witness of C3: three paths of which the second has missed. *)
Lemma compact_rays_prefix_sum_count_witness :
  compactable ex_device 3 ∧
  let flag i := rd stray_int (rayValid ex_device) i in
  let slot i := rd stray_int (rayIndex (compact_rays ex_device 3 false).2) i in
  let count := (compact_rays ex_device 3 false).1 in
  let d' := (compact_rays ex_device 3 false).2 in
  (∀ i, 0 ≤ i < 3 → slot i = prefix_sum (rayValid ex_device) i) ∧
  (∀ i, 0 ≤ i < 3 → flag i = 1 →
     rd stray_path (dev_paths1 d') (slot i) = rd stray_path (dev_paths1 ex_device) i ∧
     rd stray_intersection (dev_intersections1 d') (slot i)
       = rd stray_intersection (dev_intersections1 ex_device) i) ∧
  count = slot (3 - 1) + flag (3 - 1) ∧
  count ≤ 3 ∧
  (count = 3 ↔ ∀ i, 0 ≤ i < 3 → flag i = 1).
Proof.
  split; [exact ex_device_compactable|].
  exact (compact_rays_prefix_sum_count ex_device 3 false ex_device_compactable).
Defined.

(** Witness of C4 on the same device. *)
Lemma compact_rays_order_preserved_witness :
  compactable ex_device 3 ∧
  let flag i := rd stray_int (rayValid ex_device) i in
  let slot i := rd stray_int (rayIndex (compact_rays ex_device 3 false).2) i in
  let count := (compact_rays ex_device 3 false).1 in
  let d' := (compact_rays ex_device 3 false).2 in
  (∀ i j, 0 ≤ i → i < j → j < 3 → flag i = 1 → flag j = 1 →
     0 ≤ slot i ∧ slot i < slot j ∧ slot j < count ∧
     rd stray_path (dev_paths1 d') (slot i) = rd stray_path (dev_paths1 ex_device) i ∧
     rd stray_path (dev_paths1 d') (slot j) = rd stray_path (dev_paths1 ex_device) j ∧
     rd stray_intersection (dev_intersections1 d') (slot i)
       = rd stray_intersection (dev_intersections1 ex_device) i ∧
     rd stray_intersection (dev_intersections1 d') (slot j)
       = rd stray_intersection (dev_intersections1 ex_device) j) ∧
  ((∀ i, 0 ≤ i < 3 → flag i = 1) →
     count = 3 ∧
     take (Z.to_nat 3) (dev_paths1 d') = take (Z.to_nat 3) (dev_paths1 ex_device) ∧
     take (Z.to_nat 3) (dev_intersections1 d')
       = take (Z.to_nat 3) (dev_intersections1 ex_device)).
Proof.
  split; [exact ex_device_compactable|].
  exact (compact_rays_order_preserved ex_device 3 ex_device_compactable).
Defined.

Example ex_compact :
  let '(n, d) := compact_rays ex_device 3 false in
  (n, pixelIndex <$> take 2 (dev_paths1 d), rayIndex d) = (2, [0; 2], [0; 1; 1]).
Proof. by vm_compute. Qed.

(** The walk over the five-node tree: the near leaf 1, across to node 2,
    down to its near leaf 4, across to leaf 3, and back up to the root. *)
Example ex_bvh_trace :
  bvh_trace 9 (bvhArray ex_scene) (primitives ex_scene) (objects ex_scene)
    (triangles ex_scene) (verticies ex_scene) ex_ray (bvh_start (bvhArray ex_scene) ex_ray)
  = [(1, fromParent); (2, fromSibling); (4, fromParent); (3, fromSibling);
     (2, fromChild); (0, fromChild)].
Proof. by vm_compute. Qed.

Lemma ex_scene_tree :
  tree_in (bvhArray ex_scene) (-1) (BNode 0 (BLeaf 1) (BNode 2 (BLeaf 3) (BLeaf 4))).
Proof.
  apply (bvh_shape_tree_in (bvhArray ex_scene) 5 (-1) 0). by vm_compute.
Qed.


(** Witness of C5: lane 0 has hit the emitting material 1. *)
Lemma scatter_emitting_witness :
  let o' := scatter_on_intersection 1 3 ex_records (materials ex_scene) 0 ex_out in
  color <$> so_paths o' = [v_of 2 2 2; v_of 1 1 1; v_of 1 1 1] ∧
  so_rayValid o' = [0; 1; 1] ∧
  so_image o' = [v_of 2 2 2; v_of 0 0 0; v_of 0 0 0].
Proof.
  destruct (scatter_emitting 1 3 ex_records (materials ex_scene) 0 ex_out
              ltac:(lia) eq_refl) as (Hp & Hv & Hadd & _).
  cbv zeta. rewrite Hp, Hv, Hadd by (by vm_compute). by vm_compute.
Defined.

(** Witness of C6: lane 1 has hit the diffuse material 0, whose stand-in
    sampler returns pdf 1. *)
Lemma scatter_non_emitting_witness :
  let o' := scatter_on_intersection 1 3 ex_records (materials ex_scene) 1 ex_out in
  so_rayValid o' = [1; 1; 1] ∧ so_image o' = so_image ex_out.
Proof.
  destruct (scatter_non_emitting 1 3 ex_records (materials ex_scene) 1 ex_out
              ltac:(lia) ltac:(by vm_compute)) as (_ & Hpos).
  destruct (Hpos ltac:(by vm_compute)) as (Hv & Hi & _).
  cbv zeta. rewrite Hv, Hi. by vm_compute.
Defined.

Lemma ex_blank_allocated :
  allocated (resolution_x (camera ex_corridor) * resolution_y (camera ex_corridor)) ex_blank.
Proof. by constructor. Qed.


(** Witness of C10: a brute-force pass over the cleared example device. *)
Lemma brute_force_keeps_type_tag_witness :
  ∃ d', trace_bounce false 0 ex_scene 1 3 (clear_intersections 3 ex_device) = Some d' ∧
        rayValid d' = [1; 1; 1] ∧
        Forall (λ rec, type rec = 0) (take (Z.to_nat 3) (dev_intersections1 d')).
Proof.
  destruct (trace_bounce false 0 ex_scene 1 3 (clear_intersections 3 ex_device))
    as [d'|] eqn:Hpass; [|by vm_compute in Hpass].
  exists d'. split; [done|]. split.
  - vm_compute in Hpass. by injection Hpass as <-.
  - exact (proj1 (proj2 (brute_force_keeps_type_tag 0 ex_scene 1 3 3 ex_device d' Hpass))).
Defined.

Lemma ex_buffers_full :
  Z.of_nat (length (replicate 4 (mkPathSegment ex_zero_ray (v_of 0 0 0) 0 0)))
  = resolution_x (camera ex_scene) * resolution_y (camera ex_scene) ∧
  Z.of_nat (length (ex_paths ++ ex_paths)) - 2
  = resolution_x (camera ex_scene) * resolution_y (camera ex_scene).
Proof. by vm_compute. Qed.

(** Witness of C7 (as amended): the 2 by 2 camera of the example scene and
    two buffers with different contents. *)
Lemma path_generation_reproducible_witness :
  generate_launch (camera ex_scene) 1 8 (replicate 4 (mkPathSegment ex_zero_ray (v_of 0 0 0) 0 0))
  = Some (generated (camera ex_scene) 1 8) ∧
  generate_launch (camera ex_scene) 1 8 (take 4 (ex_paths ++ ex_paths))
  = generate_launch (camera ex_scene) 1 8
      (replicate 4 (mkPathSegment ex_zero_ray (v_of 0 0 0) 0 0)).
Proof.
  destruct (path_generation_reproducible (camera ex_scene) 1 8
              (replicate 4 (mkPathSegment ex_zero_ray (v_of 0 0 0) 0 0))
              (take 4 (ex_paths ++ ex_paths))
              ltac:(simpl; lia) ltac:(simpl; lia) ltac:(by vm_compute)
              ltac:(by vm_compute) ltac:(by vm_compute)) as (Hgen & Hsame & _).
  by split.
Defined.

(** Counterexample to C7 as stated: in iteration 1 the path of pixel 2 sits
    in lane 2 before the compaction of the example device and in lane 1
    after it, and the engines of the two lanes differ, so the engine is not
    a function of pixel index, iteration and depth. *)
Lemma scatter_seed_follows_lane : ¬ scatter_seeded_by_pixel.
Proof.
  intros [f Hf].
  pose proof (Hf 1 1 2 (dev_paths1 ex_device) _ ltac:(lia) eq_refl) as Hlane2.
  pose proof (Hf 1 1 1 (dev_paths1 (compact_rays ex_device 3 false).2) _ ltac:(lia) eq_refl)
    as Hlane1.
  simpl in Hlane1, Hlane2. rewrite <- Hlane1 in Hlane2.
  vm_compute in Hlane2. discriminate.
Qed.

Example ex_generated :
  pixelIndex <$> generated (camera ex_scene) 1 8 = [0; 1; 2; 3].
Proof. by vm_compute. Qed.
(** ** The further properties on concrete data *)

Lemma ex_corridor_returns : kernels_return false 0 ex_corridor.
Proof. repeat (constructor; [by intros|]). constructor. Qed.

(** Witness of C8: the corridor scene run with trace depth 8 and with trace
    depth 1.  Both runs return alike; the second is stopped by the depth
    cap at depth 8 with its four paths alive, each of which still carries
    the bounce counter 1. *)
Lemma bounce_loop_guard_and_counters_witness :
  ∃ r1 r2,
    pathtrace_with false false 8 0 ex_corridor 1 false ex_blank = Some r1 ∧
    pathtrace_with false false 8 0 (with_traceDepth ex_corridor 1) 1 false ex_blank = Some r2 ∧
    same_loop_but_bounces r1.1 r2.1 ∧ r1.2 = r2.2 ∧
    depth r2.1 = 8 ∧ numRays r2.1 = 4 ∧
    remainingBounces <$> active_paths r2.1 = [1; 1; 1; 1].
Proof.
  destruct (bounce_loop_guard_and_counters false 8 0 ex_corridor 1 false ex_blank 1
              ex_corridor_returns ltac:(by vm_compute))
    as (_ & _ & _ & _ & _ & _ & _ & _ & _ & _ & _ & _ & r1 & r2 & Hr1 & Hr2 & Hs & Hi & _).
  exists r1, r2. split; [exact Hr1|]. split; [exact Hr2|]. split; [exact Hs|].
  split; [exact Hi|]. clear Hr1 Hs Hi.
  vm_compute in Hr2. injection Hr2 as <-. by vm_compute.
Defined.

#[local] Existing Instance ex_conversions.

(** Witness of X1: a white, a black, a NaN and an out-of-range pixel after
    one iteration. *)
Lemma present_launch_texels_witness :
  ∃ pbo', present_launch (camera ex_scene) 1 ex_image ex_pbo = Some pbo' ∧
          length pbo' = 4%nat ∧
          pbo' = [ mkUchar4 255 255 255 0; mkUchar4 0 0 0 0; mkUchar4 255 192 203 0;
                   mkUchar4 127 255 0 0 ].
Proof.
  destruct (present_launch_texels (camera ex_scene) 1 ex_image ex_pbo (λ _, mkUchar4 0 0 0 0)
              ltac:(simpl; lia) ltac:(simpl; lia) ltac:(by vm_compute) ltac:(by vm_compute))
    as (pbo' & Hrun & Hlen & _).
  exists pbo'. split; [done|]. split; [done|].
  vm_compute in Hrun. by injection Hrun as <-.
Defined.

(** Witness of X3: the sphere's leaf of the example tree, tested from the
    start bound. *)
Lemma leaf_intersect_only_improves_witness :
  ∃ isect',
    util_bvh_leaf_intersect (bvhArray ex_scene) 1 (primitives ex_scene) (objects ex_scene)
      (triangles ex_scene) (verticies ex_scene) ex_ray
      (tmpIntersection (bvh_start (bvhArray ex_scene) ex_ray)) = Some (true, isect') ∧
    fltb f_zero (t isect') = true ∧ fltb (t isect') f_1e20 = true.
Proof.
  destruct (util_bvh_leaf_intersect (bvhArray ex_scene) 1 (primitives ex_scene)
              (objects ex_scene) (triangles ex_scene) (verticies ex_scene) ex_ray
              (tmpIntersection (bvh_start (bvhArray ex_scene) ex_ray)))
    as [[[] isect']|] eqn:Hrun; try (by vm_compute in Hrun).
  exists isect'. split; [done|].
  exact (proj1 (proj2 (leaf_intersect_only_improves _ _ _ _ _ _ _ _ _ _ Hrun))).
Defined.

(** Witness of X4: lane 0 of the BVH kernel over the example scene. *)
Lemma bvh_kernel_hit_bounds_witness :
  ∃ out,
    compute_intersection_bvh_stackless 9 3 ex_paths (materials ex_scene) (objects ex_scene)
      (triangles ex_scene) (verticies ex_scene) (primitives ex_scene) (bvhArray ex_scene) 5 0
      (replicate 3 ex_zero_record, [5; 5; 5]) = Some out ∧
    rd stray_int out.2 0 = 1 ∧
    fltb (t (rd stray_intersection out.1 0)) f_1e20 = true.
Proof.
  destruct (compute_intersection_bvh_stackless 9 3 ex_paths (materials ex_scene)
              (objects ex_scene) (triangles ex_scene) (verticies ex_scene)
              (primitives ex_scene) (bvhArray ex_scene) 5 0
              (replicate 3 ex_zero_record, [5; 5; 5])) as [out|] eqn:Hrun;
    [|by vm_compute in Hrun].
  exists out. split; [done|].
  destruct (bvh_kernel_hit_bounds 9 3 ex_paths (materials ex_scene) (objects ex_scene)
              (triangles ex_scene) (verticies ex_scene) (primitives ex_scene)
              (bvhArray ex_scene) 5 0 (replicate 3 ex_zero_record) [5; 5; 5] out
              ltac:(lia) ltac:(simpl; lia) ltac:(simpl; lia) Hrun)
    as [[Hflag _] | (Hflag & _ & Hlt & _)].
  - vm_compute in Hrun. injection Hrun as <-. by vm_compute in Hflag.
  - by split.
Defined.

Lemma ex_scene_meshes :
  Forall (λ geom, otype geom = MODEL → triangleStart geom ≤ triangleEnd geom)
         (objects ex_scene).
Proof. repeat (constructor; [simpl; intros; lia|]). constructor. Qed.

(** Witness of X5: lane 0 of the brute-force kernel over the example scene. *)
Lemma brute_force_nearest_hit_witness :
  ∃ out,
    compute_intersection 3 ex_paths (objects ex_scene) 3 (triangles ex_scene)
      (verticies ex_scene) 0 (replicate 3 ex_zero_record, [5; 5; 5]) = Some out ∧
    lane_view out = ([(f_of 2, 1); (f_zero, 0); (f_zero, 0)], [1; 5; 5]).
Proof.
  destruct (brute_force_nearest_hit 3 ex_paths (objects ex_scene) (triangles ex_scene)
              (verticies ex_scene) 0 (replicate 3 ex_zero_record) [5; 5; 5]
              ex_scene_meshes ltac:(lia) ltac:(simpl; lia) ltac:(simpl; lia))
    as (out & Hrun & _).
  exists out. split; [exact Hrun|].
  vm_compute in Hrun. injection Hrun as <-. by vm_compute.
Defined.

(** Witness of X6: the two leaves below node 2 of the example tree. *)
Lemma sibling_swaps_children_witness :
  util_bvh_get_sibling (bvhArray ex_scene) 3 = 4 ∧
  util_bvh_get_sibling (bvhArray ex_scene) (util_bvh_get_sibling (bvhArray ex_scene) 3) = 3.
Proof.
  assert (Hin : tree_in (bvhArray ex_scene) 0 (BNode 2 (BLeaf 3) (BLeaf 4))).
  { apply (bvh_shape_tree_in (bvhArray ex_scene) 5 0 2). by vm_compute. }
  destruct (sibling_swaps_children (bvhArray ex_scene) 0 2 (BLeaf 3) (BLeaf 4) 3 (v_of 0 0 0)
              Hin ltac:(by left)) as (_ & _ & _ & Hinv & _).
  split; [by vm_compute | exact Hinv].
Defined.

Lemma ex_scene_returns : kernels_return true 9 ex_scene.
Proof.
  exists (BLeaf 1), (BNode 2 (BLeaf 3) (BLeaf 4)). split; [by vm_compute | simpl; lia].
Qed.

(** Witness of X7: an iteration over the example scene with nine walk rounds. *)
Lemma pathtrace_terminates_witness :
  ∃ l image, pathtrace 8 9 ex_scene 1 false ex_blank = Some (l, image) ∧
             0 ≤ depth l ≤ MAX_ITER ∧ loop_guard l = false.
Proof.
  exact (pathtrace_terminates true false 8 9 ex_scene 1 false ex_blank ex_scene_returns
           ltac:(by vm_compute)).
Defined.

Lemma ex_behind_nothing : nothing_to_hit true 9 ex_behind.
Proof.
  exists (BLeaf 1), (BNode 2 (BLeaf 3) (BLeaf 4)). split; [by vm_compute|].
  split; [simpl; lia|]. intros r Hr.
  cbn [boundingBoxIntersectionTest ex_intersections]. rewrite Hr. by vm_compute.
Qed.


(** Witness of X10: the example device, whose second lane has missed. *)
Lemma compact_keeps_pairs_witness :
  let r := compact_rays ex_device 3 false in
  r.1 = 2 ∧
  zip (take 2 (dev_paths1 r.2)) (take 2 (dev_intersections1 r.2))
  = [ (mkPathSegment ex_ray (v_of 1 1 1) 0 8,
       mkShadeableIntersection (f_of 2) (v_of (-1) 0 0) (v_of 2 0 0) 1 0);
      (mkPathSegment ex_ray (v_of 1 1 1) 2 8,
       mkShadeableIntersection (f_of 5) (v_of (-1) 0 0) (v_of 5 0 0) 2 0) ].
Proof.
  destruct (compact_keeps_pairs ex_device 3 ex_device_compactable) as (Hzip & _).
  split; [by vm_compute|].
  change 2%nat with (Z.to_nat (compact_rays ex_device 3 false).1).
  rewrite Hzip. by vm_compute.
Defined.

Lemma ex_corridor_start_sized :
  loop_sized 4 (loop_start 4 ex_blank (generated (camera ex_corridor) 1 8)).
Proof.
  exact (loop_start_sized (camera ex_corridor) 1 8 ex_blank ltac:(simpl; lia)
           ltac:(simpl; lia) ltac:(by vm_compute) ex_blank_allocated).
Qed.

(** Witness of X11: the first round over the corridor of diffuse boxes. *)
Lemma bounce_round_shrinks_witness :
  ∃ l', bounce_round false false 0 ex_corridor 1 4 false
          (loop_start 4 ex_blank (generated (camera ex_corridor) 1 8)) = Some (false, l') ∧
        depth l' = 1 ∧ 0 ≤ numRays l' ≤ 4.
Proof.
  destruct (bounce_round false false 0 ex_corridor 1 4 false
              (loop_start 4 ex_blank (generated (camera ex_corridor) 1 8)))
    as [[[] l']|] eqn:Hround; try (by vm_compute in Hround).
  exists l'. split; [done|].
  destruct (bounce_round_shrinks false 0 ex_corridor 1 4 false _ false l'
              ex_corridor_start_sized ltac:(simpl; lia) eq_refl Hround) as (Hd & Hn & _).
  split; [exact Hd | exact Hn].
Defined.

(** Witness of X12: the 2 by 2 camera of the example scene. *)
Lemma generation_one_ray_per_pixel_witness :
  ∃ paths,
    generate_launch (camera ex_scene) 1 8
      (replicate 4 (mkPathSegment ex_zero_ray (v_of 0 0 0) 0 0)) = Some paths ∧
    pixelIndex <$> paths = [0; 1; 2; 3].
Proof.
  destruct (generation_one_ray_per_pixel (camera ex_scene) 1 8
              (replicate 4 (mkPathSegment ex_zero_ray (v_of 0 0 0) 0 0))
              ltac:(simpl; lia) ltac:(simpl; lia) ltac:(by vm_compute) ltac:(by vm_compute))
    as (paths & Hrun & _ & Hpix & _).
  exists paths. split; [done|]. rewrite Hpix. by vm_compute.
Defined.

(** Witness of X13: a camera without columns. *)
Lemma generation_without_pixels_witness :
  blocks2d (resolution_x ex_no_columns) = 0 ∧
  generate_launch ex_no_columns 1 8 ex_paths = Some ex_paths.
Proof.
  split; [by vm_compute|].
  exact (proj2 (generation_without_pixels ex_no_columns 1 8 ex_paths
                  ltac:(left; simpl; lia))).
Defined.

(** Witness of X14: the buffers of the corridor scene and one iteration from them. *)
Lemma pathtrace_keeps_buffers_witness :
  allocated 4 (pathtraceInit ex_corridor) ∧
  ∃ r, pathtrace_with false false 8 0 ex_corridor 1 false (pathtraceInit ex_corridor) = Some r ∧
       allocated 4 (pathtrace_device r).
Proof.
  destruct (pathtrace_keeps_buffers ex_corridor ltac:(simpl; lia) ltac:(simpl; lia)
              ltac:(by vm_compute)) as (Hinit & _ & Hnext).
  split; [exact Hinit|].
  destruct (pathtrace_with false false 8 0 ex_corridor 1 false (pathtraceInit ex_corridor))
    as [r|] eqn:Hrun; [|by vm_compute in Hrun].
  exists r. split; [done|]. exact (Hnext false 8%nat 0%nat 1 false _ r Hinit Hrun).
Defined.

(** Witness of X15: a pixel at plus infinity and a path that brings minus infinity. *)
Lemma nan_guard_checks_contribution_witness :
  util_math_is_nan (color ex_dark) = false ∧
  util_math_is_nan (rd stray_pixel ex_bright 0) = false ∧
  util_math_is_nan (rd stray_pixel (finalGather 1 [ex_dark] 0 ex_bright) 0) = true.
Proof.
  split; [by vm_compute|]. split; [by vm_compute|].
  exact (proj2 (nan_guard_checks_contribution 1 [ex_dark] 0 ex_bright ltac:(lia)
                  ltac:(by vm_compute) eq_refl) eq_refl eq_refl).
Defined.

(** Witness of X16: a BVH launch over two of the three lanes of the cleared
    example device. *)
Lemma trace_launch_frame_witness :
  ∃ d', trace_bounce true 9 ex_scene 1 2 (clear_intersections 3 ex_device) = Some d' ∧
        rayValid d' = [1; 1; 1] ∧
        drop 2 (dev_intersections1 d') = [zero_intersection] ∧
        dev_paths1 d' = ex_paths.
Proof.
  destruct (trace_bounce true 9 ex_scene 1 2 (clear_intersections 3 ex_device))
    as [d'|] eqn:Hrun; [|by vm_compute in Hrun].
  exists d'. split; [done|].
  destruct (trace_launch_frame true 9 ex_scene 1 2 _ d' Hrun)
    as (_ & Hp & _ & _ & _ & _ & _ & Hdi & _).
  split; [|split; [|exact Hp]].
  - vm_compute in Hrun. by injection Hrun as <-.
  - change 2%nat with (Z.to_nat 2). rewrite Hdi. by vm_compute.
Defined.

(** Witness of X17: the corridor keeps four paths alive for eight rounds and
    is left by the guard with traced depth 8; the two boxes are left by the
    [break] of the third round, at depth 3 with traced depth 2. *)
Lemma traced_depth_counts_scatter_rounds_witness :
  (∃ l image,
     pathtrace_with false false 8 0 ex_corridor 1 true ex_blank = Some (l, image) ∧
     depth l = 8 ∧ TracedDepth l = Some 8 ∧ loop_guard l = false) ∧
  (∃ l image lp,
     pathtrace_with false false 8 0 ex_two_boxes 1 true ex_blank = Some (l, image) ∧
     depth l = 3 ∧ TracedDepth l = Some 2 ∧
     depth lp = 2 ∧ bounce_round false false 0 ex_two_boxes 1 4 true lp = Some (true, l)).
Proof.
  split.
  - destruct (pathtrace_with false false 8 0 ex_corridor 1 true ex_blank)
      as [[l image]|] eqn:Hrun; [|by vm_compute in Hrun].
    assert (Hl : depth l = 8 ∧ numRays l = 4 ∧ TracedDepth l = Some 8).
    { vm_compute in Hrun. by injection Hrun as <- <-. }
    destruct Hl as (Hdl & Hn & Htl).
    destruct (traced_depth_counts_scatter_rounds false false 8 0 ex_corridor 1 true ex_blank
                l image Hrun) as (paths & k & lp & _ & _ & Hd & _ & Ht & Hcases).
    exists l, image. split; [reflexivity|]. split; [exact Hdl|]. split; [exact Htl|].
    destruct Hcases as [[_ Hg] | (_ & _ & _ & Hz)]; [exact Hg | lia].
  - destruct (pathtrace_with false false 8 0 ex_two_boxes 1 true ex_blank)
      as [[l image]|] eqn:Hrun; [|by vm_compute in Hrun].
    assert (Hl : depth l = 3 ∧ TracedDepth l = Some 2).
    { vm_compute in Hrun. by injection Hrun as <- <-. }
    destruct Hl as (Hdl & Htl).
    destruct (traced_depth_counts_scatter_rounds false false 8 0 ex_two_boxes 1 true ex_blank
                l image Hrun) as (paths & k & lp & _ & _ & Hd & _ & Ht & Hcases).
    assert (Hk : Z.of_nat k = 2).
    { rewrite Htl in Ht. unfold traced_after in Ht.
      destruct (Z.of_nat k =? 0); [discriminate Ht | by injection Ht]. }
    exists l, image, lp. split; [reflexivity|]. split; [exact Hdl|]. split; [exact Htl|].
    split; [lia|].
    destruct Hcases as [[Hl _] | (_ & Hround & _)]; [|exact Hround].
    rewrite Hl in Hdl. lia.
Defined.
End Examples.
